(** * ScaryPi: animated eyes on two 8x8 LED matrices

    A shallow embedding of [scarypi.py] and the properties of its
    animation engine and pixel model.

    Conventions of the embedding.
    - Python integers are [Z].  In the animation engine Python floats
      ([pct], the elapsed milliseconds, the interpolated offsets) are
      modelled by exact rationals [Q]; [int(...)] is truncation toward
      zero.  The code rounds every float operation to a double, so at
      the very end of a duration, or where a value is within a
      rounding error of an integer, it can decide otherwise than the
      exact numbers do.  What is proved of a [tick] at the end of a
      duration is therefore stated for times short of it and past it,
      not for the instant itself.
    - [Look._animate] is also given on Python numbers, integers and
      IEEE 754 doubles (Rocq's primitive floats), for the properties
      that are about the value of its float expression.
    - A [datetime] timestamp is the number of microseconds since some
      epoch, a [Z]; [timedelta.total_seconds() * 1000] is that
      difference divided by 1000.
    - [Point] objects are mutable and shared, so they live in a store
      and are named by their identity.  The two [Eye] objects of
      [animation_loop] and the device are fields of the [World].
    - Animation objects are never shared between two parents in this
      program, so an animation is a tree value and [begin]/[tick]
      return the updated tree.
    - Code that can raise runs in the state-and-exception monad [M].
    - The program is Python 2: [/] on two integers is floor division
      and [xrange] is the integer range. *)

From Stdlib Require Import ZArith QArith Qround Lia Lqa.
From Stdlib Require Floats.FloatOps.
From stdpp Require Import base tactics option list list_numbers.

Local Open Scope Z_scope.

(** ** Objects, the world and the monad *)

Inductive exn :=
| TypeError          (* e.g. [now - None] *)
| IndexError         (* sequence index out of range *)
| ValueError         (* a bytearray item outside 0..255 *)
| ZeroDivisionError
| OverflowError      (* an integer or a float beyond the other's range *)
| InvalidReference.  (* a Point identity that was never allocated *)

Inductive result (A : Type) :=
| Ok (a : A)
| Raise (e : exn).
Arguments Ok {A} a.
Arguments Raise {A} e.

Module Point.
Record t := mk { x : Z; y : Z }.
End Point.

(** The identity of a [Point] object: its index in the store. *)
Definition ref := nat.

Record Eye := {
  pixels : list Z;   (* bytearray of 8 rows, bit 7 is column 0 *)
  pupil : ref;       (* the Point object that is the pupil *)
  eyelids : Z
}.

Inductive EyeRef := LeftEye | RightEye.

Record World := {
  points : list Point.t;     (* every Point constructed so far *)
  left_eye : Eye;
  right_eye : Eye;
  contrast : list Z;         (* arguments of device.contrast, latest first *)
  random_source : nat -> Z;  (* the raw draws of the random module *)
  random_count : nat         (* how many were consumed *)
}.

Definition M (A : Type) : Type := World -> result (A * World).

#[global] Instance M_ret : MRet M := fun A a w => Ok (a, w).
#[global] Instance M_bind : MBind M := fun A B f m w =>
  match m w with
  | Ok (a, w') => f a w'
  | Raise e => Raise e
  end.

Definition raise {A} (e : exn) : M A := fun _ => Raise e.

Definition eye_of (r : EyeRef) (w : World) : Eye :=
  match r with LeftEye => left_eye w | RightEye => right_eye w end.

Definition with_eye (r : EyeRef) (e : Eye) (w : World) : World :=
  match r with
  | LeftEye =>
      {| points := points w; left_eye := e; right_eye := right_eye w;
         contrast := contrast w; random_source := random_source w;
         random_count := random_count w |}
  | RightEye =>
      {| points := points w; left_eye := left_eye w; right_eye := e;
         contrast := contrast w; random_source := random_source w;
         random_count := random_count w |}
  end.

(** The world after an assignment to one attribute of the eye [self]. *)
Definition with_pixels (self : EyeRef) (px : list Z) (w : World) : World :=
  with_eye self {| pixels := px; pupil := pupil (eye_of self w);
                   eyelids := eyelids (eye_of self w) |} w.

Definition with_pupil (self : EyeRef) (pos : ref) (w : World) : World :=
  with_eye self {| pixels := pixels (eye_of self w); pupil := pos;
                   eyelids := eyelids (eye_of self w) |} w.

Definition with_eyelids (self : EyeRef) (v : Z) (w : World) : World :=
  with_eye self {| pixels := pixels (eye_of self w); pupil := pupil (eye_of self w);
                   eyelids := v |} w.

(** Reading the eye, and [self.pixels = px], [self.pupil = pos],
    [self.eyelids = v]. *)
Definition get_eye (r : EyeRef) : M Eye := fun w => Ok (eye_of r w, w).

Definition set_pixels (self : EyeRef) (px : list Z) : M unit := fun w =>
  Ok (tt, with_pixels self px w).

Definition set_pupil (self : EyeRef) (pos : ref) : M unit := fun w =>
  Ok (tt, with_pupil self pos w).

Definition set_eyelids (self : EyeRef) (v : Z) : M unit := fun w =>
  Ok (tt, with_eyelids self v w).

Definition set_points (ps : list Point.t) (w : World) : World :=
  {| points := ps; left_eye := left_eye w; right_eye := right_eye w;
     contrast := contrast w; random_source := random_source w;
     random_count := random_count w |}.

(** [Point(x, y)]: a new object, distinct from all existing ones. *)
Definition new_Point (x y : Z) : M ref := fun w =>
  Ok (length (points w), set_points (points w ++ [Point.mk x y]) w).

Definition deref (p : ref) : M Point.t := fun w =>
  match points w !! p with
  | Some v => Ok (v, w)
  | None => Raise InvalidReference
  end.

(** [p.x = vx] and [p.y = vy] on the object [p]. *)
Definition set_x (p : ref) (vx : Z) : M unit := fun w =>
  match points w !! p with
  | Some v => Ok (tt, set_points (<[p := Point.mk vx (Point.y v)]> (points w)) w)
  | None => Raise InvalidReference
  end.

Definition set_y (p : ref) (vy : Z) : M unit := fun w =>
  match points w !! p with
  | Some v => Ok (tt, set_points (<[p := Point.mk (Point.x v) vy]> (points w)) w)
  | None => Raise InvalidReference
  end.

(** [device.contrast(c)] *)
Definition with_contrast (c : Z) (w : World) : World :=
  {| points := points w; left_eye := left_eye w; right_eye := right_eye w;
     contrast := c :: contrast w; random_source := random_source w;
     random_count := random_count w |}.

Definition device_contrast (c : Z) : M unit := fun w => Ok (tt, with_contrast c w).

(** [random.randint(lo, hi)]: the next raw draw, brought into [lo..hi]. *)
Definition drawn (w : World) : World :=
  {| points := points w; left_eye := left_eye w; right_eye := right_eye w;
     contrast := contrast w; random_source := random_source w;
     random_count := S (random_count w) |}.

Definition randint (lo hi : Z) : M Z := fun w =>
  Ok (lo + random_source w (random_count w) mod (hi - lo + 1), drawn w).

(** [for i in xrange(lo, hi): body(i)] *)
Fixpoint for_each {A} (l : list A) (body : A -> M unit) : M unit :=
  match l with
  | [] => mret tt
  | i :: l' => body i;; for_each l' body
  end.

Definition xrange (lo hi : Z) : list Z := seqZ lo (hi - lo).

(** [int(q)] on a float: truncation toward zero. *)
Definition int (q : Q) : Z := Z.quot (Qnum q) (Zpos (Qden q)).

(** ** Eye *)

(** Basic eyeball template (without a pupil). *)
Definition eye_ball : list Z :=
  [ 0x3c     (* 0b00111100 *)
  ; 0x7e     (* 0b01111110 *)
  ; 0xff     (* 0b11111111 *)
  ; 0xff
  ; 0xff
  ; 0xff
  ; 0x7e
  ; 0x3c ].

(** [self.pixels[i]] with [0 <= i]. *)
Definition getitem (l : list Z) (i : Z) : M Z :=
  match l !! Z.to_nat i with
  | Some v => mret v
  | None => raise IndexError
  end.

(** [self.pixels[i] = v] on a bytearray, with [0 <= i]. *)
Definition set_pixel_row (self : EyeRef) (i v : Z) : M unit :=
  e ← get_eye self;
  if decide (length (pixels e) ≤ Z.to_nat i)%nat then raise IndexError
  else if decide (0 <= v < 256) then
    set_pixels self (<[Z.to_nat i := v]> (pixels e))
  else raise ValueError.

Definition len_pixels (self : EyeRef) : M Z :=
  e ← get_eye self; mret (Z.of_nat (length (pixels e))).

(** Python's [%]: the result has the sign of the divisor. *)
Definition py_mod (a b : Z) : M Z :=
  if decide (b = 0) then raise ZeroDivisionError else mret (a mod b).

Definition Eye_init (p : ref) : Eye :=
  {| pixels := eye_ball; pupil := p; eyelids := -1 |}.

(** Flips the pixel at x,y on. Wraps if x/y out of bounds. *)
Definition _on (self : EyeRef) (x y : Z) : M unit :=
  let y := y mod 8 in
  let x := x mod 8 in
  e ← get_eye self;
  row ← getitem (pixels e) y;
  set_pixel_row self y (Z.lor row (Z.shiftl 1 (7 - x))).

(** Flips the pixel at x,y off. Wraps if x/y out of bounds. *)
Definition _off (self : EyeRef) (x y : Z) : M unit :=
  let y := y mod 8 in
  let x := x mod 8 in
  e ← get_eye self;
  row ← getitem (pixels e) y;
  set_pixel_row self y (Z.land row (Z.lnot (Z.shiftl 1 (7 - x)))).

(** Flips the whole row at y on. Wraps if y out of bounds. *)
Definition _row_on (self : EyeRef) (y : Z) : M unit :=
  n ← len_pixels self;
  y ← py_mod y n;
  set_pixel_row self y 0xff.

(** Flips the whole row at y off. Wraps if y out of bounds. *)
Definition _row_off (self : EyeRef) (y : Z) : M unit :=
  n ← len_pixels self;
  y ← py_mod y n;
  set_pixel_row self y 0.

(** Immediately moves the pupil of the eyeball to pos.  The Point
    object [pos] itself becomes the pupil and is then normalised in
    place. *)
Definition _look (self : EyeRef) (pos : ref) : M unit :=
  set_pupil self pos;;
  e ← get_eye self; p ← deref (pupil e);
  set_x (pupil e) (Point.x p mod 8);;
  e ← get_eye self; p ← deref (pupil e);
  set_y (pupil e) (Point.y p mod 8).

(** Moves the eyelids to the given offset, -1=open, 3=closed. *)
Definition _eyelids (self : EyeRef) (offset : Z) : M unit :=
  set_eyelids self (Z.max (-1) (Z.min offset 3)).

Definition pupil_point (self : EyeRef) : M Point.t :=
  e ← get_eye self; deref (pupil e).

(** Renders the current state of the eye into an 8x8 monochrome image,
    returned as its 8 row bytes. *)
Definition image (self : EyeRef) : M (list Z) :=
  set_pixels self eye_ball;;
  (* Draw pupil *)
  p ← pupil_point self; _off self (Point.x p - 1) (Point.y p - 1);;
  p ← pupil_point self; _off self (Point.x p) (Point.y p - 1);;
  p ← pupil_point self; _off self (Point.x p - 1) (Point.y p);;
  p ← pupil_point self; _off self (Point.x p) (Point.y p);;
  (* Draw eyelids, if requested. *)
  e ← get_eye self;
  (if decide (0 <= eyelids e) then
     for_each (xrange 0 (eyelids e + 1)) (fun i =>
       _row_off self i;;
       _row_off self (7 - i))
   else mret tt);;
  e ← get_eye self;
  mret (pixels e).

(** ** Animations *)

(** The fields every linear animation has: [start], [done] (from
    [Animation]) and [duration_ms]. *)
Module LinearAnimation.
Record t := mk { start : option Z; done : bool; duration_ms : Z }.

(** [LinearAnimation.__init__] *)
Definition init (duration_ms : Z) : t :=
  {| start := None; done := false; duration_ms := duration_ms |}.

Definition set_start (now : Z) (b : t) : t :=
  {| start := Some now; done := done b; duration_ms := duration_ms b |}.

Definition set_done (d : bool) (b : t) : t :=
  {| start := start b; done := d; duration_ms := duration_ms b |}.
End LinearAnimation.

(** The classes of the program.  The effects ([CrossEyes], [CrazySpin],
    ...) only add a constructor to [AnimationSequence]; they are the
    functions of the same name below. *)
#[warnings="-register-all"]
Inductive Animation :=
| Look (base : LinearAnimation.t) (eye : EyeRef) (origin dest : ref) (dx dy : Z)
| Blink (base : LinearAnimation.t) (eye : EyeRef) (eyelid : Z)
| GlowEyes (base : LinearAnimation.t)
| Wait (base : LinearAnimation.t)
| AnimationGroup (start : option Z) (done : bool) (animations : list Animation)
| AnimationSequence (start : option Z) (done : bool)
    (animations : list Animation) (active : option Animation).

(** [a.done] *)
Definition done (a : Animation) : bool :=
  match a with
  | Look b _ _ _ _ _ | Blink b _ _ | GlowEyes b | Wait b => LinearAnimation.done b
  | AnimationGroup _ d _ | AnimationSequence _ d _ _ => d
  end.

(** [a.start] *)
Definition start (a : Animation) : option Z :=
  match a with
  | Look b _ _ _ _ _ | Blink b _ _ | GlowEyes b | Wait b => LinearAnimation.start b
  | AnimationGroup s _ _ | AnimationSequence s _ _ _ => s
  end.

(** [a.begin(now)]: [Animation.begin] sets the start time; only
    [AnimationGroup] overrides it, to begin its children as well. *)
Fixpoint begin (now : Z) (a : Animation) : Animation :=
  match a with
  | Look b e o d dx dy => Look (LinearAnimation.set_start now b) e o d dx dy
  | Blink b e l => Blink (LinearAnimation.set_start now b) e l
  | GlowEyes b => GlowEyes (LinearAnimation.set_start now b)
  | Wait b => Wait (LinearAnimation.set_start now b)
  | AnimationGroup _ d l => AnimationGroup (Some now) d (map (begin now) l)
  | AnimationSequence _ d l act => AnimationSequence (Some now) d l act
  end.

(** [(now - start).total_seconds() * 1000] *)
Definition elapsed_ms (now start : Z) : Q := (now - start) # 1000.

(** [LinearAnimation.tick], given the subclass's [_animate]. *)
Definition LinearAnimation_tick (_animate : Q -> M unit) (now : Z)
    (self : LinearAnimation.t) : M LinearAnimation.t :=
  match LinearAnimation.start self with
  | None => raise TypeError
  | Some t0 =>
      let dt := elapsed_ms now t0 in
      if Qle_bool dt 0 then mret self
      else if Qle_bool dt (inject_Z (LinearAnimation.duration_ms self)) then
        _animate (dt / inject_Z (LinearAnimation.duration_ms self))%Q;;
        mret self
      else
        _animate 1%Q;;
        mret (LinearAnimation.set_done true self)
  end.

Definition Qlt_bool (a b : Q) : bool := negb (Qle_bool b a).

Definition Look_animate (self : LinearAnimation.t) (eye : EyeRef)
    (origin : ref) (dx dy : Z) (pct : Q) : M unit :=
  if LinearAnimation.done self then mret tt
  else
    o ← deref origin;
    let cx := int (inject_Z (Point.x o) + inject_Z dx * pct)%Q in
    o ← deref origin;
    let cy := int (inject_Z (Point.y o) + inject_Z dy * pct)%Q in
    curr ← new_Point cx cy;
    _look eye curr.

(** *** Look._animate on Python numbers

    [_animate(pct)] takes any number.  [LinearAnimation.tick] passes a
    float, and then the product and the sum of
    [int(self.origin.x + (self.dx * pct))] are those of floats: IEEE
    754 doubles, Rocq's primitive floats, an integer that meets a
    float being converted to the nearest double first.  With an
    integer [pct] the expression is one of integers. *)








(** The offset [Blink._animate] computes before [int]. *)
Definition blink_offset (pct : Q) : Q :=
  if Qlt_bool pct (1 # 2) then (4 * (pct / (49 # 100)) + (1 # 2))%Q
  else (4 - (4 * ((pct - (1 # 2)) / (49 # 100)) + (1 # 2)))%Q.

Definition Blink_animate (self : LinearAnimation.t) (eye : EyeRef)
    (pct : Q) : M unit :=
  if LinearAnimation.done self then mret tt
  else
    (* Close eyelids 0->4 in first half of animation, then re-open. *)
    _eyelids eye (int (blink_offset pct));;
    (* Ensure eyes fully open again at end of animation. *)
    if Qle_bool 1 pct then _eyelids eye (-1) else mret tt.

(** The contrast [GlowEyes._animate] computes from [pct]. *)
Definition glow_contrast (pct : Q) : Z :=
  if Qlt_bool pct (1 # 2) then int (30 + 120 * (pct / (49 # 100)))%Q
  else int (150 - 120 * ((pct - (1 # 2)) / (49 # 100)))%Q.

Definition GlowEyes_animate (self : LinearAnimation.t) (pct : Q) : M unit :=
  if LinearAnimation.done self then mret tt
  else
    (* Increase contrast 30->150 in first half of animation, then bring down again. *)
    device_contrast (glow_contrast pct);;
    if Qle_bool 1 pct then device_contrast 30 else mret tt.

(** [LinearAnimation._animate], which [Wait] inherits: nothing. *)
Definition Wait_animate (pct : Q) : M unit := mret tt.

(** [a.tick(now)] *)
Fixpoint tick (now : Z) (a : Animation) : M Animation :=
  match a with
  | Look b e o d dx dy =>
      b' ← LinearAnimation_tick (Look_animate b e o dx dy) now b;
      mret (Look b' e o d dx dy)
  | Blink b e l =>
      b' ← LinearAnimation_tick (Blink_animate b e) now b;
      mret (Blink b' e l)
  | GlowEyes b =>
      b' ← LinearAnimation_tick (GlowEyes_animate b) now b;
      mret (GlowEyes b')
  | Wait b =>
      b' ← LinearAnimation_tick Wait_animate now b;
      mret (Wait b')
  | AnimationGroup s d l =>
      l' ← (fix tick_all (l : list Animation) : M (list Animation) :=
              match l with
              | [] => mret []
              | a :: r => a' ← tick now a; r' ← tick_all r; mret (a' :: r')
              end) l;
      mret (AnimationGroup s (forallb done l') l')
  | AnimationSequence s d l act =>
      let next : M Animation :=
        (* Pop next animation from queue and start, if none. *)
        match l with
        | a :: r => mret (AnimationSequence s d r (Some (begin now a)))
        (* No more animations => done. *)
        | [] => mret (AnimationSequence s true [] None)
        end in
      match act with
      | Some a =>
          (* End current animation, if done. *)
          if done a then next
          else a' ← tick now a; mret (AnimationSequence s d l (Some a'))
      | None => next
      end
  end.

(** The loop of [AnimationGroup.tick], by itself. *)
Definition tick_all (now : Z) : list Animation -> M (list Animation) :=
  fix tick_all (l : list Animation) : M (list Animation) :=
    match l with
    | [] => mret []
    | a :: r => a' ← tick now a; r' ← tick_all r; mret (a' :: r')
    end.

(** *** Constructors *)

Definition AnimationGroup_init (l : list Animation) : Animation :=
  AnimationGroup None false l.

Definition AnimationSequence_init (l : list Animation) : Animation :=
  AnimationSequence None false l None.

(** [Look(eye, where, duration_ms)]: the origin is the Point object
    that is the pupil at this moment.  (The default of [duration_ms],
    200, is never used: every Look is made by [Eye.look].) *)
Definition Look_init (eye : EyeRef) (where_ : ref) (duration_ms : Z) : M Animation :=
  e ← get_eye eye;
  let origin := pupil e in
  let dest := where_ in
  d ← deref dest; o ← deref origin;
  let dx := Point.x d - Point.x o in
  d ← deref dest; o ← deref origin;
  let dy := Point.y d - Point.y o in
  let base := LinearAnimation.init duration_ms in
  mret (Look (if decide (dx = 0 ∧ dy = 0) then LinearAnimation.set_done true base
              else base)
             eye origin dest dx dy).

Definition Blink_init (eye : EyeRef) (duration_ms : Z) : Animation :=
  Blink (LinearAnimation.init duration_ms) eye 0.

Definition GlowEyes_init (duration_ms : Z) : Animation :=
  GlowEyes (LinearAnimation.init duration_ms).

(** [Wait.__init__(self, eye, duration_ms=300)]: the first positional
    argument is [eye], which is not used; [duration_ms] is the second,
    [None] standing for an omitted argument. *)
Definition Wait_init {A} (eye : A) (duration_ms : option Z) : Animation :=
  Wait (LinearAnimation.init (default 300 duration_ms)).

(** [eye.look(pos, duration_ms)] and [eye.blink(duration_ms)], with
    their defaults 300 and 500. *)
Definition look (self : EyeRef) (pos : ref) (duration_ms : option Z) : M Animation :=
  Look_init self pos (default 300 duration_ms).

Definition blink (self : EyeRef) (duration_ms : option Z) : Animation :=
  Blink_init self (default 500 duration_ms).

(** ** Effects *)

(** [AnimationGroup(left.look(Point(lx, ly), ms), right.look(Point(rx, ry), ms))],
    the expression all the two-eye effects are made of; arguments are
    evaluated left to right. *)
Definition look_both (left right : EyeRef) (lx ly rx ry ms : Z) : M Animation :=
  p ← new_Point lx ly; a ← look left p (Some ms);
  q ← new_Point rx ry; b ← look right q (Some ms);
  mret (AnimationGroup_init [a; b]).

(** [[f(i) for i in l]] with effects. *)
Fixpoint for_list {A B} (l : list A) (f : A -> M B) : M (list B) :=
  match l with
  | [] => mret []
  | i :: l' => b ← f i; r ← for_list l' f; mret (b :: r)
  end.

(** Crosses the eyes.  [/] on two Python 2 integers is floor division. *)
Definition CrossEyes (left right : EyeRef) (duration_ms : option Z) : M Animation :=
  let ms := default 3000 duration_ms / 3 in
  g1 ← look_both left right 6 4 2 4 ms;
  let w := Wait_init ms None in
  g2 ← look_both left right 4 4 4 4 ms;
  mret (AnimationSequence_init [g1; w; g2]).

(** Inverse 'cross eyes', looking out. *)
Definition MethEyes (left right : EyeRef) (duration_ms : option Z) : M Animation :=
  let ms := default 3000 duration_ms / 3 in
  g1 ← look_both left right 2 4 6 4 ms;
  let w := Wait_init ms None in
  g2 ← look_both left right 4 4 4 4 ms;
  mret (AnimationSequence_init [g1; w; g2]).

(** Blinks left eye, then right. *)
Definition CrazyBlink (left right : EyeRef) (duration_ms : option Z) : M Animation :=
  let ms := default 1500 duration_ms / 2 in
  mret (AnimationSequence_init [blink left (Some ms); blink right (Some ms)]).

(** Lowers pupil of a single eye only. *)
Definition LazyEye (eye : EyeRef) (duration_ms : option Z) : M Animation :=
  let ms := default 2000 duration_ms / 3 in
  p ← new_Point 4 6; a ← look eye p (Some (ms * 2));   (* Lower slowly *)
  q ← new_Point 4 4; b ← look eye q (Some ms);         (* Raise quickly *)
  mret (AnimationSequence_init [a; b]).

(** 'Spins' pupil horizontally with wraparound. *)
Definition CrazySpin (left right : EyeRef) (duration_ms : option Z) : M Animation :=
  let times := 2 in
  let ms := default 400 duration_ms / (times * 8) in
  (* Just keep moving to the left, as the Eye class handles wrapping. *)
  a ← for_list (xrange 0 (times * 8)) (fun i =>
         let x := 4 - i in
         look_both left right x 4 x 4 ms);
  mret (AnimationSequence_init a).

(** Spins the eyeballs of both eyes in circles. *)
Definition RoundSpin (left right : EyeRef) (duration_ms : option Z) : M Animation :=
  let times := 2 in
  let ms := default 400 duration_ms / (times * 13 + 1) in
  g ← look_both left right 6 4 2 4 ms;
  rounds ← for_list (xrange 0 times) (fun _ =>
    for_list
      [ (6, 4, 2, 4); (6, 3, 2, 3); (5, 2, 3, 2); (4, 2, 4, 2); (3, 2, 5, 2);
        (2, 3, 6, 3); (2, 4, 6, 4); (2, 5, 6, 5); (3, 6, 5, 6); (4, 6, 4, 6);
        (5, 6, 3, 6); (6, 5, 2, 5); (6, 4, 2, 4) ]
      (fun '(lx, ly, rx, ry) => look_both left right lx ly rx ry ms));
  mret (AnimationSequence_init (g :: concat rounds)).

(** ** The animation loop *)

(** [pick_effect(device, left, right)]; the device is the one of the
    world. *)
Definition pick_effect (left right : EyeRef) : M Animation :=
  i ← randint 0 6;
  if decide (i = 0) then CrossEyes left right None
  else if decide (i = 1) then CrazySpin left right None
  else if decide (i = 2) then MethEyes left right None
  else if decide (i = 3) then CrazyBlink left right None
  else if decide (i = 4) then LazyEye left None
  else if decide (i = 5) then RoundSpin left right None
  else mret (GlowEyes_init 300).

(** The next round of animations, built when the queue is empty. *)
Definition next_round : M Animation :=
  (* Look to a random point *)
  px ← randint 2 5; py ← randint 2 5;
  p ← new_Point px py;
  l ← look LeftEye p None; r ← look RightEye p None;
  let animations := [AnimationGroup_init [l; r]] in
  (* Wait 2.5 - 3.5s *)
  n ← randint 5 7;
  let animations := animations ++ [Wait_init (n * 500) None] in
  (* Maybe blink *)
  b ← randint 0 3;
  let animations :=
    if decide (b = 0)
    then animations ++ [AnimationGroup_init [blink LeftEye None; blink RightEye None]]
    else animations in
  (* Play an effect, if desired. *)
  e ← randint 0 6;
  animations ← (if decide (e = 0)
                then eff ← pick_effect LeftEye RightEye; mret (animations ++ [eff])
                else mret animations);
  mret (AnimationSequence_init animations).

(** Renders the current state of the eyes: the two bitmaps handed to
    the canvas of the device. *)
Definition render (left right : EyeRef) : M (list Z * list Z) :=
  l ← image left; r ← image right; mret (l, r).

(** One iteration of the [while] loop of [animation_loop], at the time
    [start] read from the clock (the sleep is not modelled). *)
Definition loop_body (main_sequence : Animation) (start_ : Z)
    : M (Animation * (list Z * list Z)) :=
  (* Insert the next round of animations, if queue empty. *)
  main_sequence ← (if done main_sequence then next_round else mret main_sequence);
  (* Animate *)
  main_sequence ← tick start_ main_sequence;
  frame ← render LeftEye RightEye;
  mret (main_sequence, frame).

(** The state in which [animation_loop] enters its loop: two new eyes,
    each with its own pupil [Point(4,4)], and [device.contrast(30)]
    from [main]. *)
Definition initial_world (source : nat -> Z) : World :=
  {| points := [Point.mk 4 4; Point.mk 4 4];
     left_eye := Eye_init 0%nat; right_eye := Eye_init 1%nat;
     contrast := [30]; random_source := source; random_count := 0%nat |}.

Definition initial_sequence : Animation := AnimationSequence_init [].

(** The loop run at the given clock readings. *)
Fixpoint run_loop (clock : list Z) (main_sequence : Animation)
    : M (Animation * list (list Z * list Z)) :=
  match clock with
  | [] => mret (main_sequence, [])
  | t :: clock' =>
      '(main_sequence, frame) ← loop_body main_sequence t;
      '(main_sequence, frames) ← run_loop clock' main_sequence;
      mret (main_sequence, frame :: frames)
  end.

(** [animation_loop], for as many iterations as the clock has readings,
    with the given source of random draws. *)
Definition animation_loop (source : nat -> Z) (clock : list Z)
    : result (Animation * list (list Z * list Z) * World) :=
  run_loop clock initial_sequence (initial_world source).

(** * Predicates and reference definitions

    What the properties below are stated with. *)

(** ** The pixel model *)

(** A well-formed pixel buffer: 8 rows, each a byte. *)
Definition rows_ok (px : list Z) : Prop :=
  length px = 8%nat /\ Forall (fun v => 0 <= v < 256) px.

(** What [_off] and [_row_off] do to a well-formed buffer. *)
Definition clear_pixel (x y : Z) (px : list Z) : list Z :=
  <[Z.to_nat (y mod 8) :=
      Z.land (default 0 (px !! Z.to_nat (y mod 8)))
             (Z.lnot (Z.shiftl 1 (7 - x mod 8)))]> px.

Definition clear_row (y : Z) (px : list Z) : list Z :=
  <[Z.to_nat (y mod 8) := 0]> px.

(** The buffer after the eyelid loop over the rows [l]. *)
Definition close_rows (l : list Z) (px : list Z) : list Z :=
  foldl (fun px i => clear_row (7 - i) (clear_row i px)) px l.

(** The buffer [image] computes, as a function of the pupil and the
    eyelid offset alone. *)
Definition draw (p : Point.t) (lids : Z) : list Z :=
  let px :=
    clear_pixel (Point.x p) (Point.y p)
      (clear_pixel (Point.x p - 1) (Point.y p)
         (clear_pixel (Point.x p) (Point.y p - 1)
            (clear_pixel (Point.x p - 1) (Point.y p - 1) eye_ball))) in
  if decide (0 <= lids) then close_rows (xrange 0 (lids + 1)) px else px.

(** The bitmap in the words of the specification: the silhouette, minus
    the 2x2 pupil block (each coordinate wrapped modulo 8), minus the
    rows under the eyelids. *)
Definition silhouette (r c : Z) : bool :=
  Z.testbit (default 0 (eye_ball !! Z.to_nat r)) (7 - c).

Definition in_pupil (p : Point.t) (r c : Z) : bool :=
  (bool_decide (c = (Point.x p - 1) mod 8) || bool_decide (c = Point.x p mod 8))
  && (bool_decide (r = (Point.y p - 1) mod 8) || bool_decide (r = Point.y p mod 8)).

Definition under_eyelids (lids r : Z) : bool :=
  bool_decide (0 <= lids) && (bool_decide (r <= lids) || bool_decide (7 - lids <= r)).

Definition lit (p : Point.t) (lids r c : Z) : bool :=
  silhouette r c && negb (in_pupil p r c) && negb (under_eyelids lids r).

(** The byte whose bit [7 - c] is [f c], for the columns 0..7. *)
Definition row_byte (f : Z -> bool) : Z :=
  foldr (fun c acc => (if f c then Z.shiftl 1 (7 - c) else 0) + acc) 0 (seqZ 0 8).

Definition eye_bitmap (p : Point.t) (lids : Z) : list Z :=
  map (fun r => row_byte (lit p lids r)) (seqZ 0 8).

(** ** The pupil *)

Definition wrap (p : Point.t) : Point.t :=
  Point.mk (Point.x p mod 8) (Point.y p mod 8).

(** The world after [_look]: [pos] is the pupil of [self], and the
    object [pos] holds the wrapped coordinates. *)
Definition looked (self : EyeRef) (pos : ref) (p : Point.t) (w : World) : World :=
  set_points (<[pos := wrap p]> (points w)) (with_pupil self pos w).

(** The point [Look._animate(pct)] constructs, before [_look] wraps it. *)
Definition interpolate (o : Point.t) (dx dy : Z) (pct : Q) : Point.t :=
  Point.mk (int (inject_Z (Point.x o) + inject_Z dx * pct))
           (int (inject_Z (Point.y o) + inject_Z dy * pct)).

(** ** Animation trees *)

(** What a sequence whose active slot is free becomes on a [tick]: the
    head of the queue is popped and begun, or, with nothing queued, the
    sequence is done. *)
Definition Sequence_next (now : Z) (s : option Z) (d : bool) (l : list Animation)
    : Animation :=
  match l with
  | a :: r => AnimationSequence s d r (Some (begin now a))
  | [] => AnimationSequence s true [] None
  end.

(** [prepared true a], or [ready a]: every animation that the next
    [tick] of [a] reaches has been begun.  [prepared false a], or
    [startable a], is what [begin] needs to make [a] ready: a sequence
    begins a child only when it pops it, so its queue is startable and
    its active child is ready, whether it was begun itself or not. *)
Fixpoint prepared (begun : bool) (a : Animation) : bool :=
  match a with
  | Look b _ _ _ _ _ | Blink b _ _ | GlowEyes b | Wait b =>
      if begun then bool_decide (is_Some (LinearAnimation.start b)) else true
  | AnimationGroup _ _ l => forallb (prepared begun) l
  | AnimationSequence _ _ l act =>
      from_option (prepared true) true act && forallb (prepared false) l
  end.

Definition ready : Animation -> bool := prepared true.
Definition startable : Animation -> bool := prepared false.

(** [settled a]: the [done] flags of the combinators are the ones their
    own [tick] computes: a group that is done has only done children, a
    sequence that is done has nothing queued and nothing active. *)
Fixpoint settled (a : Animation) : bool :=
  match a with
  | Look _ _ _ _ _ _ | Blink _ _ _ | GlowEyes _ | Wait _ => true
  | AnimationGroup _ d l => implb d (forallb done l) && forallb settled l
  | AnimationSequence _ d l act =>
      implb d (match l, act with [], None => true | _, _ => false end)
      && forallb settled l && from_option settled true act
  end.

(** No [AnimationSequence] anywhere in the tree. *)
Fixpoint sequence_free (a : Animation) : bool :=
  match a with
  | Look _ _ _ _ _ _ | Blink _ _ _ | GlowEyes _ | Wait _ => true
  | AnimationGroup _ _ l => forallb sequence_free l
  | AnimationSequence _ _ _ _ => false
  end.

(** Every linear animation of the tree was begun at [now] or later. *)
Fixpoint not_begun_before (now : Z) (a : Animation) : bool :=
  match a with
  | Look b _ _ _ _ _ | Blink b _ _ | GlowEyes b | Wait b =>
      from_option (fun t => bool_decide (now <= t)) false (LinearAnimation.start b)
  | AnimationGroup _ _ l => forallb (not_begun_before now) l
  | AnimationSequence _ _ l act =>
      forallb (not_begun_before now) l && from_option (not_begun_before now) true act
  end.

(** The tree with the [done] flag of every group computed anew from its
    children, which is all a group's [tick] does by itself. *)
Fixpoint recheck (a : Animation) : Animation :=
  match a with
  | AnimationGroup s _ l => AnimationGroup s (forallb done (map recheck l)) (map recheck l)
  | _ => a
  end.

(** The linear animations of a tree, left to right. *)
Fixpoint leaves (a : Animation) : list Animation :=
  match a with
  | Look _ _ _ _ _ _ | Blink _ _ _ | GlowEyes _ | Wait _ => [a]
  | AnimationGroup _ _ l => concat (map leaves l)
  | AnimationSequence _ _ l act => concat (map leaves l) ++ from_option leaves [] act
  end.

Definition is_linear (a : Animation) : bool :=
  match a with
  | Look _ _ _ _ _ _ | Blink _ _ _ | GlowEyes _ | Wait _ => true
  | _ => false
  end.

(** The queue and the active slot of a sequence. *)
Definition queue (a : Animation) : list Animation :=
  match a with
  | AnimationSequence _ _ l _ => l
  | _ => []
  end.

Definition active (a : Animation) : option Animation :=
  match a with
  | AnimationSequence _ _ _ act => act
  | _ => None
  end.

(** [ticks clock a]: [a.tick(t)] for every [t] of [clock], in turn. *)
Fixpoint ticks (clock : list Z) (a : Animation) : M Animation :=
  match clock with
  | [] => mret a
  | t :: clock' => a' ← tick t a; ticks clock' a'
  end.

(** [play clock a]: [a.tick(t)] for every [t] of [clock], with the
    pupils of the two eyes as they are after each tick. *)
Fixpoint play (clock : list Z) (a : Animation) : M (list (Point.t * Point.t)) :=
  match clock with
  | [] => mret []
  | t :: clock' =>
      a' ← tick t a;
      l ← pupil_point LeftEye; r ← pupil_point RightEye;
      rest ← play clock' a';
      mret ((l, r) :: rest)
  end.

(** The clock of a loop that is never late: a reading every 100 ms. *)
Definition every_100ms (n : Z) : list Z := map (fun i => i * 100000) (seqZ 1 n).

(** What a Look of a two-eye step is about: its eye, whether it is
    done, its duration, the displacement it stored and its destination
    point. *)
Definition look_summary (w : World) (a : Animation)
    : option (EyeRef * bool * Z * (Z * Z) * Point.t) :=
  match a with
  | Look b e _ d dx dy =>
      p ← points w !! d;
      Some (e, LinearAnimation.done b, LinearAnimation.duration_ms b, (dx, dy), p)
  | _ => None
  end.

Definition step_summary (w : World) (a : Animation) :=
  match a with
  | AnimationGroup _ _ l => map (look_summary w) l
  | _ => []
  end.

(** [anchored n a]: the origin of every Look of the tree is one of the
    first [n] points. *)
Fixpoint anchored (n : nat) (a : Animation) : bool :=
  match a with
  | Look _ _ o _ _ _ => bool_decide (o < n)%nat
  | Blink _ _ _ | GlowEyes _ | Wait _ => true
  | AnimationGroup _ _ l => forallb (anchored n) l
  | AnimationSequence _ _ l act =>
      forallb (anchored n) l && from_option (anchored n) true act
  end.

(** Induction on animation trees, with the children of the combinators. *)
Section Animation_induction.
Variable P : Animation -> Prop.
Hypothesis P_Look : forall b e o d dx dy, P (Look b e o d dx dy).
Hypothesis P_Blink : forall b e l, P (Blink b e l).
Hypothesis P_GlowEyes : forall b, P (GlowEyes b).
Hypothesis P_Wait : forall b, P (Wait b).
Hypothesis P_Group : forall s d l, Forall P l -> P (AnimationGroup s d l).
Hypothesis P_Sequence : forall s d l act,
  Forall P l -> from_option P True act -> P (AnimationSequence s d l act).

Fixpoint Animation_tree_ind (a : Animation) : P a :=
  match a with
  | Look b e o d dx dy => P_Look b e o d dx dy
  | Blink b e l => P_Blink b e l
  | GlowEyes b => P_GlowEyes b
  | Wait b => P_Wait b
  | AnimationGroup s d l =>
      P_Group s d l
        ((fix all (l : list Animation) : Forall P l :=
            match l with
            | [] => @List.Forall_nil _ P
            | a :: r => @List.Forall_cons _ P a r (Animation_tree_ind a) (all r)
            end) l)
  | AnimationSequence s d l act =>
      P_Sequence s d l act
        ((fix all (l : list Animation) : Forall P l :=
            match l with
            | [] => @List.Forall_nil _ P
            | a :: r => @List.Forall_cons _ P a r (Animation_tree_ind a) (all r)
            end) l)
        (match act return from_option P True act with
         | Some a' => Animation_tree_ind a'
         | None => I
         end)
  end.
End Animation_induction.

(** ** What a computation may do to the world *)

(** Every successful run of [m] takes a world to an [R]-related one. *)
Definition respects (R : relation World) {A} (m : M A) : Prop :=
  forall w a w', m w = Ok (a, w') -> R w w'.

(** Every successful run of [m] returns a value that satisfies [P]. *)
Definition returns {A} (P : A -> Prop) (m : M A) : Prop :=
  forall w a w', m w = Ok (a, w') -> P a.

(** The eyelids of both eyes are within [-1, 3]. *)
Definition eyelids_ok (w : World) : Prop :=
  -1 <= eyelids (left_eye w) <= 3 /\ -1 <= eyelids (right_eye w) <= 3.

Definition keeps_eyelids : relation World :=
  fun w w' => eyelids_ok w -> eyelids_ok w'.

(** The points that exist are not written to. *)
Definition keeps_points : relation World :=
  fun w w' => points w `prefix_of` points w'.

(** The pupil of each eye is a point of the store. *)
Definition world_ok (w : World) : Prop :=
  (pupil (left_eye w) < length (points w))%nat
  /\ (pupil (right_eye w) < length (points w))%nat.

Definition keeps_world_ok : relation World :=
  fun w w' => world_ok w -> world_ok w'.

(** [built w a w']: a constructor took [w] to [w'] and returned [a]:
    it only added points, left the eyes alone, and [a] can be begun and
    played in [w']. *)
Definition built (w : World) (a : Animation) (w' : World) : Prop :=
  points w `prefix_of` points w'
  /\ (forall e, eye_of e w' = eye_of e w)
  /\ startable a = true
  /\ anchored (length (points w')) a = true.

(** What the animation loop keeps from one iteration to the next. *)
Definition loop_ok (main_sequence : Animation) (w : World) : Prop :=
  world_ok w
  /\ ready main_sequence = true
  /\ anchored (length (points w)) main_sequence = true.

(** ** Further predicates *)

(** [is_past now t0 ms]: the clock reading [now] is later than [t0] by
    more than [ms] milliseconds. *)
Definition is_past (now t0 ms : Z) : bool :=
  bool_decide (t0 < now) && bool_decide (t0 + ms * 1000 < now).

(** The pupil of the eye [self] is a point on the 8x8 matrix. *)
Definition pupil_ok (self : EyeRef) (w : World) : Prop :=
  exists p, points w !! pupil (eye_of self w) = Some p
            /\ 0 <= Point.x p < 8 /\ 0 <= Point.y p < 8.

Definition pupils_ok (w : World) : Prop :=
  pupil_ok LeftEye w /\ pupil_ok RightEye w.

Definition keeps_pupils : relation World :=
  fun w w' => pupils_ok w -> pupils_ok w'.

(** [shows img]: the bitmap [img] is the picture of an eye whose pupil
    is on the matrix and whose eyelids are between open and closed. *)
Definition shows (img : list Z) : Prop :=
  exists p lids,
    img = eye_bitmap p lids
    /\ 0 <= Point.x p < 8 /\ 0 <= Point.y p < 8 /\ -1 <= lids <= 3.

(** No pixel of [img] is lit outside of the eyeball. *)
Definition within_silhouette (img : list Z) : Prop :=
  forall r c, 0 <= r < 8 -> 0 <= c < 8 ->
    Z.testbit (default 0 (img !! Z.to_nat r)) (7 - c) = true -> silhouette r c = true.

(** ** What an animation acts on *)

(** What a linear animation writes to: the pupil of an eye (Look), the
    eyelids of an eye (Blink) or the contrast of the device (GlowEyes). *)
Inductive target :=
| Pupil (e : EyeRef)
| Lids (e : EyeRef)
| Contrast.

(** The targets of the linear animations of a tree, left to right. *)
Fixpoint targets (a : Animation) : list target :=
  match a with
  | Look _ e _ _ _ _ => [Pupil e]
  | Blink _ e _ => [Lids e]
  | GlowEyes _ => [Contrast]
  | Wait _ => []
  | AnimationGroup _ _ l => concat (map targets l)
  | AnimationSequence _ _ l act => concat (map targets l) ++ from_option targets [] act
  end.

(** The target [t] is in [w'] what it was in [w]. *)
Definition untouched (t : target) : relation World :=
  fun w w' =>
    match t with
    | Pupil e => pupil (eye_of e w') = pupil (eye_of e w)
    | Lids e => eyelids (eye_of e w') = eyelids (eye_of e w)
    | Contrast => contrast w' = contrast w
    end.

(** What no animation writes to: the pixel buffers and the random
    module. *)
Definition unrendered : relation World :=
  fun w w' =>
    (forall e, pixels (eye_of e w') = pixels (eye_of e w))
    /\ random_source w' = random_source w
    /\ random_count w' = random_count w.

(** [w'] is [w] after some calls of [device.contrast], each with a
    value from 27 to 152. *)
Definition dimmed : relation World :=
  fun w w' =>
    exists l, contrast w' = l ++ contrast w /\ Forall (fun c => 27 <= c <= 152) l.

(** [w'] is [w] but for points that were added: the eyes, the device
    and the random module are as they were. *)
Definition only_allocates : relation World :=
  fun w w' =>
    points w `prefix_of` points w'
    /\ (forall e, eye_of e w' = eye_of e w)
    /\ contrast w' = contrast w
    /\ random_source w' = random_source w
    /\ random_count w' = random_count w.

(** [a.duration_ms], which the linear animations have. *)
Definition duration_ms (a : Animation) : Z :=
  match a with
  | Look b _ _ _ _ _ | Blink b _ _ | GlowEyes b | Wait b => LinearAnimation.duration_ms b
  | _ => 0
  end.

(** A step of a two-eye effect: a Look of the left eye and a Look of
    the right eye, of [ms] milliseconds each. *)
Definition two_eye_step (left right : EyeRef) (ms : Z) (a : Animation) : Prop :=
  targets a = [Pupil left; Pupil right] /\ map duration_ms (leaves a) = [ms; ms].

(** ** Single pixels *)

(** The pixel of a buffer in row [r], column [c]. *)
Definition pixel_at (px : list Z) (r c : Z) : bool :=
  Z.testbit (default 0 (px !! Z.to_nat r)) (7 - c).

(** What [_on] does to a well-formed buffer. *)
Definition set_pixel (x y : Z) (px : list Z) : list Z :=
  <[Z.to_nat (y mod 8) :=
      Z.lor (default 0 (px !! Z.to_nat (y mod 8)))
            (Z.shiftl 1 (7 - x mod 8))]> px.

(** The row [r] and the column [c] are the ones [x], [y] wrap to. *)
Definition wraps_to (x y r c : Z) : bool :=
  bool_decide (r = y mod 8) && bool_decide (c = x mod 8).

(** ** Progress *)

(** [due now a]: [a] has no sequence in it, and every linear animation
    in it was begun and is, at [now], past its duration. *)
Fixpoint due (now : Z) (a : Animation) : bool :=
  match a with
  | Look b _ _ _ _ _ | Blink b _ _ | GlowEyes b | Wait b =>
      from_option (fun t0 => is_past now t0 (LinearAnimation.duration_ms b)) false
                  (LinearAnimation.start b)
  | AnimationGroup _ _ l => forallb (due now) l
  | AnimationSequence _ _ _ _ => false
  end.

(** [flat D a]: no sequence in [a], and no linear animation in it lasts
    longer than [D] milliseconds. *)
Fixpoint flat (D : Z) (a : Animation) : bool :=
  match a with
  | Look b _ _ _ _ _ | Blink b _ _ | GlowEyes b | Wait b =>
      bool_decide (LinearAnimation.duration_ms b <= D)
  | AnimationGroup _ _ l => forallb (flat D) l
  | AnimationSequence _ _ _ _ => false
  end.

(** Every linear animation of [a] was begun, at [t] or before. *)
Fixpoint begun_by (t : Z) (a : Animation) : bool :=
  match a with
  | Look b _ _ _ _ _ | Blink b _ _ | GlowEyes b | Wait b =>
      from_option (fun t0 => bool_decide (t0 <= t)) false (LinearAnimation.start b)
  | AnimationGroup _ _ l => forallb (begun_by t) l
  | AnimationSequence _ _ _ _ => false
  end.

(** [unplayed D a]: [a] is as the constructors of the program make it:
    a linear animation, a group of them, or a sequence of such and of
    other sequences with nothing active yet; and no linear animation in
    it lasts longer than [D] milliseconds. *)
Fixpoint unplayed (D : Z) (a : Animation) : bool :=
  match a with
  | AnimationSequence _ _ l act => bool_decide (act = None) && forallb (unplayed D) l
  | _ => flat D a
  end.

(** [timely D t a]: [a] is such an animation, being played, and
    what is active in it was begun at [t] or before. *)
Fixpoint timely (D t : Z) (a : Animation) : bool :=
  match a with
  | AnimationSequence _ _ l act =>
      from_option (timely D t) true act && forallb (unplayed D) l
  | _ => flat D a && begun_by t a
  end.

(** The number of ticks after which [a] is done at the latest, when
    every tick comes after the linear animations begun by the tick
    before it are over: a sequence takes one tick to start each child,
    the ticks of the child, and one tick to see that nothing is left. *)
Fixpoint remaining (a : Animation) : nat :=
  match a with
  | Look b _ _ _ _ _ | Blink b _ _ | GlowEyes b | Wait b =>
      if LinearAnimation.done b then 0 else 1
  | AnimationGroup _ d _ => if d then 0 else 1
  | AnimationSequence _ d l act =>
      if d then 0
      else S (foldr (fun c n => S (remaining c) + n) 0 l + from_option remaining 0 act)
  end%nat.

(** Each reading of [clock] is later than the one before, [t] at first,
    by more than [D] milliseconds. *)
Fixpoint spaced (D t : Z) (clock : list Z) : bool :=
  match clock with
  | [] => true
  | now :: clock' => bool_decide (t + D * 1000 < now) && spaced D now clock'
  end.

(** ** Doubles *)








(** * Properties *)

(** ** The definitions at work *)

Example int_truncates : int (7 # 2) = 3 /\ int (-7 # 2) = -3.
Proof. split; reflexivity. Qed.

(** The eye looking straight ahead, fully open, and the same eye with
    the eyelids at 3. *)
Example image_straight_ahead :
  exists w, image LeftEye (initial_world (fun _ => 0)) =
              Ok ([0x3c; 0x7e; 0xff; 0xe7; 0xe7; 0xff; 0x7e; 0x3c], w).
Proof. eexists. vm_compute. reflexivity. Qed.

Example image_eyes_shut :
  exists w, (_eyelids LeftEye 3;; image LeftEye) (initial_world (fun _ => 0)) =
              Ok ([0; 0; 0; 0; 0; 0; 0; 0], w).
Proof. eexists. vm_compute. reflexivity. Qed.

(** A Blink of 500 ms begun at 0: the eyelid after a tick at 100 ms,
    at 225 ms, at 400 ms and once the time is over. *)
Example blink_eyelids :
  map (fun t => match tick t (begin 0 (blink LeftEye None)) (initial_world (fun _ => 0)) with
                | Ok (a, w) => Some (eyelids (left_eye w), done a)
                | Raise _ => None
                end)
      [100000; 225000; 400000; 500000; 500001]
  = [Some (2, false); Some (3, false); Some (1, false); Some (-1, false);
     Some (-1, true)].
Proof. vm_compute. reflexivity. Qed.

(** An animation that was not begun cannot be ticked. *)
Example tick_before_begin :
  tick 0 (blink LeftEye None) (initial_world (fun _ => 0)) = Raise TypeError.
Proof. reflexivity. Qed.

(** ** Running monadic code *)

Lemma bind_Ok {A B} (m : M A) (f : A -> M B) (w w' : World) (a : A) :
  m w = Ok (a, w') -> (m ≫= f) w = f a w'.
Proof. intros H. unfold mbind, M_bind. now rewrite H. Qed.

Lemma bind_Ok_inv {A B} (m : M A) (f : A -> M B) (w w2 : World) (b : B) :
  (m ≫= f) w = Ok (b, w2) ->
  exists a w1, m w = Ok (a, w1) /\ f a w1 = Ok (b, w2).
Proof.
  unfold mbind, M_bind. destruct (m w) as [[a w1]|e]; [eauto|discriminate].
Qed.

Lemma eye_of_with_eye (r : EyeRef) (e : Eye) (w : World) :
  eye_of r (with_eye r e w) = e.
Proof. now destruct r. Qed.

Lemma with_eye_with_eye (r : EyeRef) (e1 e2 : Eye) (w : World) :
  with_eye r e2 (with_eye r e1 w) = with_eye r e2 w.
Proof. now destruct r. Qed.

Lemma points_with_eye (r : EyeRef) (e : Eye) (w : World) :
  points (with_eye r e w) = points w.
Proof. now destruct r. Qed.

(** ** The pixel model *)

Lemma land_byte (a b : Z) : 0 <= a < 256 -> 0 <= Z.land a b < 256.
Proof.
  intros Ha.
  assert (Hm : Z.land a b = Z.land a b mod 2 ^ 8).
  { rewrite <- Z.land_ones by lia.
    rewrite <- Z.land_assoc, (Z.land_comm b), Z.land_assoc.
    rewrite (Z.land_ones a) by lia.
    rewrite (Z.mod_small a) by (change (2 ^ 8) with 256; lia). reflexivity. }
  rewrite Hm. change (2 ^ 8) with 256. apply Z.mod_pos_bound. lia.
Qed.

Lemma rows_ok_eye_ball : rows_ok eye_ball.
Proof. split; [reflexivity|]. repeat constructor; vm_compute; discriminate. Qed.

Lemma rows_ok_insert (px : list Z) (i : nat) (v : Z) :
  rows_ok px -> 0 <= v < 256 -> rows_ok (<[i := v]> px).
Proof.
  intros [Hlen Hall] Hv. split.
  - now rewrite length_insert.
  - apply Forall_insert; assumption.
Qed.

Lemma rows_ok_lookup (px : list Z) (i : nat) :
  rows_ok px -> 0 <= default 0 (px !! i) < 256.
Proof.
  intros [_ Hall]. destruct (px !! i) as [v|] eqn:E; simpl; [|lia].
  eapply Forall_lookup_1 in Hall; eauto.
Qed.

Lemma rows_ok_clear_pixel (x y : Z) (px : list Z) :
  rows_ok px -> rows_ok (clear_pixel x y px).
Proof.
  intros H. apply rows_ok_insert; [assumption|].
  apply land_byte. now apply rows_ok_lookup.
Qed.

Lemma rows_ok_clear_row (y : Z) (px : list Z) :
  rows_ok px -> rows_ok (clear_row y px).
Proof. intros H. apply rows_ok_insert; [assumption|lia]. Qed.

Lemma row_index_lt (y : Z) (px : list Z) :
  rows_ok px -> (Z.to_nat (y mod 8) < length px)%nat.
Proof.
  intros [Hlen _]. rewrite Hlen.
  pose proof (Z.mod_pos_bound y 8 ltac:(lia)). lia.
Qed.

Lemma set_pixel_row_Ok (self : EyeRef) (i v : Z) (w : World) :
  (Z.to_nat i < length (pixels (eye_of self w)))%nat -> 0 <= v < 256 ->
  set_pixel_row self i v w =
    Ok (tt, with_pixels self (<[Z.to_nat i := v]> (pixels (eye_of self w))) w).
Proof.
  intros Hi Hv. unfold set_pixel_row, mbind, M_bind, get_eye.
  destruct (decide _) as [Hge|_]; [lia|].
  destruct (decide _) as [_|Hn]; [reflexivity|tauto].
Qed.

Lemma _off_Ok (self : EyeRef) (x y : Z) (w : World) :
  rows_ok (pixels (eye_of self w)) ->
  _off self x y w =
    Ok (tt, with_pixels self (clear_pixel x y (pixels (eye_of self w))) w).
Proof.
  intros Hok. pose proof (row_index_lt y _ Hok) as Hlt.
  unfold _off, mbind, M_bind, get_eye, getitem.
  destruct (lookup_lt_is_Some_2 _ _ Hlt) as [row Hrow].
  rewrite Hrow. unfold mret, M_ret.
  rewrite set_pixel_row_Ok; [|assumption|].
  - unfold clear_pixel. now rewrite Hrow.
  - apply land_byte. pose proof (rows_ok_lookup _ (Z.to_nat (y mod 8)) Hok) as Hb.
    now rewrite Hrow in Hb.
Qed.

Lemma _row_off_Ok (self : EyeRef) (y : Z) (w : World) :
  rows_ok (pixels (eye_of self w)) ->
  _row_off self y w =
    Ok (tt, with_pixels self (clear_row y (pixels (eye_of self w))) w).
Proof.
  intros Hok. pose proof (row_index_lt y _ Hok) as Hlt.
  unfold _row_off, len_pixels, mbind, M_bind, get_eye, mret, M_ret, py_mod.
  destruct Hok as [Hlen _]. rewrite Hlen in *.
  destruct (decide _) as [?|_]; [discriminate|].
  change (Z.of_nat 8) with 8. unfold mret, M_ret.
  rewrite set_pixel_row_Ok; [reflexivity|lia|lia].
Qed.

Lemma rows_ok_close_rows (l : list Z) (px : list Z) :
  rows_ok px -> rows_ok (close_rows l px).
Proof.
  revert px. induction l as [|i l IH]; intros px H; simpl; [assumption|].
  apply IH. now do 2 apply rows_ok_clear_row.
Qed.

Lemma pixels_with_pixels (self : EyeRef) (px : list Z) (w : World) :
  pixels (eye_of self (with_pixels self px w)) = px.
Proof. unfold with_pixels. now rewrite eye_of_with_eye. Qed.

Lemma with_pixels_with_pixels (self : EyeRef) (px1 px2 : list Z) (w : World) :
  with_pixels self px2 (with_pixels self px1 w) = with_pixels self px2 w.
Proof.
  unfold with_pixels. rewrite with_eye_with_eye, !eye_of_with_eye. reflexivity.
Qed.

Lemma with_pixels_same (self : EyeRef) (w : World) :
  with_pixels self (pixels (eye_of self w)) w = w.
Proof. destruct w as [ps [] [] c rs rc], self; reflexivity. Qed.

Lemma eyelid_loop_Ok (self : EyeRef) (l : list Z) (w : World) :
  rows_ok (pixels (eye_of self w)) ->
  for_each l (fun i => _row_off self i;; _row_off self (7 - i)) w =
    Ok (tt, with_pixels self (close_rows l (pixels (eye_of self w))) w).
Proof.
  revert w. induction l as [|i l IH]; intros w Hok.
  - simpl. now rewrite with_pixels_same.
  - cbn [for_each close_rows foldl].
    erewrite bind_Ok.
    2:{ erewrite bind_Ok by (apply _row_off_Ok; assumption).
        apply _row_off_Ok. rewrite pixels_with_pixels.
        now apply rows_ok_clear_row. }
    rewrite IH.
    + rewrite !with_pixels_with_pixels, !pixels_with_pixels. reflexivity.
    + rewrite !with_pixels_with_pixels, !pixels_with_pixels.
      now do 2 apply rows_ok_clear_row.
Qed.

Lemma points_with_pixels (self : EyeRef) (px : list Z) (w : World) :
  points (with_pixels self px w) = points w.
Proof. apply points_with_eye. Qed.

Lemma pupil_with_pixels (self : EyeRef) (px : list Z) (w : World) :
  pupil (eye_of self (with_pixels self px w)) = pupil (eye_of self w).
Proof. unfold with_pixels. now rewrite eye_of_with_eye. Qed.

Lemma eyelids_with_pixels (self : EyeRef) (px : list Z) (w : World) :
  eyelids (eye_of self (with_pixels self px w)) = eyelids (eye_of self w).
Proof. unfold with_pixels. now rewrite eye_of_with_eye. Qed.

Lemma pupil_point_Ok (self : EyeRef) (w : World) (p : Point.t) :
  points w !! pupil (eye_of self w) = Some p ->
  pupil_point self w = Ok (p, w).
Proof.
  intros H. unfold pupil_point, mbind, M_bind, get_eye, deref. now rewrite H.
Qed.

Lemma image_draw (self : EyeRef) (w : World) (p : Point.t) :
  points w !! pupil (eye_of self w) = Some p ->
  image self w =
    Ok (draw p (eyelids (eye_of self w)),
        with_pixels self (draw p (eyelids (eye_of self w))) w).
Proof.
  intros Hp. unfold image.
  erewrite bind_Ok by reflexivity.
  pose proof rows_ok_eye_ball as H0.
  repeat
    (erewrite bind_Ok;
     [|apply pupil_point_Ok;
       rewrite ?points_with_pixels, ?pupil_with_pixels; exact Hp];
     erewrite bind_Ok;
     [|apply _off_Ok; rewrite ?pixels_with_pixels;
       repeat apply rows_ok_clear_pixel; exact H0];
     rewrite ?with_pixels_with_pixels, ?pixels_with_pixels).
  erewrite bind_Ok by reflexivity.
  rewrite eyelids_with_pixels. unfold draw.
  destruct (decide (0 <= eyelids (eye_of self w))) as [Hl|Hl].
  - erewrite bind_Ok.
    2:{ apply eyelid_loop_Ok. rewrite pixels_with_pixels.
        repeat apply rows_ok_clear_pixel; exact H0. }
    rewrite with_pixels_with_pixels, pixels_with_pixels.
    unfold mbind, M_bind, get_eye, mret, M_ret.
    now rewrite pixels_with_pixels.
  - erewrite bind_Ok by reflexivity.
    unfold mbind, M_bind, get_eye, mret, M_ret.
    now rewrite pixels_with_pixels.
Qed.

Lemma seqZ_0_8 : seqZ 0 8 = [0; 1; 2; 3; 4; 5; 6; 7].
Proof. reflexivity. Qed.

Lemma row_byte_ext (f g : Z -> bool) :
  (forall c, 0 <= c < 8 -> f c = g c) -> row_byte f = row_byte g.
Proof.
  intros H. unfold row_byte. rewrite seqZ_0_8. simpl.
  rewrite !H by lia. reflexivity.
Qed.

Lemma eye_bitmap_ext (p q : Point.t) (l m : Z) :
  (forall r c, 0 <= r < 8 -> 0 <= c < 8 -> lit p l r c = lit q m r c) ->
  eye_bitmap p l = eye_bitmap q m.
Proof.
  intros H. unfold eye_bitmap. rewrite seqZ_0_8. simpl.
  repeat (apply (f_equal2 cons); [apply row_byte_ext; intros c Hc; apply H; lia|]).
  reflexivity.
Qed.

Lemma row_byte_testbit (f : Z -> bool) (c : Z) :
  0 <= c < 8 -> Z.testbit (row_byte f) (7 - c) = f c.
Proof.
  intros Hc. unfold row_byte. rewrite seqZ_0_8. simpl.
  assert (Hcases : c = 0 \/ c = 1 \/ c = 2 \/ c = 3 \/ c = 4 \/ c = 5 \/ c = 6 \/ c = 7)
    by lia.
  destruct Hcases as [->|[->|[->|[->|[->|[->|[->| ->]]]]]]];
    destruct (f 0), (f 1), (f 2), (f 3), (f 4), (f 5), (f 6), (f 7); reflexivity.
Qed.

Lemma eye_bitmap_testbit (p : Point.t) (lids r c : Z) :
  0 <= r < 8 -> 0 <= c < 8 ->
  Z.testbit (default 0 (eye_bitmap p lids !! Z.to_nat r)) (7 - c) = lit p lids r c.
Proof.
  intros Hr Hc. unfold eye_bitmap. rewrite seqZ_0_8.
  assert (Hcases : r = 0 \/ r = 1 \/ r = 2 \/ r = 3 \/ r = 4 \/ r = 5 \/ r = 6 \/ r = 7)
    by lia.
  destruct Hcases as [->|[->|[->|[->|[->|[->|[->| ->]]]]]]];
    simpl; now apply row_byte_testbit.
Qed.

Lemma clear_pixel_mod (x y : Z) (px : list Z) :
  clear_pixel x y px = clear_pixel (x mod 8) (y mod 8) px.
Proof. unfold clear_pixel. now rewrite !Z.mod_mod by lia. Qed.

Lemma clear_pixel_pred_mod (x y : Z) (px : list Z) :
  clear_pixel (x - 1) (y - 1) px = clear_pixel (x mod 8 - 1) (y mod 8 - 1) px.
Proof. unfold clear_pixel. now rewrite !Zminus_mod_idemp_l. Qed.

Lemma clear_pixel_pred_l (x y : Z) (px : list Z) :
  clear_pixel (x - 1) y px = clear_pixel (x mod 8 - 1) (y mod 8) px.
Proof. unfold clear_pixel. now rewrite Zminus_mod_idemp_l, Z.mod_mod by lia. Qed.

Lemma clear_pixel_pred_r (x y : Z) (px : list Z) :
  clear_pixel x (y - 1) px = clear_pixel (x mod 8) (y mod 8 - 1) px.
Proof. unfold clear_pixel. now rewrite Zminus_mod_idemp_l, Z.mod_mod by lia. Qed.

Lemma draw_mod (p : Point.t) (lids : Z) :
  draw p lids = draw (Point.mk (Point.x p mod 8) (Point.y p mod 8)) lids.
Proof.
  unfold draw. cbn [Point.x Point.y].
  rewrite (clear_pixel_pred_mod (Point.x p)), (clear_pixel_pred_l (Point.x p)),
    (clear_pixel_pred_r (Point.x p)), (clear_pixel_mod (Point.x p)).
  rewrite (clear_pixel_pred_mod (_ mod 8)), (clear_pixel_pred_l (_ mod 8)),
    (clear_pixel_pred_r (_ mod 8)), (clear_pixel_mod (_ mod 8)).
  now rewrite !Z.mod_mod by lia.
Qed.

Lemma eye_bitmap_mod (p : Point.t) (lids : Z) :
  eye_bitmap p lids = eye_bitmap (Point.mk (Point.x p mod 8) (Point.y p mod 8)) lids.
Proof.
  apply eye_bitmap_ext. intros r c _ _. unfold lit, in_pupil. cbn [Point.x Point.y].
  now rewrite !Zminus_mod_idemp_l, !Z.mod_mod by lia.
Qed.

Lemma eye_bitmap_open (p : Point.t) (lids : Z) :
  lids < 0 -> eye_bitmap p lids = eye_bitmap p (-1).
Proof.
  intros H. apply eye_bitmap_ext. intros r c _ _. unfold lit, under_eyelids.
  rewrite (bool_decide_eq_false_2 (0 <= lids)) by lia. reflexivity.
Qed.

Lemma eye_bitmap_shut (p : Point.t) (lids : Z) :
  4 <= lids -> eye_bitmap p lids = eye_bitmap p 4.
Proof.
  intros H. apply eye_bitmap_ext. intros r c Hr _. unfold lit, under_eyelids.
  rewrite (bool_decide_eq_true_2 (0 <= lids)) by lia.
  destruct (decide (r <= 4)).
  - rewrite (bool_decide_eq_true_2 (r <= lids)) by lia.
    rewrite (bool_decide_eq_true_2 (r <= 4)) by lia. reflexivity.
  - rewrite (bool_decide_eq_true_2 (7 - lids <= r)) by lia.
    rewrite (bool_decide_eq_true_2 (7 - 4 <= r)) by lia.
    now rewrite !orb_true_r.
Qed.

Lemma close_rows_app (l1 l2 : list Z) (px : list Z) :
  close_rows (l1 ++ l2) px = close_rows l2 (close_rows l1 px).
Proof. apply foldl_app. Qed.

Lemma clear_row_dark (y : Z) (n : nat) :
  clear_row y (replicate n 0) = replicate n 0.
Proof. apply insert_replicate. Qed.

Lemma close_rows_dark (l : list Z) (n : nat) :
  close_rows l (replicate n 0) = replicate n 0.
Proof.
  unfold close_rows. induction l as [|i l IH]; [reflexivity|].
  cbn [foldl]. rewrite !clear_row_dark. exact IH.
Qed.

Lemma close_rows_shut (lids : Z) (px : list Z) :
  length px = 8%nat -> 4 <= lids ->
  close_rows (xrange 0 (lids + 1)) px = replicate 8 0.
Proof.
  intros Hlen Hl. unfold xrange.
  replace (lids + 1 - 0) with (5 + (lids - 4)) by lia.
  rewrite seqZ_app by lia. rewrite close_rows_app.
  do 9 (destruct px as [|? px]; try discriminate).
  change (close_rows (seqZ 0 5) _) with (replicate 8 0).
  apply (close_rows_dark _ 8).
Qed.

Lemma draw_eye_bitmap (p : Point.t) (lids : Z) : draw p lids = eye_bitmap p lids.
Proof.
  rewrite draw_mod, eye_bitmap_mod.
  pose proof (Z.mod_pos_bound (Point.x p) 8 ltac:(lia)) as Hx.
  pose proof (Z.mod_pos_bound (Point.y p) 8 ltac:(lia)) as Hy.
  generalize dependent (Point.x p mod 8). intros xm Hx.
  generalize dependent (Point.y p mod 8). intros ym Hy.
  assert (Hl : lids < 0 \/ lids = 0 \/ lids = 1 \/ lids = 2 \/ lids = 3 \/ 4 <= lids)
    by lia.
  assert (Hxs : xm = 0 \/ xm = 1 \/ xm = 2 \/ xm = 3 \/ xm = 4 \/ xm = 5 \/ xm = 6 \/ xm = 7)
    by lia.
  assert (Hys : ym = 0 \/ ym = 1 \/ ym = 2 \/ ym = 3 \/ ym = 4 \/ ym = 5 \/ ym = 6 \/ ym = 7)
    by lia.
  clear Hx Hy.
  destruct Hl as [Hl|[->|[->|[->|[->|Hl]]]]].
  - rewrite eye_bitmap_open by assumption. unfold draw.
    destruct (decide (0 <= lids)); [lia|].
    repeat (destruct Hxs as [->|Hxs]); subst;
      repeat (destruct Hys as [->|Hys]); subst; vm_compute; reflexivity.
  - repeat (destruct Hxs as [->|Hxs]); subst;
      repeat (destruct Hys as [->|Hys]); subst; vm_compute; reflexivity.
  - repeat (destruct Hxs as [->|Hxs]); subst;
      repeat (destruct Hys as [->|Hys]); subst; vm_compute; reflexivity.
  - repeat (destruct Hxs as [->|Hxs]); subst;
      repeat (destruct Hys as [->|Hys]); subst; vm_compute; reflexivity.
  - repeat (destruct Hxs as [->|Hxs]); subst;
      repeat (destruct Hys as [->|Hys]); subst; vm_compute; reflexivity.
  - rewrite eye_bitmap_shut by assumption. unfold draw.
    destruct (decide (0 <= lids)); [|lia].
    rewrite close_rows_shut;
      [|unfold clear_pixel; now rewrite !length_insert|assumption].
    repeat (destruct Hxs as [->|Hxs]); subst;
      repeat (destruct Hys as [->|Hys]); subst; vm_compute; reflexivity.
Qed.

(** ** The pupil *)

Lemma eye_of_set_points (r : EyeRef) (ps : list Point.t) (w : World) :
  eye_of r (set_points ps w) = eye_of r w.
Proof. now destruct r. Qed.

Lemma set_points_set_points (ps1 ps2 : list Point.t) (w : World) :
  set_points ps2 (set_points ps1 w) = set_points ps2 w.
Proof. reflexivity. Qed.

Lemma _look_Ok (self : EyeRef) (pos : ref) (p : Point.t) (w : World) :
  points w !! pos = Some p ->
  _look self pos w = Ok (tt, looked self pos p w).
Proof.
  intros Hp. unfold _look, looked.
  erewrite bind_Ok by reflexivity.
  erewrite bind_Ok by reflexivity.
  unfold with_pupil. rewrite eye_of_with_eye. cbn [pupil].
  assert (Hlt : (pos < length (points w))%nat) by (eapply lookup_lt_Some; eauto).
  erewrite bind_Ok.
  2:{ unfold deref. rewrite points_with_eye, Hp. reflexivity. }
  erewrite bind_Ok.
  2:{ unfold set_x. rewrite points_with_eye, Hp. reflexivity. }
  erewrite bind_Ok by reflexivity.
  rewrite eye_of_set_points, eye_of_with_eye. cbn [pupil].
  erewrite bind_Ok.
  2:{ unfold deref. cbn [points set_points].
      rewrite list_lookup_insert_eq by (rewrite ?points_with_eye; exact Hlt).
      reflexivity. }
  unfold set_y. cbn [points set_points Point.x Point.y].
  rewrite list_lookup_insert_eq by (rewrite ?points_with_eye; exact Hlt).
  rewrite list_insert_insert_eq, ?points_with_eye. reflexivity.
Qed.

(** ** Truncation *)

(** [int] is truncation toward zero of the rational it is given. *)
Lemma int_inject_Z (z : Z) : int (inject_Z z) = z.
Proof. unfold int, inject_Z. simpl. apply Z.quot_1_r. Qed.

Lemma int_comp (q q' : Q) : (q == q')%Q -> int q = int q'.
Proof.
  destruct q as [a b], q' as [c d]. unfold Qeq, int. simpl. intros H.
  rewrite !Z.quot_div by lia.
  assert (Hs : Z.sgn a = Z.sgn c).
  { apply (f_equal Z.sgn) in H. rewrite !Z.sgn_mul in H.
    rewrite !(Z.sgn_pos (Z.pos _)) in H by lia. lia. }
  rewrite Hs, !(Z.sgn_pos (Z.pos _)), !(Z.abs_eq (Z.pos _)) by lia. f_equal.
  assert (Hq : (Z.abs a # b == Z.abs c # d)%Q).
  { unfold Qeq; simpl. apply (f_equal Z.abs) in H. rewrite !Z.abs_mul in H.
    rewrite !(Z.abs_eq (Z.pos _)) in H by lia. exact H. }
  apply Qfloor_comp in Hq. exact Hq.
Qed.

#[global] Instance int_Proper : Proper (Qeq ==> eq) int.
Proof. intros q q' H. now apply int_comp. Qed.

Lemma int_trunc (q : Q) :
  int q = if Qlt_le_dec q 0 then Qceiling q else Qfloor q.
Proof.
  destruct q as [a b]. unfold int, Qceiling, Qfloor, Qopp. simpl.
  destruct (Qlt_le_dec (a # b) 0) as [H|H]; unfold Qlt, Qle in H; simpl in H.
  - rewrite <- (Z.opp_involutive a) at 1.
    rewrite Z.quot_opp_l by lia. f_equal.
    apply Z.quot_div_nonneg; lia.
  - apply Z.quot_div_nonneg; lia.
Qed.

(** ** [tick] on the combinators *)

Lemma tick_Group (now : Z) (s : option Z) (d : bool) (l : list Animation) :
  tick now (AnimationGroup s d l) =
    (l' ← tick_all now l; mret (AnimationGroup s (forallb done l') l')).
Proof. reflexivity. Qed.

Lemma tick_Sequence (now : Z) (s : option Z) (d : bool) (l : list Animation)
    (act : option Animation) :
  tick now (AnimationSequence s d l act) =
    match act with
    | Some a =>
        if done a then mret (Sequence_next now s d l)
        else a' ← tick now a; mret (AnimationSequence s d l (Some a'))
    | None => mret (Sequence_next now s d l)
    end.
Proof. destruct act as [a|], l; simpl; try destruct (done a); reflexivity. Qed.

(** ** What a computation may do to the world *)

Create HintDb respects.

Section Respects.
Variable R : relation World.
Context `{!PreOrder R}.

Lemma respects_ret {A} (a : A) : respects R (mret a).
Proof. intros w a' w' [= _ <-]. reflexivity. Qed.

Lemma respects_raise {A} (e : exn) : respects R (@raise A e).
Proof. intros w a w' [=]. Qed.

Lemma respects_bind {A B} (m : M A) (f : A -> M B) :
  respects R m -> (forall a, respects R (f a)) -> respects R (m ≫= f).
Proof.
  intros Hm Hf w b w2 H. apply bind_Ok_inv in H as (a & w1 & H1 & H2).
  transitivity w1; [eapply Hm|eapply Hf]; eauto.
Qed.

Lemma respects_get_eye (self : EyeRef) : respects R (get_eye self).
Proof. intros w a w' [= _ <-]. reflexivity. Qed.

Lemma respects_deref (p : ref) : respects R (deref p).
Proof.
  intros w a w'. unfold deref. destruct (points w !! p); intros [= _ <-].
  reflexivity.
Qed.

Lemma respects_for_each {A} (l : list A) (body : A -> M unit) :
  (forall i, respects R (body i)) -> respects R (for_each l body).
Proof.
  intros H. induction l as [|i l IH]; simpl.
  - apply respects_ret.
  - apply respects_bind; [apply H|intros _; exact IH].
Qed.

Lemma respects_for_list {A B} (l : list A) (f : A -> M B) :
  (forall i, respects R (f i)) -> respects R (for_list l f).
Proof.
  intros H. induction l as [|i l IH]; simpl.
  - apply respects_ret.
  - apply respects_bind; [apply H|intros b].
    apply respects_bind; [exact IH|intros r; apply respects_ret].
Qed.

(** The steps that write to the world. *)
Hypothesis R_pixels : forall self px w, R w (with_pixels self px w).
Hypothesis R_eyelids : forall self v w, -1 <= v <= 3 -> R w (with_eyelids self v w).
Hypothesis R_contrast : forall c w, R w (with_contrast c w).
Hypothesis R_drawn : forall w, R w (drawn w).
Hypothesis R_new : forall p w, R w (set_points (points w ++ [p]) w).
Hypothesis R_looked : forall self p w,
  R w (looked self (length (points w)) p (set_points (points w ++ [p]) w)).

Lemma respects_set_pixels self px : respects R (set_pixels self px).
Proof. intros w a w' [= _ <-]. apply R_pixels. Qed.

Lemma respects_device_contrast c : respects R (device_contrast c).
Proof. intros w a w' [= _ <-]. apply R_contrast. Qed.

Lemma respects_randint lo hi : respects R (randint lo hi).
Proof. intros w a w' [= _ <-]. apply R_drawn. Qed.

Lemma respects_new_Point x y : respects R (new_Point x y).
Proof. intros w a w' [= _ <-]. apply R_new. Qed.

Lemma respects__eyelids self offset : respects R (_eyelids self offset).
Proof. intros w a w' [= _ <-]. apply R_eyelids. lia. Qed.

#[local] Hint Resolve respects_ret respects_raise respects_get_eye respects_deref
  respects_set_pixels respects_device_contrast respects_randint
  respects_new_Point respects__eyelids : respects.

(** Splits a computation into its steps. *)
Ltac respects_steps :=
  repeat first
    [ solve [auto with respects]
    | match goal with
      | |- respects R (for_each _ _) => apply respects_for_each; intros ?
      | |- respects R (for_list _ _) => apply respects_for_list; intros ?
      | |- respects R (_ ≫= _) => apply respects_bind; [|intros ?]
      | |- respects R (if ?c then _ else _) => destruct c
      | |- respects R (match ?x with _ => _ end) => destruct x
      | |- respects R (let _ := _ in _) => cbv zeta
      end ].

Lemma respects_set_pixel_row self i v : respects R (set_pixel_row self i v).
Proof. unfold set_pixel_row. respects_steps. Qed.

Lemma respects__off self x y : respects R (_off self x y).
Proof.
  unfold _off, getitem. pose proof respects_set_pixel_row. respects_steps.
Qed.

Lemma respects__row_off self y : respects R (_row_off self y).
Proof.
  unfold _row_off, len_pixels, py_mod. pose proof respects_set_pixel_row.
  respects_steps.
Qed.

Lemma respects_image self : respects R (image self).
Proof.
  unfold image, pupil_point.
  pose proof respects__off. pose proof respects__row_off. respects_steps.
Qed.

Lemma respects_render l r : respects R (render l r).
Proof. unfold render. pose proof respects_image. respects_steps. Qed.

Lemma respects_Look_animate b e o dx dy pct : respects R (Look_animate b e o dx dy pct).
Proof.
  unfold Look_animate. destruct (LinearAnimation.done b); [apply respects_ret|].
  intros w a w' H.
  apply bind_Ok_inv in H as (p1 & w1 & H1 & H).
  apply bind_Ok_inv in H as (p2 & w2 & H2 & H).
  apply bind_Ok_inv in H as (c & w3 & H3 & H).
  unfold deref in H1. destruct (points w !! o) as [p|] eqn:E; [|discriminate].
  injection H1 as <- <-.
  unfold deref in H2. rewrite E in H2. injection H2 as <- <-.
  injection H3 as <- <-.
  erewrite _look_Ok in H;
    [|cbn [points set_points]; now rewrite lookup_app_r, Nat.sub_diag by lia].
  injection H as _ <-. apply R_looked.
Qed.

Lemma respects_Blink_animate b e pct : respects R (Blink_animate b e pct).
Proof. unfold Blink_animate. respects_steps. Qed.

Lemma respects_GlowEyes_animate b pct : respects R (GlowEyes_animate b pct).
Proof. unfold GlowEyes_animate. respects_steps. Qed.

Lemma respects_LinearAnimation_tick _animate now b :
  (forall pct, respects R (_animate pct)) ->
  respects R (LinearAnimation_tick _animate now b).
Proof. intros H. unfold LinearAnimation_tick. respects_steps. Qed.

Lemma respects_tick now a : respects R (tick now a).
Proof.
  induction a as [b e o d dx dy|b e l|b|b|s d l IH|s d l act IHl IHact]
    using Animation_tree_ind.
  - cbn [tick]. apply respects_bind; [|intros ?; apply respects_ret].
    apply respects_LinearAnimation_tick. intros pct. apply respects_Look_animate.
  - cbn [tick]. apply respects_bind; [|intros ?; apply respects_ret].
    apply respects_LinearAnimation_tick. intros pct. apply respects_Blink_animate.
  - cbn [tick]. apply respects_bind; [|intros ?; apply respects_ret].
    apply respects_LinearAnimation_tick. intros pct. apply respects_GlowEyes_animate.
  - cbn [tick]. apply respects_bind; [|intros ?; apply respects_ret].
    apply respects_LinearAnimation_tick. intros pct. apply respects_ret.
  - rewrite tick_Group. apply respects_bind; [|intros ?; apply respects_ret].
    induction IH as [|a r Ha _ IHr]; simpl; [apply respects_ret|].
    apply respects_bind; [exact Ha|intros ?].
    apply respects_bind; [exact IHr|intros ?; apply respects_ret].
  - rewrite tick_Sequence. destruct act as [a|]; [|apply respects_ret].
    destruct (done a); [apply respects_ret|].
    apply respects_bind; [exact IHact|intros ?; apply respects_ret].
Qed.

Lemma respects_Look_init eye dest ms : respects R (Look_init eye dest ms).
Proof. unfold Look_init. respects_steps. Qed.

Lemma respects_look_both l r lx ly rx ry ms :
  respects R (look_both l r lx ly rx ry ms).
Proof.
  unfold look_both, look. pose proof respects_Look_init. respects_steps.
Qed.

Lemma respects_pick_effect l r : respects R (pick_effect l r).
Proof.
  unfold pick_effect, CrossEyes, CrazySpin, MethEyes, CrazyBlink, LazyEye,
    RoundSpin, look.
  pose proof respects_look_both. pose proof respects_Look_init.
  respects_steps.
Qed.

Lemma respects_next_round : respects R next_round.
Proof.
  unfold next_round, look.
  pose proof respects_pick_effect. pose proof respects_Look_init.
  respects_steps.
Qed.

Lemma respects_loop_body main t : respects R (loop_body main t).
Proof.
  unfold loop_body.
  pose proof respects_next_round. pose proof respects_tick.
  pose proof respects_render. respects_steps.
Qed.

Lemma respects_run_loop clock main : respects R (run_loop clock main).
Proof.
  revert main. induction clock as [|t clock IH]; intros main; simpl.
  - apply respects_ret.
  - pose proof respects_loop_body. respects_steps.
Qed.
End Respects.

(** *** Eyelids and points *)

#[global] Instance keeps_eyelids_PreOrder : PreOrder keeps_eyelids.
Proof. split; unfold keeps_eyelids; [intros w|intros w1 w2 w3]; auto. Qed.

#[global] Instance keeps_points_PreOrder : PreOrder keeps_points.
Proof.
  split; unfold keeps_points; [intros w|intros w1 w2 w3 H1 H2].
  - reflexivity.
  - etransitivity; eauto.
Qed.

Lemma points_looked_new (self : EyeRef) (p : Point.t) (w : World) :
  points (looked self (length (points w)) p (set_points (points w ++ [p]) w)) =
    points w ++ [wrap p].
Proof.
  unfold looked. cbn [points set_points].
  rewrite insert_app_r_alt, Nat.sub_diag by lia. reflexivity.
Qed.

Ltac eyelids_step :=
  unfold keeps_eyelids, eyelids_ok; intros;
  repeat match goal with s : EyeRef |- _ => destruct s end;
  simpl in *; lia.

Lemma tick_keeps_eyelids now a : respects keeps_eyelids (tick now a).
Proof. apply respects_tick; try apply _; eyelids_step. Qed.

Lemma run_loop_keeps_eyelids clock main : respects keeps_eyelids (run_loop clock main).
Proof. apply respects_run_loop; try apply _; eyelids_step. Qed.

Lemma tick_keeps_points now a : respects keeps_points (tick now a).
Proof.
  apply respects_tick; try apply _; unfold keeps_points; intros.
  - unfold with_eyelids. now rewrite points_with_eye.
  - reflexivity.
  - rewrite points_looked_new. now apply prefix_app_r.
Qed.

(** ** Look *)

Lemma Look_animate_Ok (b : LinearAnimation.t) (eye : EyeRef) (origin : ref)
    (dx dy : Z) (pct : Q) (w : World) (o : Point.t) :
  LinearAnimation.done b = false ->
  points w !! origin = Some o ->
  Look_animate b eye origin dx dy pct w =
    Ok (tt, looked eye (length (points w)) (interpolate o dx dy pct)
              (set_points (points w ++ [interpolate o dx dy pct]) w)).
Proof.
  intros Hd Ho. unfold Look_animate. rewrite Hd.
  erewrite bind_Ok by (unfold deref; rewrite Ho; reflexivity).
  erewrite bind_Ok by (unfold deref; rewrite Ho; reflexivity).
  erewrite bind_Ok by reflexivity.
  apply _look_Ok. cbn [points set_points].
  now rewrite lookup_app_r, Nat.sub_diag by lia.
Qed.


Lemma interpolate_0 (o : Point.t) (dx dy : Z) (pct : Q) :
  (pct == 0)%Q -> interpolate o dx dy pct = o.
Proof.
  intros H. unfold interpolate. destruct o as [ox oy]. cbn [Point.x Point.y].
  f_equal; rewrite <- int_inject_Z; apply int_comp; rewrite H; ring.
Qed.


(** *** In double precision *)















(** C10 (as the code has it). [Eye._look(pos)] makes the Point object
    [pos] itself the pupil and overwrites its [x] and [y] in place with
    their residues modulo 8: the object changes exactly when a
    coordinate lies outside 0..7.  Every other Point is left alone, and
    a [tick] of any animation writes to no Point that existed before
    it. *)
Theorem Eye_look_wraps_in_place (self : EyeRef) (pos : ref) (p : Point.t) (w : World) :
  points w !! pos = Some p ->
  exists w',
    _look self pos w = Ok (tt, w')
    /\ pupil (eye_of self w') = pos
    /\ points w' !! pos = Some (wrap p)
    /\ (forall q, q <> pos -> points w' !! q = points w !! q)
    /\ (points w' !! pos = Some p <-> 0 <= Point.x p < 8 /\ 0 <= Point.y p < 8)
    /\ (forall now a a' w1 w2 q v,
          tick now a w1 = Ok (a', w2) ->
          points w1 !! q = Some v -> points w2 !! q = Some v).
Proof.
  intros Hp. exists (looked self pos p w).
  assert (Hlt : (pos < length (points w))%nat) by (eapply lookup_lt_Some; eauto).
  assert (Hpos : points (looked self pos p w) !! pos = Some (wrap p)).
  { unfold looked. cbn [points set_points]. now apply list_lookup_insert_eq. }
  split; [now apply _look_Ok|].
  split; [unfold looked, with_pupil;
          now rewrite eye_of_set_points, eye_of_with_eye|].
  split; [exact Hpos|].
  split; [intros q Hq; unfold looked; cbn [points set_points];
          now apply list_lookup_insert_ne|].
  split.
  - rewrite Hpos. unfold wrap. destruct p as [px py]. cbn [Point.x Point.y].
    split.
    + intros [= Hx Hy].
      pose proof (Z.mod_pos_bound px 8 ltac:(lia)).
      pose proof (Z.mod_pos_bound py 8 ltac:(lia)). lia.
    + intros [Hx Hy]. now rewrite !Z.mod_small by lia.
  - intros now a a' w1 w2 q v Ht Hq.
    apply tick_keeps_points in Ht. unfold keeps_points in Ht.
    eapply prefix_lookup_Some; eauto.
Qed.

Lemma Eye_look_wraps_in_place_witness :
  exists w',
    _look LeftEye 2%nat (set_points [Point.mk 4 4; Point.mk 4 4; Point.mk 3 4]
                           (initial_world (fun _ => 0))) = Ok (tt, w')
    /\ pupil (eye_of LeftEye w') = 2%nat.
Proof.
  destruct (Eye_look_wraps_in_place LeftEye 2%nat (Point.mk 3 4)
              (set_points [Point.mk 4 4; Point.mk 4 4; Point.mk 3 4]
                 (initial_world (fun _ => 0))) eq_refl) as (w' & H1 & H2 & _).
  exists w'. split; [exact H1|exact H2].
Defined.

(** C10 as stated does not hold: [_look] on the object [Point(-1, 4)]
    changes its [x] from -1 to 7. *)
Lemma Point_is_mutated_by_look :
  let w := set_points [Point.mk 4 4; Point.mk 4 4; Point.mk (-1) 4]
             (initial_world (fun _ => 0)) in
  points w !! 2%nat = Some (Point.mk (-1) 4)
  /\ exists w', _look LeftEye 2%nat w = Ok (tt, w')
                /\ points w' !! 2%nat = Some (Point.mk 7 4).
Proof.
  split; [reflexivity|]. eexists. split; reflexivity.
Qed.

(** ** The combinators *)

Lemma elapsed_not_positive (now t0 : Z) :
  now <= t0 -> Qle_bool (elapsed_ms now t0) 0 = true.
Proof.
  intros H. unfold elapsed_ms, Qle_bool. simpl. apply Z.leb_le. lia.
Qed.

Lemma set_done_true_id (b : LinearAnimation.t) :
  LinearAnimation.done b = true -> LinearAnimation.set_done true b = b.
Proof. destruct b as [s d ms]. simpl. now intros ->. Qed.

(** Called too fast or going back in time: nothing happens. *)
Lemma LinearAnimation_tick_early (_animate : Q -> M unit) (now t0 : Z)
    (b : LinearAnimation.t) (w : World) :
  LinearAnimation.start b = Some t0 -> now <= t0 ->
  LinearAnimation_tick _animate now b w = Ok (b, w).
Proof.
  intros Hs Hle. unfold LinearAnimation_tick. rewrite Hs.
  now rewrite elapsed_not_positive.
Qed.

(** A linear animation that is done, and whose [_animate] returns at
    once for that reason, is left as it is. *)
Lemma LinearAnimation_tick_done (_animate : Q -> M unit) (now : Z)
    (b : LinearAnimation.t) (w : World) :
  is_Some (LinearAnimation.start b) ->
  LinearAnimation.done b = true ->
  (forall pct w, _animate pct w = Ok (tt, w)) ->
  LinearAnimation_tick _animate now b w = Ok (b, w).
Proof.
  intros [t0 Hs] Hd Ha. unfold LinearAnimation_tick. rewrite Hs.
  destruct (Qle_bool (elapsed_ms now t0) 0); [reflexivity|].
  destruct (Qle_bool _ _).
  - erewrite bind_Ok by apply Ha. reflexivity.
  - erewrite bind_Ok by apply Ha. now rewrite set_done_true_id.
Qed.

Lemma tick_all_fixed (now : Z) (f : Animation -> Animation) (l : list Animation)
    (w : World) :
  Forall (fun a => tick now a w = Ok (f a, w)) l ->
  tick_all now l w = Ok (map f l, w).
Proof.
  induction 1 as [|a r Ha _ IH]; [reflexivity|].
  cbn [tick_all map]. erewrite bind_Ok by exact Ha.
  erewrite bind_Ok by exact IH. reflexivity.
Qed.

Lemma tick_all_length (now : Z) (l l' : list Animation) (w w' : World) :
  tick_all now l w = Ok (l', w') -> length l' = length l.
Proof.
  revert l' w w'. induction l as [|a r IH]; intros l' w w' H.
  - injection H as <- _. reflexivity.
  - cbn [tick_all] in H.
    apply bind_Ok_inv in H as (a' & w1 & _ & H).
    apply bind_Ok_inv in H as (r' & w2 & Hr & H).
    injection H as <- _. simpl. f_equal. eauto.
Qed.

Lemma forallb_Forall_true {A} (f : A -> bool) (l : list A) :
  forallb f l = true <-> Forall (fun a => f a = true) l.
Proof.
  induction l as [|a l IH]; simpl.
  - split; [constructor|reflexivity].
  - rewrite andb_true_iff, IH. split.
    + intros [Ha Hl]. now constructor.
    + intros H. inversion H; subst. now split.
Qed.

(** *** Ticking what is done *)

Lemma tick_done_fixed (now : Z) (a : Animation) :
  settled a = true -> ready a = true -> done a = true ->
  forall w, tick now a w = Ok (a, w).
Proof.
  induction a as [b e o d dx dy|b e l|b|b|s d l IH|s d l act IHl IHact]
    using Animation_tree_ind; unfold ready in *; cbn [settled prepared done];
    intros Hs Hr Hd w.
  - cbn [tick]. apply bool_decide_eq_true in Hr.
    erewrite bind_Ok; [reflexivity|].
    apply LinearAnimation_tick_done; auto.
    intros pct w1. unfold Look_animate. now rewrite Hd.
  - cbn [tick]. apply bool_decide_eq_true in Hr.
    erewrite bind_Ok; [reflexivity|].
    apply LinearAnimation_tick_done; auto.
    intros pct w1. unfold Blink_animate. now rewrite Hd.
  - cbn [tick]. apply bool_decide_eq_true in Hr.
    erewrite bind_Ok; [reflexivity|].
    apply LinearAnimation_tick_done; auto.
    intros pct w1. unfold GlowEyes_animate. now rewrite Hd.
  - cbn [tick]. apply bool_decide_eq_true in Hr.
    erewrite bind_Ok; [reflexivity|].
    apply LinearAnimation_tick_done; auto.
  - subst d. cbn [implb] in Hs. apply andb_prop in Hs as [Hall Hs].
    rewrite tick_Group.
    erewrite bind_Ok.
    2:{ apply (tick_all_fixed now (fun a => a)).
        rewrite forallb_Forall_true in Hall, Hs, Hr.
        rewrite Forall_forall in *. intros a Ha. apply IH; auto. }
    rewrite map_id, Hall. reflexivity.
  - subst d. cbn [implb] in Hs.
    destruct l as [|? ?]; [|discriminate]. destruct act; [discriminate|].
    reflexivity.
Qed.

(** *** Ticking before the start time *)

Lemma tick_early (now : Z) (a : Animation) :
  sequence_free a = true -> not_begun_before now a = true ->
  forall w, tick now a w = Ok (recheck a, w).
Proof.
  induction a as [b e o d dx dy|b e l|b|b|s d l IH|s d l act IHl IHact]
    using Animation_tree_ind;
    cbn [sequence_free not_begun_before recheck]; intros Hf Hb w;
    try discriminate.
  1-4: destruct (LinearAnimation.start b) as [t0|] eqn:Hs; [|discriminate];
       apply bool_decide_eq_true in Hb; cbn [tick];
       erewrite bind_Ok by (eapply LinearAnimation_tick_early; eauto);
       reflexivity.
  rewrite tick_Group.
  erewrite bind_Ok; [reflexivity|].
  apply tick_all_fixed.
  rewrite forallb_Forall_true in Hf, Hb. rewrite Forall_forall in *.
  intros a Ha. apply IH; auto.
Qed.

Lemma leaves_recheck (a : Animation) : leaves (recheck a) = leaves a.
Proof.
  induction a as [b e o d dx dy|b e l|b|b|s d l IH|s d l act IHl IHact]
    using Animation_tree_ind; try reflexivity.
  cbn [recheck leaves]. f_equal. rewrite map_map.
  apply map_ext_Forall. exact IH.
Qed.

Lemma not_begun_before_begin (now t : Z) (a : Animation) :
  now <= t -> sequence_free a = true -> not_begun_before now (begin t a) = true.
Proof.
  intros Hle.
  induction a as [b e o d dx dy|b e l|b|b|s d l IH|s d l act IHl IHact]
    using Animation_tree_ind; cbn [sequence_free begin not_begun_before];
    intros Hf; try discriminate.
  1-4: simpl; now apply bool_decide_eq_true.
  rewrite forallb_Forall_true in *. rewrite Forall_map.
  rewrite Forall_forall in *. auto.
Qed.

Lemma sequence_free_begin (t : Z) (a : Animation) :
  sequence_free (begin t a) = sequence_free a.
Proof.
  induction a as [b e o d dx dy|b e l|b|b|s d l IH|s d l act IHl IHact]
    using Animation_tree_ind; try reflexivity.
  cbn [begin sequence_free]. induction IH as [|a r Ha _ IHr]; [reflexivity|].
  simpl. now rewrite Ha, IHr.
Qed.

(** *** [begin] and [tick] keep the tree prepared and settled *)

Lemma done_begin (t : Z) (a : Animation) : done (begin t a) = done a.
Proof. destruct a; reflexivity. Qed.

Lemma prepared_weaken (a : Animation) : prepared true a = true -> prepared false a = true.
Proof.
  induction a as [b e o d dx dy|b e l|b|b|s d l IH|s d l act IHl IHact]
    using Animation_tree_ind; cbn [prepared]; auto.
  rewrite !forallb_Forall_true. intros H.
  rewrite Forall_forall in *. auto.
Qed.

Lemma ready_begin (t : Z) (a : Animation) :
  startable a = true -> ready (begin t a) = true.
Proof.
  unfold startable, ready.
  induction a as [b e o d dx dy|b e l|b|b|s d l IH|s d l act IHl IHact]
    using Animation_tree_ind; cbn [prepared begin]; auto.
  rewrite !forallb_Forall_true, Forall_map. intros H.
  rewrite Forall_forall in *. auto.
Qed.

Lemma settled_begin (t : Z) (a : Animation) : settled (begin t a) = settled a.
Proof.
  induction a as [b e o d dx dy|b e l|b|b|s d l IH|s d l act IHl IHact]
    using Animation_tree_ind; try reflexivity.
  cbn [begin settled]. f_equal.
  - f_equal. clear IH. induction l as [|a r IHr]; [reflexivity|].
    simpl. now rewrite done_begin, IHr.
  - induction IH as [|a r Ha _ IHr]; [reflexivity|].
    simpl. now rewrite Ha, IHr.
Qed.

Lemma LinearAnimation_tick_start (_animate : Q -> M unit) (now : Z)
    (b b' : LinearAnimation.t) (w w' : World) :
  LinearAnimation_tick _animate now b w = Ok (b', w') ->
  LinearAnimation.start b' = LinearAnimation.start b.
Proof.
  unfold LinearAnimation_tick. destruct (LinearAnimation.start b) eqn:E; [|discriminate].
  destruct (Qle_bool _ 0); [intros [= <- _]; exact E|].
  destruct (Qle_bool _ _); intros H;
    apply bind_Ok_inv in H as (? & ? & _ & [= <- _]); exact E.
Qed.

Lemma tick_ready (now : Z) (a a' : Animation) (w w' : World) :
  ready a = true -> tick now a w = Ok (a', w') -> ready a' = true.
Proof.
  unfold ready. revert a' w w'.
  induction a as [b e o d dx dy|b e l|b|b|s d l IH|s d l act IHl IHact]
    using Animation_tree_ind; intros a' w w' Hr Ht.
  1-4: cbn [tick] in Ht; apply bind_Ok_inv in Ht as (b' & w1 & Hb & [= <- _]);
       apply LinearAnimation_tick_start in Hb; cbn [prepared] in *; now rewrite Hb.
  - rewrite tick_Group in Ht. apply bind_Ok_inv in Ht as (l' & w1 & Hl & [= <- _]).
    cbn [prepared] in *. clear s d. revert l' w w1 Hl.
    induction IH as [|a r Ha _ IHr]; intros l' w w1 Hl.
    + injection Hl as <- _. reflexivity.
    + cbn [tick_all] in Hl.
      apply bind_Ok_inv in Hl as (a1 & w2 & Ha1 & Hl).
      apply bind_Ok_inv in Hl as (r1 & w3 & Hr1 & [= <- _]).
      simpl in Hr. apply andb_prop in Hr as [Hra Hrr].
      simpl. rewrite (Ha _ _ _ Hra Ha1). now rewrite (IHr Hrr _ _ _ Hr1).
  - rewrite tick_Sequence in Ht. cbn [prepared] in Hr.
    apply andb_prop in Hr as [Hact Hq].
    assert (Hnext : prepared true (Sequence_next now s d l) = true).
    { destruct l as [|a r]; [reflexivity|]. simpl in Hq.
      apply andb_prop in Hq as [Ha Hr]. cbn [Sequence_next prepared from_option].
      pose proof (ready_begin now a Ha) as Hb. unfold ready in Hb.
      now rewrite Hb, Hr. }
    destruct act as [a|]; [|injection Ht as <- _; exact Hnext].
    destruct (done a); [injection Ht as <- _; exact Hnext|].
    apply bind_Ok_inv in Ht as (a1 & w1 & Ha1 & [= <- _]).
    cbn [prepared from_option] in *. now rewrite (IHact _ _ _ Hact Ha1), Hq.
Qed.

Lemma LinearAnimation_tick_settled (_animate : Q -> M unit) (now : Z)
    (b b' : LinearAnimation.t) (w w' : World) :
  LinearAnimation_tick _animate now b w = Ok (b', w') ->
  LinearAnimation.done b = true -> LinearAnimation.done b' = true.
Proof.
  unfold LinearAnimation_tick. destruct (LinearAnimation.start b); [|discriminate].
  destruct (Qle_bool _ 0); [now intros [= <- _]|].
  destruct (Qle_bool _ _); intros H;
    apply bind_Ok_inv in H as (? & ? & _ & [= <- _]); auto.
Qed.

(** [done] never flips back. *)
Lemma tick_done_monotone (now : Z) (a a' : Animation) (w w' : World) :
  settled a = true -> tick now a w = Ok (a', w') ->
  (done a = true -> done a' = true) /\ settled a' = true.
Proof.
  revert a' w w'.
  induction a as [b e o d dx dy|b e l|b|b|s d l IH|s d l act IHl IHact]
    using Animation_tree_ind; intros a' w w' Hs Ht.
  1-4: cbn [tick] in Ht; apply bind_Ok_inv in Ht as (b' & w1 & Hb & [= <- _]);
       split; [cbn [done]; eapply LinearAnimation_tick_settled; eauto|reflexivity].
  - rewrite tick_Group in Ht. apply bind_Ok_inv in Ht as (l' & w1 & Hl & [= <- _]).
    cbn [settled done] in *. apply andb_prop in Hs as [Hd Hs].
    assert (H : (forallb done l = true -> forallb done l' = true)
                /\ forallb settled l' = true).
    { clear Hd s d. revert l' w w1 Hl.
      induction IH as [|a r Ha _ IHr]; intros l' w w1 Hl.
      - injection Hl as <- _. split; reflexivity.
      - cbn [tick_all] in Hl.
        apply bind_Ok_inv in Hl as (a1 & w2 & Ha1 & Hl).
        apply bind_Ok_inv in Hl as (r1 & w3 & Hr1 & [= <- _]).
        simpl in Hs. apply andb_prop in Hs as [Hsa Hsr].
        destruct (Ha _ _ _ Hsa Ha1) as [Hda Hsa1].
        destruct (IHr Hsr _ _ _ Hr1) as [Hdr Hsr1].
        simpl. rewrite Hsa1, Hsr1. split; [|reflexivity].
        intros H. apply andb_prop in H as [H1 H2]. now rewrite Hda, Hdr. }
    destruct H as [Hmono Hs']. split.
    + intros ->. cbn [implb] in Hd. auto.
    + rewrite Hs'. now destruct (forallb done l').
  - rewrite tick_Sequence in Ht. cbn [settled done] in *.
    apply andb_prop in Hs as [Hs Hact]. apply andb_prop in Hs as [Hd Hq].
    assert (Hnext : (d = true -> done (Sequence_next now s d l) = true)
                    /\ settled (Sequence_next now s d l) = true).
    { destruct l as [|a r]; [split; reflexivity|].
      cbn [Sequence_next done settled from_option].
      simpl in Hq. apply andb_prop in Hq as [Ha Hr].
      rewrite settled_begin, Ha, Hr.
      destruct d; [destruct act; discriminate|]. split; [discriminate|reflexivity]. }
    destruct act as [a|]; [|injection Ht as <- _; exact Hnext].
    destruct (done a); [injection Ht as <- _; exact Hnext|].
    apply bind_Ok_inv in Ht as (a1 & w1 & Ha1 & [= <- _]).
    destruct (IHact _ _ _ Hact Ha1) as [_ Hs1].
    cbn [done settled from_option]. rewrite Hq, Hs1.
    destruct d; [destruct l; discriminate|]. split; [discriminate|reflexivity].
Qed.

(** *** AnimationSequence *)

Lemma tick_queue_suffix (t : Z) (q q' : Animation) (w w' : World) :
  tick t q w = Ok (q', w') ->
  exists k, queue q' = drop k (queue q).
Proof.
  intros H. destruct q as [| | | |s d l|s d l act].
  1-4: cbn [tick] in H; apply bind_Ok_inv in H as (b' & w1 & _ & [= <- _]);
       now exists 0%nat.
  - rewrite tick_Group in H.
    apply bind_Ok_inv in H as (l' & w2 & _ & [= <- _]). now exists 0%nat.
  - rewrite tick_Sequence in H.
    assert (Hnext : exists j, queue (Sequence_next t s d l) = drop j l).
    { destruct l as [|a r]; [now exists 0%nat|now exists 1%nat]. }
    destruct act as [a|]; [|injection H as <- _; exact Hnext].
    destruct (done a); [injection H as <- _; exact Hnext|].
    apply bind_Ok_inv in H as (a1 & w2 & _ & [= <- _]). now exists 0%nat.
Qed.

Lemma ticks_queue_suffix (clock : list Z) (q q' : Animation) (w w' : World) :
  ticks clock q w = Ok (q', w') ->
  exists k, queue q' = drop k (queue q).
Proof.
  revert q w. induction clock as [|t clock IH]; intros q w H.
  - injection H as <- _. now exists 0%nat.
  - cbn [ticks] in H. apply bind_Ok_inv in H as (q1 & w1 & H1 & H).
    destruct (IH _ _ H) as [k Hk]. rewrite Hk.
    destruct (tick_queue_suffix _ _ _ _ _ H1) as [j ->].
    exists (j + k)%nat. now rewrite drop_drop.
Qed.

(** C1. A sequence's [tick] that finds the active slot empty (or
    empties it because the active child is done) pops the head of the
    queue, begins it at [now] and returns: the child is not ticked in
    that call and the world is untouched.  The child is ticked by the
    later calls, as long as it is not done.  Children leave the queue
    only from its head, and only when the active slot holds no child
    that is not done. *)
Theorem AnimationSequence_tick_pops_in_order (now : Z) (s : option Z) (d : bool)
    (l : list Animation) (act : option Animation) (w : World) :
  (forall a r, l = a :: r -> from_option done true act = true ->
     tick now (AnimationSequence s d l act) w =
       Ok (AnimationSequence s d r (Some (begin now a)), w))
  /\ (forall c, act = Some c -> done c = false ->
        tick now (AnimationSequence s d l act) w =
          (c' ← tick now c; mret (AnimationSequence s d l (Some c'))) w)
  /\ (forall q' w', tick now (AnimationSequence s d l act) w = Ok (q', w') ->
        (queue q' = l /\ (from_option done true act = false \/ l = []))
        \/ (exists a, l = a :: queue q' /\ active q' = Some (begin now a)
                      /\ from_option done true act = true /\ w' = w))
  /\ (forall clock q' w',
        ticks clock (AnimationSequence_init l) w = Ok (q', w') ->
        exists k, queue q' = drop k l).
Proof.
  split; [|split; [|split]].
  - intros a r -> Hact. rewrite tick_Sequence.
    destruct act as [c|]; [|reflexivity]. simpl in Hact. now rewrite Hact.
  - intros c -> Hc. rewrite tick_Sequence. now rewrite Hc.
  - intros q' w' H. rewrite tick_Sequence in H.
    assert (Hnext : forall q' w', Ok (Sequence_next now s d l, w) = Ok (q', w') ->
              from_option done true act = true ->
              (queue q' = l /\ (from_option done true act = false \/ l = []))
              \/ (exists a, l = a :: queue q' /\ active q' = Some (begin now a)
                            /\ from_option done true act = true /\ w' = w)).
    { intros q1 w1 [= <- <-] Hact. destruct l as [|a r].
      - left. auto.
      - right. exists a. auto. }
    destruct act as [c|]; [|now apply Hnext].
    destruct (done c) eqn:Hc; [apply Hnext; auto|].
    apply bind_Ok_inv in H as (c' & w1 & _ & [= <- _]).
    left. simpl. auto.
  - intros clock q' w' H. apply ticks_queue_suffix in H. exact H.
Qed.

Lemma AnimationSequence_tick_pops_in_order_witness :
  tick 100000 (AnimationSequence_init [blink LeftEye None; blink RightEye None])
       (initial_world (fun _ => 0)) =
    Ok (AnimationSequence None false [blink RightEye None]
          (Some (begin 100000 (blink LeftEye None))),
        initial_world (fun _ => 0)).
Proof.
  exact (proj1 (AnimationSequence_tick_pops_in_order 100000 None false
                  [blink LeftEye None; blink RightEye None] None
                  (initial_world (fun _ => 0)))
               (blink LeftEye None) [blink RightEye None] eq_refl eq_refl).
Defined.

(** *** A tree that is ready can be ticked *)

Lemma anchored_mono (n m : nat) (a : Animation) :
  (n <= m)%nat -> anchored n a = true -> anchored m a = true.
Proof.
  intros Hle.
  induction a as [b e o d dx dy|b e l|b|b|s d l IH|s d l act IHl IHact]
    using Animation_tree_ind; cbn [anchored]; auto.
  - intros H. apply bool_decide_eq_true in H. apply bool_decide_eq_true. lia.
  - rewrite !forallb_Forall_true. intros H. rewrite Forall_forall in *. auto.
  - intros H. apply andb_prop in H as [Hl Hact].
    rewrite forallb_Forall_true in Hl.
    apply andb_true_intro. split.
    + apply forallb_Forall_true. rewrite Forall_forall in *. auto.
    + destruct act; simpl in *; auto.
Qed.

Lemma LinearAnimation_tick_Ok (_animate : Q -> M unit) (now : Z)
    (b : LinearAnimation.t) (w : World) :
  is_Some (LinearAnimation.start b) ->
  (forall pct, exists w', _animate pct w = Ok (tt, w')) ->
  exists b' w', LinearAnimation_tick _animate now b w = Ok (b', w').
Proof.
  intros [t0 Hs] Ha. unfold LinearAnimation_tick. rewrite Hs.
  destruct (Qle_bool _ 0); [eauto|].
  destruct (Qle_bool _ _).
  - destruct (Ha (elapsed_ms now t0 / inject_Z (LinearAnimation.duration_ms b))%Q)
      as [w' Hw'].
    erewrite bind_Ok by exact Hw'. eauto.
  - destruct (Ha 1%Q) as [w' Hw']. erewrite bind_Ok by exact Hw'. eauto.
Qed.

Lemma tick_Ok (now : Z) (a : Animation) (w : World) :
  ready a = true -> anchored (length (points w)) a = true ->
  exists a' w', tick now a w = Ok (a', w').
Proof.
  unfold ready. revert w.
  induction a as [b e o d dx dy|b e l|b|b|s d l IH|s d l act IHl IHact]
    using Animation_tree_ind; cbn [prepared anchored]; intros w Hr Ha.
  - apply bool_decide_eq_true in Hr, Ha. cbn [tick].
    destruct (LinearAnimation_tick_Ok (Look_animate b e o dx dy) now b w Hr)
      as (b' & w' & Hb).
    + intros pct. destruct (LinearAnimation.done b) eqn:Hd.
      * unfold Look_animate. rewrite Hd. eexists. reflexivity.
      * destruct (lookup_lt_is_Some_2 _ _ Ha) as [p Hp].
        eexists. now apply (Look_animate_Ok _ _ _ _ _ _ _ p).
    + erewrite bind_Ok by exact Hb. eauto.
  - apply bool_decide_eq_true in Hr. cbn [tick].
    destruct (LinearAnimation_tick_Ok (Blink_animate b e) now b w Hr)
      as (b' & w' & Hb).
    + intros pct. unfold Blink_animate.
      destruct (LinearAnimation.done b); [eexists; reflexivity|].
      destruct (Qle_bool 1 pct); eexists; reflexivity.
    + erewrite bind_Ok by exact Hb. eauto.
  - apply bool_decide_eq_true in Hr. cbn [tick].
    destruct (LinearAnimation_tick_Ok (GlowEyes_animate b) now b w Hr)
      as (b' & w' & Hb).
    + intros pct. unfold GlowEyes_animate.
      destruct (LinearAnimation.done b); [eexists; reflexivity|].
      destruct (Qle_bool 1 pct); eexists; reflexivity.
    + erewrite bind_Ok by exact Hb. eauto.
  - apply bool_decide_eq_true in Hr. cbn [tick].
    destruct (LinearAnimation_tick_Ok Wait_animate now b w Hr) as (b' & w' & Hb).
    + intros pct. eexists. reflexivity.
    + erewrite bind_Ok by exact Hb. eauto.
  - rewrite tick_Group.
    assert (H : exists l' w', tick_all now l w = Ok (l', w')).
    { clear s d. revert w Hr Ha.
      induction IH as [|a r IHa _ IHr]; intros w Hr Ha; [simpl; eauto|].
      simpl in Hr, Ha. apply andb_prop in Hr as [Hra Hrr].
      apply andb_prop in Ha as [Haa Har].
      destruct (IHa w Hra Haa) as (a' & w1 & Ha').
      destruct (IHr w1 Hrr) as (r' & w2 & Hr').
      { change (anchored (length (points w1)) (AnimationGroup None false r) = true).
        eapply anchored_mono; [|exact Har].
        apply tick_keeps_points in Ha'. now apply prefix_length. }
      cbn [tick_all]. erewrite bind_Ok by exact Ha'.
      erewrite bind_Ok by exact Hr'. eauto. }
    destruct H as (l' & w' & Hl). erewrite bind_Ok by exact Hl. eauto.
  - rewrite tick_Sequence. destruct act as [a|]; [|eauto].
    destruct (done a); [eauto|].
    apply andb_prop in Hr as [Hra _]. apply andb_prop in Ha as [_ Haa].
    destruct (IHact w Hra Haa) as (a' & w' & Ha').
    erewrite bind_Ok by exact Ha'. eauto.
Qed.

(** *** AnimationGroup *)

(** C2. After a group's [tick] its [done] flag is true exactly when
    every child's is (and the [tick] of a group that was begun does
    return); [begin(now)] begins every child at the same [now]; and the
    [tick] of an animation that is already done changes neither the
    animation nor the eyes or the device. *)
Theorem AnimationGroup_done_iff_children_done (now : Z) (s : option Z) (d : bool)
    (l : list Animation) (w : World) :
  (forall g' w',
      tick now (AnimationGroup s d l) w = Ok (g', w') ->
      exists l',
        g' = AnimationGroup s (forallb done l') l'
        /\ tick_all now l w = Ok (l', w')
        /\ length l' = length l
        /\ (done g' = true <-> Forall (fun c => done c = true) l'))
  /\ (ready (AnimationGroup s d l) = true ->
      anchored (length (points w)) (AnimationGroup s d l) = true ->
      exists g' w', tick now (AnimationGroup s d l) w = Ok (g', w'))
  /\ begin now (AnimationGroup s d l) = AnimationGroup (Some now) d (map (begin now) l)
  /\ (forall c t w1,
        settled c = true -> ready c = true -> done c = true ->
        tick t c w1 = Ok (c, w1)).
Proof.
  split; [|split; [|split]].
  - intros g' w' H. rewrite tick_Group in H.
    apply bind_Ok_inv in H as (l' & w1 & Hl & [= <- <-]).
    exists l'. split; [reflexivity|]. split; [exact Hl|].
    split; [eapply tick_all_length; eauto|].
    cbn [done]. apply forallb_Forall_true.
  - apply tick_Ok.
  - reflexivity.
  - intros c t w1 Hs Hr Hd. now apply tick_done_fixed.
Qed.

Lemma AnimationGroup_done_iff_children_done_witness :
  exists l',
    tick_all 100000 [begin 0 (blink LeftEye None); begin 0 (Wait_init 0 None)]
      (initial_world (fun _ => 0))
      = Ok (l', with_eyelids LeftEye 2 (initial_world (fun _ => 0)))
    /\ length l' = 2%nat.
Proof.
  destruct (proj1 (AnimationGroup_done_iff_children_done 100000 (Some 0) false
                     [begin 0 (blink LeftEye None); begin 0 (Wait_init 0 None)]
                     (initial_world (fun _ => 0)))
              (AnimationGroup (Some 0) false
                 [begin 0 (blink LeftEye None); begin 0 (Wait_init 0 None)])
              (with_eyelids LeftEye 2 (initial_world (fun _ => 0)))
              eq_refl) as (l' & _ & H1 & H2 & _).
  exists l'. split; [exact H1|exact H2].
Defined.

(** *** Ticks that are not after the start *)

(** C3 (as the code has it). A linear animation begun at [t] and ticked
    at [now <= t] is left exactly as it is, and so are the eyes and the
    device; no error is raised.  A group of such animations (groups
    nested in it included) raises no error either and leaves its linear
    animations and the world as they are, but it computes its [done]
    flag, and that of every group in it, anew from the children. *)
Theorem tick_not_after_begin (t now : Z) (a : Animation) (w : World) :
  now <= t ->
  sequence_free a = true ->
  tick now (begin t a) w = Ok (recheck (begin t a), w)
  /\ leaves (recheck (begin t a)) = leaves (begin t a)
  /\ (is_linear a = true -> tick now (begin t a) w = Ok (begin t a, w)).
Proof.
  intros Hle Hf.
  assert (H : tick now (begin t a) w = Ok (recheck (begin t a), w)).
  { apply tick_early.
    - now rewrite sequence_free_begin.
    - now apply not_begun_before_begin. }
  split; [exact H|]. split; [apply leaves_recheck|].
  intros Hl. rewrite H. destruct a; try discriminate; reflexivity.
Qed.

Lemma tick_not_after_begin_witness :
  tick 5 (begin 5 (blink LeftEye None)) (initial_world (fun _ => 0)) =
    Ok (begin 5 (blink LeftEye None), initial_world (fun _ => 0)).
Proof.
  exact (proj2 (proj2 (tick_not_after_begin 5 5 (blink LeftEye None)
                         (initial_world (fun _ => 0))
                         ltac:(lia) eq_refl)) eq_refl).
Defined.

(** C3 as stated does not hold for the combinators.  A group whose
    children are all done (here: none) becomes done itself on a tick at
    its very start time.  A sequence never looks at its start time:
    begun at 1 s and ticked at 0 and at 250 ms, it pops its Blink and
    plays it, and the eyelid of the left eye moves from -1 to 3. *)
Lemma tick_not_after_begin_changes_combinators :
  let w := initial_world (fun _ => 0) in
  (tick 0 (begin 0 (AnimationGroup_init [])) w
     = Ok (AnimationGroup (Some 0) true [], w)
   /\ done (begin 0 (AnimationGroup_init [])) = false)
  /\ (exists q w',
        ticks [0; 250000] (begin 1000000 (AnimationSequence_init [blink LeftEye None])) w
          = Ok (q, w')
        /\ active (begin 1000000 (AnimationSequence_init [blink LeftEye None])) = None
        /\ active q = Some (Blink (LinearAnimation.mk (Some 0) false 500) LeftEye 0)
        /\ eyelids (left_eye w) = -1
        /\ eyelids (left_eye w') = 3).
Proof.
  split; [split; reflexivity|].
  eexists _, _. split; [vm_compute; reflexivity|]. repeat split.
Qed.

(** ** The animation loop does not raise *)

#[global] Instance keeps_world_ok_PreOrder : PreOrder keeps_world_ok.
Proof. split; unfold keeps_world_ok; [intros w|intros w1 w2 w3]; auto. Qed.

Ltac world_ok_step :=
  unfold keeps_world_ok, world_ok, looked; intros;
  repeat match goal with s : EyeRef |- _ => destruct s end;
  cbn [points left_eye right_eye pupil with_pixels with_eyelids with_contrast
       drawn set_points with_pupil with_eye eye_of] in *;
  rewrite ?length_insert, ?length_app in *; simpl; lia.

Lemma tick_keeps_world_ok now a : respects keeps_world_ok (tick now a).
Proof. apply respects_tick; try apply _; world_ok_step. Qed.

Lemma world_ok_eye (e : EyeRef) (w : World) :
  world_ok w -> (pupil (eye_of e w) < length (points w))%nat.
Proof. intros [Hl Hr]. now destruct e. Qed.

Lemma built_world_ok (w w' : World) (a : Animation) :
  built w a w' -> world_ok w -> world_ok w'.
Proof.
  intros (Hp & He & _) [Hl Hr]. apply prefix_length in Hp.
  pose proof (He LeftEye) as H1. pose proof (He RightEye) as H2. simpl in H1, H2.
  unfold world_ok. rewrite H1, H2. lia.
Qed.

Lemma Look_init_built (eye : EyeRef) (dest : ref) (ms : Z) (w : World) :
  world_ok w -> (dest < length (points w))%nat ->
  exists a, Look_init eye dest ms w = Ok (a, w) /\ built w a w.
Proof.
  intros Hw Hd. apply (world_ok_eye eye) in Hw.
  destruct (lookup_lt_is_Some_2 _ _ Hw) as [o Ho].
  destruct (lookup_lt_is_Some_2 _ _ Hd) as [d Hdd].
  unfold Look_init.
  erewrite bind_Ok by reflexivity.
  erewrite bind_Ok by (unfold deref, ref; rewrite Hdd; reflexivity).
  erewrite bind_Ok by (unfold deref, ref; rewrite Ho; reflexivity).
  erewrite bind_Ok by (unfold deref, ref; rewrite Hdd; reflexivity).
  erewrite bind_Ok by (unfold deref, ref; rewrite Ho; reflexivity).
  eexists. split; [reflexivity|].
  repeat split; auto. cbn [anchored]. now apply bool_decide_eq_true.
Qed.

Lemma built_new_Point (x y : Z) (w : World) :
  let w' := set_points (points w ++ [Point.mk x y]) w in
  new_Point x y w = Ok (length (points w), w')
  /\ points w `prefix_of` points w'
  /\ (forall e, eye_of e w' = eye_of e w)
  /\ (length (points w) < length (points w'))%nat.
Proof.
  intros w'. split; [reflexivity|]. split; [now apply prefix_app_r|].
  split; [now intros []|]. subst w'. cbn [points set_points].
  rewrite length_app. simpl. lia.
Qed.

Lemma built_trans (w w1 w2 : World) (a : Animation) :
  points w `prefix_of` points w1 -> (forall e, eye_of e w1 = eye_of e w) ->
  built w1 a w2 -> built w a w2.
Proof.
  intros Hp He (Hp' & He' & Hs & Ha). split; [etransitivity; eauto|].
  split; [intros e; now rewrite He', He|]. auto.
Qed.

Lemma built_anchored_later (w w1 w2 : World) (a : Animation) :
  built w a w1 -> points w1 `prefix_of` points w2 ->
  anchored (length (points w2)) a = true.
Proof.
  intros (_ & _ & _ & Ha) Hp. eapply anchored_mono; [|exact Ha].
  now apply prefix_length.
Qed.

Lemma look_built (eye : EyeRef) (x y : Z) (ms : option Z) (w : World) :
  world_ok w ->
  exists a w',
    (p ← new_Point x y; look eye p ms) w = Ok (a, w') /\ built w a w'.
Proof.
  intros Hw. destruct (built_new_Point x y w) as (Hn & Hp & He & Hlt).
  erewrite bind_Ok by exact Hn.
  destruct (Look_init_built eye (length (points w)) (default 300 ms)
              (set_points (points w ++ [Point.mk x y]) w)) as (a & Ha & Hb).
  - unfold world_ok in *. cbn [points set_points left_eye right_eye] in *.
    rewrite length_app. simpl. lia.
  - exact Hlt.
  - exists a. eexists. split; [exact Ha|]. eapply built_trans; eauto.
Qed.

Lemma look_both_built (l r : EyeRef) (lx ly rx ry ms : Z) (w : World) :
  world_ok w ->
  exists a w', look_both l r lx ly rx ry ms w = Ok (a, w') /\ built w a w'.
Proof.
  intros Hw. unfold look_both.
  destruct (look_built l lx ly (Some ms) w Hw) as (a & w1 & Ha & Hba).
  apply bind_Ok_inv in Ha as (p & wp & Hp & Ha).
  erewrite bind_Ok by exact Hp. erewrite bind_Ok by exact Ha.
  assert (Hw1 : world_ok w1) by (eapply built_world_ok; eauto).
  destruct (look_built r rx ry (Some ms) w1 Hw1) as (b & w2 & Hb & Hbb).
  apply bind_Ok_inv in Hb as (q & wq & Hq & Hb).
  erewrite bind_Ok by exact Hq. erewrite bind_Ok by exact Hb.
  eexists _, _. split; [reflexivity|].
  destruct Hba as (Hp1 & He1 & Hs1 & Ha1), Hbb as (Hp2 & He2 & Hs2 & Ha2).
  split; [etransitivity; eauto|]. split; [intros e; now rewrite He2, He1|].
  unfold startable, AnimationGroup_init in *. cbn [prepared anchored forallb].
  rewrite Hs1, Hs2, Ha2.
  rewrite (anchored_mono _ _ _ (prefix_length _ _ Hp2) Ha1). auto.
Qed.

(** A list of animations built one after the other. *)
Lemma for_list_built {A} (f : A -> M Animation) (l : list A) (w : World) :
  (forall i w, world_ok w -> exists a w', f i w = Ok (a, w') /\ built w a w') ->
  world_ok w ->
  exists l' w',
    for_list l f w = Ok (l', w')
    /\ built w (AnimationGroup_init l') w'.
Proof.
  intros Hf. revert w. induction l as [|i l IH]; intros w Hw.
  - eexists _, _. split; [reflexivity|]. repeat split; auto.
  - destruct (Hf i w Hw) as (a & w1 & Ha & Hba).
    assert (Hw1 : world_ok w1) by (eapply built_world_ok; eauto).
    destruct (IH w1 Hw1) as (r & w2 & Hr & Hbr).
    cbn [for_list]. erewrite bind_Ok by exact Ha. erewrite bind_Ok by exact Hr.
    eexists _, _. split; [reflexivity|].
    destruct Hba as (Hp1 & He1 & Hs1 & Ha1), Hbr as (Hp2 & He2 & Hs2 & Ha2).
    split; [etransitivity; eauto|]. split; [intros e; now rewrite He2, He1|].
    unfold startable, AnimationGroup_init in *. cbn [prepared anchored forallb] in *.
    rewrite Hs1, Hs2, Ha2.
    rewrite (anchored_mono _ _ _ (prefix_length _ _ Hp2) Ha1). auto.
Qed.

(** A sequence made of what a group was built of. *)
Lemma built_sequence (w w' : World) (l : list Animation) :
  built w (AnimationGroup_init l) w' -> built w (AnimationSequence_init l) w'.
Proof.
  intros (Hp & He & Hs & Ha). repeat split; auto.
  unfold AnimationSequence_init. cbn [anchored from_option].
  cbn [AnimationGroup_init anchored] in Ha. now rewrite Ha.
Qed.

Lemma built_cons (w w1 w2 : World) (a : Animation) (l : list Animation) :
  built w a w1 -> built w1 (AnimationGroup_init l) w2 ->
  built w (AnimationGroup_init (a :: l)) w2.
Proof.
  intros (Hp1 & He1 & Hs1 & Ha1) (Hp2 & He2 & Hs2 & Ha2).
  split; [etransitivity; eauto|]. split; [intros e; now rewrite He2, He1|].
  unfold startable, AnimationGroup_init in *. cbn [prepared anchored forallb] in *.
  rewrite Hs1, Hs2, Ha2.
  rewrite (anchored_mono _ _ _ (prefix_length _ _ Hp2) Ha1). auto.
Qed.

Lemma built_pure (w : World) (a : Animation) :
  startable a = true -> (forall n, anchored n a = true) -> built w a w.
Proof. intros Hs Ha. repeat split; auto. Qed.

Lemma built_nil (w : World) : built w (AnimationGroup_init []) w.
Proof. now apply built_pure. Qed.

Lemma built_single (w w' : World) (a : Animation) :
  built w a w' -> built w (AnimationGroup_init [a]) w'.
Proof. intros H. eapply built_cons; [exact H|apply built_nil]. Qed.

Lemma built_app (w w1 w2 : World) (l1 l2 : list Animation) :
  built w (AnimationGroup_init l1) w1 -> built w1 (AnimationGroup_init l2) w2 ->
  built w (AnimationGroup_init (l1 ++ l2)) w2.
Proof.
  intros (Hp1 & He1 & Hs1 & Ha1) (Hp2 & He2 & Hs2 & Ha2).
  split; [etransitivity; eauto|]. split; [intros e; now rewrite He2, He1|].
  unfold startable, AnimationGroup_init in *. cbn [prepared anchored] in *.
  rewrite !forallb_app, Hs1, Hs2, Ha2.
  change (forallb (anchored (length (points w2))) l1)
    with (anchored (length (points w2)) (AnimationGroup None false l1)).
  rewrite (anchored_mono (length (points w1)) _ _ (prefix_length _ _ Hp2)); auto.
Qed.

Lemma Blink_built (eye : EyeRef) (ms : option Z) (w : World) :
  built w (blink eye ms) w.
Proof. now apply built_pure. Qed.

Lemma Wait_built {A} (eye : A) (ms : option Z) (w : World) :
  built w (Wait_init eye ms) w.
Proof. now apply built_pure. Qed.

Lemma CrossEyes_built (l r : EyeRef) (ms : option Z) (w : World) :
  world_ok w ->
  exists a w', CrossEyes l r ms w = Ok (a, w') /\ built w a w'.
Proof.
  intros Hw. unfold CrossEyes.
  destruct (look_both_built l r 6 4 2 4 (default 3000 ms / 3) w Hw)
    as (g1 & w1 & H1 & Hb1).
  assert (Hw1 : world_ok w1) by (eapply built_world_ok; eauto).
  destruct (look_both_built l r 4 4 4 4 (default 3000 ms / 3) w1 Hw1)
    as (g2 & w2 & H2 & Hb2).
  erewrite bind_Ok by exact H1. erewrite bind_Ok by exact H2.
  eexists _, _. split; [reflexivity|]. apply built_sequence.
  eapply built_cons; [exact Hb1|].
  eapply built_cons; [apply Wait_built|]. now apply built_single.
Qed.

Lemma MethEyes_built (l r : EyeRef) (ms : option Z) (w : World) :
  world_ok w ->
  exists a w', MethEyes l r ms w = Ok (a, w') /\ built w a w'.
Proof.
  intros Hw. unfold MethEyes.
  destruct (look_both_built l r 2 4 6 4 (default 3000 ms / 3) w Hw)
    as (g1 & w1 & H1 & Hb1).
  assert (Hw1 : world_ok w1) by (eapply built_world_ok; eauto).
  destruct (look_both_built l r 4 4 4 4 (default 3000 ms / 3) w1 Hw1)
    as (g2 & w2 & H2 & Hb2).
  erewrite bind_Ok by exact H1. erewrite bind_Ok by exact H2.
  eexists _, _. split; [reflexivity|]. apply built_sequence.
  eapply built_cons; [exact Hb1|].
  eapply built_cons; [apply Wait_built|]. now apply built_single.
Qed.

Lemma CrazyBlink_built (l r : EyeRef) (ms : option Z) (w : World) :
  exists a w', CrazyBlink l r ms w = Ok (a, w') /\ built w a w'.
Proof.
  eexists _, _. split; [reflexivity|]. apply built_sequence.
  eapply built_cons; [apply Blink_built|]. apply built_single, Blink_built.
Qed.

Lemma LazyEye_built (eye : EyeRef) (ms : option Z) (w : World) :
  world_ok w ->
  exists a w', LazyEye eye ms w = Ok (a, w') /\ built w a w'.
Proof.
  intros Hw. unfold LazyEye.
  destruct (look_built eye 4 6 (Some (default 2000 ms / 3 * 2)) w Hw)
    as (a & w1 & Ha & Hba).
  assert (Hw1 : world_ok w1) by (eapply built_world_ok; eauto).
  destruct (look_built eye 4 4 (Some (default 2000 ms / 3)) w1 Hw1)
    as (b & w2 & Hb & Hbb).
  apply bind_Ok_inv in Ha as (p & wp & Hp & Ha).
  apply bind_Ok_inv in Hb as (q & wq & Hq & Hb).
  erewrite bind_Ok by exact Hp. erewrite bind_Ok by exact Ha.
  erewrite bind_Ok by exact Hq. erewrite bind_Ok by exact Hb.
  eexists _, _. split; [reflexivity|]. apply built_sequence.
  eapply built_cons; [exact Hba|]. now apply built_single.
Qed.

Lemma CrazySpin_built (l r : EyeRef) (ms : option Z) (w : World) :
  world_ok w ->
  exists a w', CrazySpin l r ms w = Ok (a, w') /\ built w a w'.
Proof.
  intros Hw. unfold CrazySpin.
  edestruct (for_list_built
               (fun i => look_both l r (4 - i) 4 (4 - i) 4 (default 400 ms / (2 * 8))))
    as (a & w' & Ha & Hb); [|exact Hw|].
  - intros i w1 Hw1. now apply look_both_built.
  - erewrite bind_Ok by exact Ha. eexists _, _. split; [reflexivity|].
    now apply built_sequence.
Qed.

Lemma RoundSpin_built (l r : EyeRef) (ms : option Z) (w : World) :
  world_ok w ->
  exists a w', RoundSpin l r ms w = Ok (a, w') /\ built w a w'.
Proof.
  intros Hw. unfold RoundSpin.
  set (d := default 400 ms / (2 * 13 + 1)).
  set (circle := for_list (_ :: _) _).
  assert (Hc : forall w, world_ok w ->
            exists c w', circle w = Ok (c, w') /\ built w (AnimationGroup_init c) w').
  { intros w1 Hw1. apply for_list_built; [|exact Hw1].
    intros [[[lx ly] rx] ry] w2 Hw2. now apply look_both_built. }
  clearbody circle.
  destruct (look_both_built l r 6 4 2 4 d w Hw) as (g & w1 & Hg & Hbg).
  assert (Hw1 : world_ok w1) by (eapply built_world_ok; eauto).
  destruct (Hc w1 Hw1) as (c1 & w2 & Hc1 & Hb1).
  assert (Hw2 : world_ok w2) by (eapply built_world_ok; eauto).
  destruct (Hc w2 Hw2) as (c2 & w3 & Hc2 & Hb2).
  erewrite bind_Ok by exact Hg.
  erewrite bind_Ok.
  2:{ change (xrange 0 2) with [0; 1]. cbn [for_list].
      erewrite bind_Ok by exact Hc1.
      erewrite bind_Ok; [reflexivity|].
      erewrite bind_Ok by exact Hc2. reflexivity. }
  eexists _, _. split; [reflexivity|]. apply built_sequence.
  eapply built_cons; [exact Hbg|]. cbn [concat]. rewrite app_nil_r.
  eapply built_app; eauto.
Qed.

Lemma randint_Ok (lo hi : Z) (w : World) :
  exists v, randint lo hi w = Ok (v, drawn w).
Proof. eexists. reflexivity. Qed.

Lemma built_drawn (w w' : World) (a : Animation) :
  built (drawn w) a w' -> built w a w'.
Proof. apply built_trans; [reflexivity|now intros []]. Qed.

Lemma world_ok_drawn (w : World) : world_ok w -> world_ok (drawn w).
Proof. auto. Qed.

Lemma pick_effect_built (l r : EyeRef) (w : World) :
  world_ok w ->
  exists a w', pick_effect l r w = Ok (a, w') /\ built w a w'.
Proof.
  intros Hw. unfold pick_effect.
  destruct (randint_Ok 0 6 w) as [i Hi]. erewrite bind_Ok by exact Hi.
  apply world_ok_drawn in Hw.
  assert (H : exists a w', (if decide (i = 0) then CrossEyes l r None
      else if decide (i = 1) then CrazySpin l r None
      else if decide (i = 2) then MethEyes l r None
      else if decide (i = 3) then CrazyBlink l r None
      else if decide (i = 4) then LazyEye l None
      else if decide (i = 5) then RoundSpin l r None
      else mret (GlowEyes_init 300)) (drawn w) = Ok (a, w')
      /\ built (drawn w) a w').
  { repeat (destruct (decide _);
            [auto using CrossEyes_built, CrazySpin_built, MethEyes_built,
               CrazyBlink_built, LazyEye_built, RoundSpin_built|]).
    eexists _, _. split; [reflexivity|]. now apply built_pure. }
  destruct H as (a & w' & Ha & Hb). exists a, w'. split; [exact Ha|].
  now apply built_drawn.
Qed.

Lemma next_round_built (w : World) :
  world_ok w ->
  exists q w', next_round w = Ok (q, w') /\ built w q w' /\ ready q = true.
Proof.
  intros Hw. unfold next_round.
  destruct (randint_Ok 2 5 w) as [px Hpx]. erewrite bind_Ok by exact Hpx.
  destruct (randint_Ok 2 5 (drawn w)) as [py Hpy]. erewrite bind_Ok by exact Hpy.
  set (w1 := drawn (drawn w)).
  assert (Hw1 : world_ok w1) by auto.
  destruct (built_new_Point px py w1) as (Hn & Hp & He & Hlt).
  erewrite bind_Ok by exact Hn.
  set (w2 := set_points (points w1 ++ [Point.mk px py]) w1) in *.
  assert (Hw2 : world_ok w2).
  { unfold world_ok in *. rewrite (He LeftEye : left_eye w2 = _),
      (He RightEye : right_eye w2 = _). cbn [eye_of]. lia. }
  destruct (Look_init_built LeftEye (length (points w1)) 300 w2 Hw2 Hlt)
    as (l & Hl & Hbl).
  destruct (Look_init_built RightEye (length (points w1)) 300 w2 Hw2 Hlt)
    as (r & Hr & Hbr).
  unfold look. cbn [default]. erewrite bind_Ok by exact Hl.
  erewrite bind_Ok by exact Hr.
  destruct (randint_Ok 5 7 w2) as [n Hn']. erewrite bind_Ok by exact Hn'.
  destruct (randint_Ok 0 3 (drawn w2)) as [b Hb]. erewrite bind_Ok by exact Hb.
  destruct (randint_Ok 0 6 (drawn (drawn w2))) as [e He']. erewrite bind_Ok by exact He'.
  set (w3 := drawn (drawn (drawn w2))).
  assert (Hw3 : world_ok w3) by auto.
  assert (H03 : points w `prefix_of` points w3 /\ forall e, eye_of e w3 = eye_of e w).
  { split; [exact Hp|]. intros e0. now destruct e0. }
  destruct H03 as [Hp3 He3].
  set (first_two := [AnimationGroup_init [l; r]] ++ [Wait_init (n * 500) None]).
  assert (Hb2 : built w3 (AnimationGroup_init first_two) w3).
  { eapply built_cons; [|apply built_single, Wait_built].
    eapply built_trans with (w1 := w3); [reflexivity|reflexivity|].
    assert (Hg : built w2 (AnimationGroup_init [l; r]) w2).
    { eapply built_cons; [exact Hbl|]. now apply built_single. }
    destruct Hg as (_ & _ & Hs & Ha). repeat split; auto. }
  set (with_blink :=
         if decide (b = 0)
         then first_two ++ [AnimationGroup_init [blink LeftEye None; blink RightEye None]]
         else first_two).
  assert (Hb3 : built w3 (AnimationGroup_init with_blink) w3).
  { subst with_blink. destruct (decide (b = 0)); [|exact Hb2].
    eapply built_app; [exact Hb2|]. apply built_single.
    eapply built_cons; [apply Blink_built|]. apply built_single, Blink_built. }
  clearbody with_blink.
  assert (H : exists q w', (if decide (e = 0)
                   then eff ← pick_effect LeftEye RightEye; mret (with_blink ++ [eff])
                   else mret with_blink) w3 = Ok (q, w')
                /\ built w3 (AnimationGroup_init q) w').
  { destruct (decide (e = 0)); [|eauto].
    destruct (pick_effect_built LeftEye RightEye w3 Hw3) as (eff & w4 & Heff & Hbe).
    erewrite bind_Ok by exact Heff. eexists _, _. split; [reflexivity|].
    eapply built_app; [exact Hb3|]. now apply built_single. }
  destruct H as (q & w' & Hq & Hbq).
  erewrite bind_Ok by exact Hq.
  eexists _, _. split; [reflexivity|].
  apply built_sequence in Hbq. split.
  - eapply built_trans; eauto.
  - destruct Hbq as (_ & _ & Hs & _). exact Hs.
Qed.

Lemma anchored_begin (n : nat) (t : Z) (a : Animation) :
  anchored n (begin t a) = anchored n a.
Proof.
  induction a as [b e o d dx dy|b e l|b|b|s d l IH|s d l act IHl IHact]
    using Animation_tree_ind; try reflexivity.
  cbn [begin anchored]. induction IH as [|a r Ha _ IHr]; [reflexivity|].
  simpl. now rewrite Ha, IHr.
Qed.

Lemma tick_anchored (n : nat) (now : Z) (a a' : Animation) (w w' : World) :
  tick now a w = Ok (a', w') -> anchored n a = true -> anchored n a' = true.
Proof.
  revert a' w w'.
  induction a as [b e o d dx dy|b e l|b|b|s d l IH|s d l act IHl IHact]
    using Animation_tree_ind; intros a' w w' Ht Ha.
  1-4: cbn [tick] in Ht; apply bind_Ok_inv in Ht as (b' & w1 & _ & [= <- _]);
       exact Ha.
  - rewrite tick_Group in Ht. apply bind_Ok_inv in Ht as (l' & w1 & Hl & [= <- _]).
    cbn [anchored] in *. clear s d. revert l' w w1 Hl.
    induction IH as [|a r IHa _ IHr]; intros l' w w1 Hl.
    + injection Hl as <- _. reflexivity.
    + cbn [tick_all] in Hl.
      apply bind_Ok_inv in Hl as (a1 & w2 & Ha1 & Hl).
      apply bind_Ok_inv in Hl as (r1 & w3 & Hr1 & [= <- _]).
      simpl in Ha. apply andb_prop in Ha as [Haa Har].
      simpl. rewrite (IHa _ _ _ Ha1 Haa). now rewrite (IHr Har _ _ _ Hr1).
  - rewrite tick_Sequence in Ht. cbn [anchored] in Ha.
    apply andb_prop in Ha as [Hq Hact].
    assert (Hnext : anchored n (Sequence_next now s d l) = true).
    { destruct l as [|a r]; [reflexivity|]. simpl in Hq.
      apply andb_prop in Hq as [Ha Hr]. cbn [Sequence_next anchored from_option].
      now rewrite anchored_begin, Ha, Hr. }
    destruct act as [a|]; [|injection Ht as <- _; exact Hnext].
    destruct (done a); [injection Ht as <- _; exact Hnext|].
    apply bind_Ok_inv in Ht as (a1 & w1 & Ha1 & [= <- _]).
    cbn [anchored from_option] in *. now rewrite (IHact _ _ _ Ha1 Hact), Hq.
Qed.

Lemma render_Ok (w : World) :
  world_ok w ->
  exists frame w', render LeftEye RightEye w = Ok (frame, w')
    /\ points w' = points w
    /\ forall e, pupil (eye_of e w') = pupil (eye_of e w).
Proof.
  intros [Hl Hr]. unfold render.
  destruct (lookup_lt_is_Some_2 _ _ Hl) as [pl Hpl].
  destruct (lookup_lt_is_Some_2 _ _ Hr) as [pr Hpr].
  erewrite bind_Ok by (apply (image_draw LeftEye w pl Hpl)).
  erewrite bind_Ok by (apply (image_draw RightEye _ pr); exact Hpr).
  eexists _, _. split; [reflexivity|]. split; [reflexivity|]. now intros [].
Qed.

Lemma loop_body_Ok (main_sequence : Animation) (t : Z) (w : World) :
  loop_ok main_sequence w ->
  exists main' frame w',
    loop_body main_sequence t w = Ok ((main', frame), w') /\ loop_ok main' w'.
Proof.
  intros (Hw & Hr & Ha). unfold loop_body.
  assert (H : exists q w1,
             (if done main_sequence then next_round else mret main_sequence) w
               = Ok (q, w1) /\ loop_ok q w1).
  { destruct (done main_sequence).
    - destruct (next_round_built w Hw) as (q & w1 & Hq & Hb & Hrq).
      exists q, w1. split; [exact Hq|]. split; [eapply built_world_ok; eauto|].
      split; [exact Hrq|]. now destruct Hb as (_ & _ & _ & ?).
    - exists main_sequence, w. split; [reflexivity|]. repeat split; auto; apply Hw. }
  destruct H as (q & w1 & Hq & Hw1 & Hrq & Haq).
  erewrite bind_Ok by exact Hq.
  destruct (tick_Ok t q w1 Hrq Haq) as (q' & w2 & Ht).
  erewrite bind_Ok by exact Ht.
  assert (Hw2 : world_ok w2) by (now apply (tick_keeps_world_ok _ _ _ _ _ Ht)).
  destruct (render_Ok w2 Hw2) as (frame & w3 & Hf & Hp3 & He3).
  erewrite bind_Ok by exact Hf.
  eexists _, _, _. split; [reflexivity|].
  split; [|split].
  - unfold world_ok in *. rewrite Hp3, (He3 LeftEye : pupil (left_eye w3) = _),
      (He3 RightEye : pupil (right_eye w3) = _). exact Hw2.
  - eapply tick_ready; eauto.
  - rewrite Hp3. eapply anchored_mono; [|eapply tick_anchored; eauto].
    apply tick_keeps_points in Ht. now apply prefix_length.
Qed.

(** The animation loop raises no exception, however long it runs,
    whatever the clock shows and whatever is drawn. *)
Lemma run_loop_Ok (clock : list Z) (main_sequence : Animation) (w : World) :
  loop_ok main_sequence w ->
  exists main' frames w',
    run_loop clock main_sequence w = Ok ((main', frames), w')
    /\ length frames = length clock /\ loop_ok main' w'.
Proof.
  revert main_sequence w. induction clock as [|t clock IH]; intros main w Hok.
  - eexists _, _, _. split; [reflexivity|]. auto.
  - destruct (loop_body_Ok main t w Hok) as (m1 & f & w1 & H1 & Hok1).
    destruct (IH m1 w1 Hok1) as (m2 & fs & w2 & H2 & Hlen & Hok2).
    cbn [run_loop]. erewrite bind_Ok by exact H1. cbv beta iota.
    erewrite bind_Ok by exact H2.
    eexists _, _, _. split; [reflexivity|]. split; [simpl; now rewrite Hlen|exact Hok2].
Qed.

Lemma loop_ok_initial (source : nat -> Z) :
  loop_ok initial_sequence (initial_world source).
Proof. repeat split; simpl; lia. Qed.

(** ** Every tree of the loop is settled *)

Lemma returns_mret {A} (P : A -> Prop) (a : A) : P a -> returns P (mret a).
Proof. intros H w a' w' [= <- _]. exact H. Qed.

Lemma returns_bind {A B} (Q : A -> Prop) (P : B -> Prop) (m : M A) (f : A -> M B) :
  returns Q m -> (forall a, Q a -> returns P (f a)) -> returns P (m ≫= f).
Proof.
  intros Hm Hf w b w2 H. apply bind_Ok_inv in H as (a & w1 & H1 & H2).
  eapply Hf; eauto.
Qed.

Lemma returns_any {A} (m : M A) : returns (fun _ => True) m.
Proof. intros w a w' _. exact I. Qed.

Lemma returns_for_list {A B} (P : B -> Prop) (l : list A) (f : A -> M B) :
  (forall i, returns P (f i)) -> returns (Forall P) (for_list l f).
Proof.
  intros H. induction l as [|i l IH]; simpl.
  - now apply returns_mret.
  - eapply returns_bind; [apply H|]. intros b Hb.
    eapply returns_bind; [exact IH|]. intros r Hr.
    apply returns_mret. now constructor.
Qed.

Lemma settled_Group_init (l : list Animation) :
  Forall (fun a => settled a = true) l -> settled (AnimationGroup_init l) = true.
Proof. intros H. cbn. now apply forallb_Forall_true. Qed.

Lemma settled_Sequence_init (l : list Animation) :
  Forall (fun a => settled a = true) l -> settled (AnimationSequence_init l) = true.
Proof.
  intros H. cbn. apply forallb_Forall_true in H. now rewrite H.
Qed.

Lemma Look_init_settled eye dest ms :
  returns (fun a => settled a = true) (Look_init eye dest ms).
Proof.
  unfold Look_init.
  do 5 (eapply returns_bind; [apply returns_any|intros ? _]).
  now apply returns_mret.
Qed.

Lemma look_both_settled l r lx ly rx ry ms :
  returns (fun a => settled a = true) (look_both l r lx ly rx ry ms).
Proof.
  unfold look_both, look.
  eapply returns_bind; [apply returns_any|intros p _].
  eapply returns_bind; [apply Look_init_settled|intros a Ha].
  eapply returns_bind; [apply returns_any|intros q _].
  eapply returns_bind; [apply Look_init_settled|intros b Hb].
  apply returns_mret, settled_Group_init. auto.
Qed.

Lemma pick_effect_settled l r :
  returns (fun a => settled a = true) (pick_effect l r).
Proof.
  unfold pick_effect.
  eapply returns_bind; [apply returns_any|intros i _].
  repeat (destruct (decide _); [|]); try (now apply returns_mret).
  - unfold CrossEyes.
    eapply returns_bind; [apply look_both_settled|intros g1 H1].
    eapply returns_bind; [apply look_both_settled|intros g2 H2].
    apply returns_mret, settled_Sequence_init. auto.
  - unfold CrazySpin.
    eapply returns_bind;
      [apply returns_for_list; intros ?; apply look_both_settled|intros a Ha].
    now apply returns_mret, settled_Sequence_init.
  - unfold MethEyes.
    eapply returns_bind; [apply look_both_settled|intros g1 H1].
    eapply returns_bind; [apply look_both_settled|intros g2 H2].
    apply returns_mret, settled_Sequence_init. auto.
  - unfold LazyEye, look.
    eapply returns_bind; [apply returns_any|intros p _].
    eapply returns_bind; [apply Look_init_settled|intros a Ha].
    eapply returns_bind; [apply returns_any|intros q _].
    eapply returns_bind; [apply Look_init_settled|intros b Hb].
    apply returns_mret, settled_Sequence_init. auto.
  - unfold RoundSpin.
    eapply returns_bind; [apply look_both_settled|intros g Hg].
    eapply returns_bind.
    { apply returns_for_list. intros _. apply returns_for_list.
      intros [[[lx ly] rx] ry]. apply look_both_settled. }
    intros rounds Hr. apply returns_mret, settled_Sequence_init.
    constructor; [exact Hg|]. now apply Forall_concat.
Qed.

Lemma next_round_settled : returns (fun a => settled a = true) next_round.
Proof.
  unfold next_round, look.
  eapply returns_bind; [apply returns_any|intros px _].
  eapply returns_bind; [apply returns_any|intros py _].
  eapply returns_bind; [apply returns_any|intros p _].
  eapply returns_bind; [apply Look_init_settled|intros l Hl].
  eapply returns_bind; [apply Look_init_settled|intros r Hr].
  eapply returns_bind; [apply returns_any|intros n _].
  eapply returns_bind; [apply returns_any|intros b _].
  eapply returns_bind; [apply returns_any|intros e _].
  cbv zeta.
  assert (H2 : Forall (fun a => settled a = true)
                 ([AnimationGroup_init [l; r]] ++ [Wait_init (n * 500) None])).
  { repeat constructor. apply settled_Group_init; auto. }
  set (first_two := [AnimationGroup_init [l; r]] ++ [Wait_init (n * 500) None]) in *.
  assert (H3 : Forall (fun a => settled a = true)
                 (if decide (b = 0)
                  then first_two ++ [AnimationGroup_init [blink LeftEye None; blink RightEye None]]
                  else first_two)).
  { destruct (decide (b = 0)); [|exact H2].
    apply Forall_app. split; [exact H2|]. now repeat constructor. }
  set (with_blink := if decide (b = 0) then _ else _) in *. clearbody with_blink.
  eapply (returns_bind (Forall (fun a => settled a = true))).
  - destruct (decide (e = 0)); [|now apply returns_mret].
    eapply returns_bind; [apply pick_effect_settled|intros eff He].
    apply returns_mret, Forall_app. split; [exact H3|]. now repeat constructor.
  - intros q Hq. now apply returns_mret, settled_Sequence_init.
Qed.

(** The trees the animation loop holds are settled, all of them. *)
Lemma run_loop_settled (clock : list Z) (main_sequence : Animation) :
  settled main_sequence = true ->
  returns (fun r => settled (fst r) = true) (run_loop clock main_sequence).
Proof.
  revert main_sequence. induction clock as [|t clock IH]; intros main Hs.
  - now apply returns_mret.
  - cbn [run_loop].
    eapply (returns_bind (fun r => settled (fst r) = true)).
    + unfold loop_body.
      eapply (returns_bind (fun a => settled a = true)).
      { destruct (done main); [apply next_round_settled|now apply returns_mret]. }
      intros q Hq.
      eapply (returns_bind (fun a => settled a = true)).
      { intros w a w' Ht. now apply (tick_done_monotone _ _ _ _ _ Hq Ht). }
      intros q' Hq'.
      eapply returns_bind; [apply returns_any|intros f _].
      now apply returns_mret.
    + intros [m1 f] H1.
      eapply returns_bind; [apply IH; exact H1|].
      intros [m2 fs] H2. now apply returns_mret.
Qed.

(** ** The rounds of the animation loop *)

(** C4 (code).  The round [next_round] builds always holds, in second
    place, a Wait of 300 ms: the value drawn for the wait is bound to
    the first parameter of [Wait.__init__], which is [eye], and
    [duration_ms] keeps its default. *)
Theorem next_round_Wait_is_300ms (w : World) (q : Animation) (w' : World) :
  next_round w = Ok (q, w') ->
  (exists g rest,
      q = AnimationSequence None false
            (g :: Wait (LinearAnimation.mk None false 300) :: rest) None)
  /\ (forall n : Z, Wait_init (n * 500) None = Wait (LinearAnimation.mk None false 300)).
Proof.
  intros H. split; [|reflexivity].
  unfold next_round in H.
  do 8 (apply bind_Ok_inv in H as (? & ? & _ & H)).
  apply bind_Ok_inv in H as (anims & w1 & Hif & [= <- _]).
  match type of Hif with
  | context [AnimationGroup_init [?l; ?r]] =>
      exists (AnimationGroup_init [l; r])
  end.
  destruct (decide (_ = 0)); destruct (decide (_ = 0));
    try (injection Hif as <- _; cbn; eauto; fail);
    apply bind_Ok_inv in Hif as (eff & w2 & _ & [= <- _]); cbn; eauto.
Qed.

Lemma next_round_Wait_is_300ms_witness :
  exists q w',
    next_round (initial_world (fun _ => 1)) = Ok (q, w')
    /\ exists g rest,
         q = AnimationSequence None false
               (g :: Wait (LinearAnimation.mk None false 300) :: rest) None.
Proof.
  eexists _, _. split; [vm_compute; reflexivity|].
  refine (proj1 (next_round_Wait_is_300ms (initial_world (fun _ => 1)) _ _ _)).
  vm_compute. reflexivity.
Defined.

(** ** CrazySpin *)

(** C5 (as the code has it).  From the initial pupil position (4,4),
    CrazySpin builds 16 steps, each a Look of 25 ms per eye; step [i]
    heads for column [4 - i] and stores the displacement [-i] from the
    pupil of construction time.  Step 0 heads for the column the pupil
    is in and is done when constructed.  Played by a loop that ticks
    every 100 ms, each step takes two ticks (popped, then completed),
    and on completion of step [i] both pupils are at column
    [(4 - i) mod 8]: one column to the left of where the step before
    left them, through 4,3,2,1,0,7,6,5 twice, ending at column 5. *)
Theorem CrazySpin_default_steps (source : nat -> Z) :
  exists q w trace w',
    CrazySpin LeftEye RightEye None (initial_world source) = Ok (q, w)
    /\ length (queue q) = 16%nat
    /\ map (step_summary w) (queue q) =
         map (fun i => [Some (LeftEye, bool_decide (i = 0), 25, (- i, 0), Point.mk (4 - i) 4);
                        Some (RightEye, bool_decide (i = 0), 25, (- i, 0), Point.mk (4 - i) 4)])
             (seqZ 0 16)
    /\ play (every_100ms 32) q w = Ok (trace, w')
    /\ map (fun lr => Point.x (fst lr)) trace =
         [4; 4; 4; 3; 3; 2; 2; 1; 1; 0; 0; 7; 7; 6; 6; 5;
          5; 4; 4; 3; 3; 2; 2; 1; 1; 0; 0; 7; 7; 6; 6; 5]
    /\ (forall i, 0 <= i < 16 ->
          trace !! Z.to_nat (2 * i + 1) =
            Some (Point.mk ((4 - i) mod 8) 4, Point.mk ((4 - i) mod 8) 4)).
Proof.
  eexists _, _, _, _.
  split; [vm_compute; reflexivity|].
  split; [vm_compute; reflexivity|].
  split; [vm_compute; reflexivity|].
  split; [vm_compute; reflexivity|].
  split; [vm_compute; reflexivity|].
  intros i Hi.
  assert (Hcases : i = 0 \/ i = 1 \/ i = 2 \/ i = 3 \/ i = 4 \/ i = 5 \/ i = 6 \/ i = 7
                   \/ i = 8 \/ i = 9 \/ i = 10 \/ i = 11 \/ i = 12 \/ i = 13
                   \/ i = 14 \/ i = 15) by lia.
  repeat (destruct Hcases as [->|Hcases]; [vm_compute; reflexivity|]).
  subst i. vm_compute. reflexivity.
Qed.

Lemma CrazySpin_default_steps_witness :
  exists q w trace w',
    CrazySpin LeftEye RightEye None (initial_world (fun _ => 0)) = Ok (q, w)
    /\ play (every_100ms 32) q w = Ok (trace, w')
    /\ trace !! 11%nat = Some (Point.mk 7 4, Point.mk 7 4).
Proof.
  destruct (CrazySpin_default_steps (fun _ => 0))
    as (q & w & trace & w' & H1 & _ & _ & H4 & _ & H6).
  exists q, w, trace, w'. split; [exact H1|]. split; [exact H4|].
  exact (H6 5 ltac:(lia)).
Defined.

(** C5 as stated does not hold for the first step: it is a Look to the
    column the pupil is already in, done when constructed.  After three
    ticks step 0 is over and step 1 has been popped (14 steps remain
    queued), and the pupils are still at column 4.  At the end of the
    sequence they are at column 5: 15 columns to the left, not 16. *)
Lemma CrazySpin_first_step_does_not_move :
  exists q w q3 w3 q33 w33,
    CrazySpin LeftEye RightEye None (initial_world (fun _ => 0)) = Ok (q, w)
    /\ pupil_point LeftEye w = Ok (Point.mk 4 4, w)
    /\ head (map (step_summary w) (queue q)) =
         Some [Some (LeftEye, true, 25, (0, 0), Point.mk 4 4);
               Some (RightEye, true, 25, (0, 0), Point.mk 4 4)]
    /\ ticks (every_100ms 3) q w = Ok (q3, w3)
    /\ length (queue q3) = 14%nat
    /\ pupil_point LeftEye w3 = Ok (Point.mk 4 4, w3)
    /\ ticks (every_100ms 33) q w = Ok (q33, w33)
    /\ done q33 = true
    /\ pupil_point LeftEye w33 = Ok (Point.mk 5 4, w33).
Proof.
  eexists _, _, _, _, _, _.
  repeat (split; [vm_compute; reflexivity|]).
  vm_compute. reflexivity.
Qed.

(** ** Ranges of the interpolated values *)

Lemma int_between (q : Q) (hi : Z) :
  (inject_Z (-1) < q)%Q -> (q < inject_Z (hi + 1))%Q -> 0 <= hi ->
  0 <= int q <= hi.
Proof.
  intros Hlo Hhi Hh. rewrite int_trunc.
  destruct (Qlt_le_dec q 0) as [Hneg|Hpos].
  - assert (Qceiling q = 0); [|lia].
    unfold Qceiling.
    assert (H1 : (0 <= Qfloor (- q))%Z).
    { change 0 with (Qfloor (inject_Z 0)) at 1. apply Qfloor_resp_le.
      change (inject_Z 0) with 0%Q. lra. }
    assert (H2 : (Qfloor (- q) < 1)%Z).
    { rewrite Zlt_Qlt. eapply Qle_lt_trans; [apply Qfloor_le|].
      change (inject_Z 1) with 1%Q. change (inject_Z (-1)) with (-1 # 1) in Hlo. lra. }
    lia.
  - split.
    + change 0 with (Qfloor (inject_Z 0)) at 1. now apply Qfloor_resp_le.
    + apply Z.lt_succ_r. rewrite Zlt_Qlt.
      eapply Qle_lt_trans; [apply Qfloor_le|]. exact Hhi.
Qed.

Lemma int_at_least (q : Q) (lo : Z) :
  0 <= lo -> (inject_Z lo <= q)%Q -> lo <= int q.
Proof.
  intros Hlo H. rewrite int_trunc.
  assert (Hq : (0 <= q)%Q).
  { eapply Qle_trans; [|exact H]. change 0%Q with (inject_Z 0).
    now rewrite <- Zle_Qle. }
  destruct (Qlt_le_dec q 0) as [Hneg|_]; [lra|].
  rewrite <- (Qfloor_Z lo). now apply Qfloor_resp_le.
Qed.

Lemma Qlt_bool_true (a b : Q) : Qlt_bool a b = true <-> (a < b)%Q.
Proof.
  unfold Qlt_bool. rewrite negb_true_iff. split.
  - intros H. apply Qnot_le_lt. intros Hle. apply Qle_bool_iff in Hle. congruence.
  - intros H. destruct (Qle_bool b a) eqn:E; [|reflexivity].
    apply Qle_bool_iff in E. lra.
Qed.

Lemma Qlt_bool_false (a b : Q) : Qlt_bool a b = false <-> (b <= a)%Q.
Proof.
  unfold Qlt_bool. rewrite negb_false_iff. apply Qle_bool_iff.
Qed.

(** Blink's formula yields the offsets 0..4 (before the clamp). *)
Lemma blink_offset_range (pct : Q) :
  (0 <= pct <= 1)%Q -> 0 <= int (blink_offset pct) <= 4.
Proof.
  intros [H0 H1]. unfold blink_offset.
  destruct (Qlt_bool pct (1 # 2)) eqn:E.
  - apply Qlt_bool_true in E. apply int_between; [| |lia].
    + change (inject_Z (-1)) with (-1 # 1). unfold Qdiv.
      change (/ (49 # 100))%Q with (100 # 49). lra.
    + change (inject_Z (4 + 1)) with (5 # 1). unfold Qdiv.
      change (/ (49 # 100))%Q with (100 # 49). lra.
  - apply Qlt_bool_false in E. apply int_between; [| |lia].
    + change (inject_Z (-1)) with (-1 # 1). unfold Qdiv.
      change (/ (49 # 100))%Q with (100 # 49). lra.
    + change (inject_Z (4 + 1)) with (5 # 1). unfold Qdiv.
      change (/ (49 # 100))%Q with (100 # 49). lra.
Qed.

(** GlowEyes' formula yields the contrasts 27..152. *)
Lemma glow_contrast_range (pct : Q) :
  (0 <= pct <= 1)%Q -> 27 <= glow_contrast pct <= 152.
Proof.
  intros [H0 H1]. unfold glow_contrast.
  destruct (Qlt_bool pct (1 # 2)) eqn:E.
  - apply Qlt_bool_true in E.
    split.
    + transitivity 30; [lia|]. apply int_at_least; [lia|].
      change (inject_Z 30) with (30 # 1). unfold Qdiv.
      change (/ (49 # 100))%Q with (100 # 49). lra.
    + apply int_between; [| |lia].
      * change (inject_Z (-1)) with (-1 # 1). unfold Qdiv.
        change (/ (49 # 100))%Q with (100 # 49). lra.
      * change (inject_Z (152 + 1)) with (153 # 1). unfold Qdiv.
        change (/ (49 # 100))%Q with (100 # 49). lra.
  - apply Qlt_bool_false in E.
    split.
    + apply int_at_least; [lia|].
      change (inject_Z 27) with (27 # 1). unfold Qdiv.
      change (/ (49 # 100))%Q with (100 # 49). lra.
    + transitivity 150; [|lia]. apply int_between; [| |lia].
      * change (inject_Z (-1)) with (-1 # 1). unfold Qdiv.
        change (/ (49 # 100))%Q with (100 # 49). lra.
      * change (inject_Z (150 + 1)) with (151 # 1). unfold Qdiv.
        change (/ (49 # 100))%Q with (100 # 49). lra.
Qed.

(** ** GlowEyes *)

(** C8 (code).  The contrast handed to the device leaves 30..150: with
    the divisor 0.49 it reaches 151 at 49.5% of the duration and 27 at
    100%, before it is set back to 30.  Every GlowEyes that runs to its
    end sends 27.  Over the whole of [0,1] the values are within
    27..152. *)
Theorem GlowEyes_contrast_leaves_30_150 :
  let w := initial_world (fun _ => 0) in
  glow_contrast (99 # 200) = 151
  /\ glow_contrast 1 = 27
  /\ (exists a w', tick 148500 (begin 0 (GlowEyes_init 300)) w = Ok (a, w')
                   /\ contrast w' = [151; 30])
  /\ (exists a w', tick 300000 (begin 0 (GlowEyes_init 300)) w = Ok (a, w')
                   /\ contrast w' = [30; 27; 30] /\ done a = false)
  /\ (forall now duration_ms (w0 : World),
        0 <= duration_ms -> duration_ms * 1000 < now ->
        exists w',
          tick now (begin 0 (GlowEyes_init duration_ms)) w0
            = Ok (GlowEyes (LinearAnimation.mk (Some 0) true duration_ms), w')
          /\ contrast w' = 30 :: 27 :: contrast w0)
  /\ (forall pct, (0 <= pct <= 1)%Q -> 27 <= glow_contrast pct <= 152).
Proof.
  split; [reflexivity|]. split; [reflexivity|].
  split; [eexists _, _; split; vm_compute; reflexivity|].
  split; [eexists _, _; repeat split; vm_compute; reflexivity|].
  split; [|apply glow_contrast_range].
  intros now ms w0 Hms Hlate. eexists.
  cbn [tick begin GlowEyes_init]. unfold LinearAnimation_tick.
  cbn [LinearAnimation.start LinearAnimation.set_start LinearAnimation.init].
  assert (H0 : Qle_bool (elapsed_ms now 0) 0 = false).
  { unfold elapsed_ms, Qle_bool. simpl. apply Z.leb_gt. lia. }
  assert (H1 : Qle_bool (elapsed_ms now 0) (inject_Z ms) = false).
  { unfold elapsed_ms, Qle_bool. simpl. apply Z.leb_gt. lia. }
  rewrite H0.
  change (LinearAnimation.duration_ms
            (LinearAnimation.set_start 0 (LinearAnimation.init ms))) with ms.
  rewrite H1.
  split; reflexivity.
Qed.

Lemma GlowEyes_contrast_leaves_30_150_witness :
  exists w',
    tick 400000 (begin 0 (GlowEyes_init 300)) (initial_world (fun _ => 0))
      = Ok (GlowEyes (LinearAnimation.mk (Some 0) true 300), w')
    /\ contrast w' = [30; 27; 30].
Proof.
  exact (proj1 (proj2 (proj2 (proj2 (proj2 GlowEyes_contrast_leaves_30_150))))
           400000 300 (initial_world (fun _ => 0)) ltac:(lia) ltac:(lia)).
Defined.

(** ** Eyelids *)

(** C9. The eyelid offset of an eye is only written by [_eyelids],
    which clamps to [-1, 3]: it is within that range in the initial
    world, after every [_eyelids], after every [tick] of every
    animation and all along the animation loop (which never raises),
    although Blink's formula yields offsets from 0 up to 4 (the 4 is
    stored as 3). *)
Theorem eyelids_within_range (self : EyeRef) (offset : Z) (w : World) :
  _eyelids self offset w = Ok (tt, with_eyelids self (Z.max (-1) (Z.min offset 3)) w)
  /\ -1 <= eyelids (eye_of self (with_eyelids self (Z.max (-1) (Z.min offset 3)) w)) <= 3
  /\ (forall source, eyelids_ok (initial_world source))
  /\ (forall now a a' w', eyelids_ok w -> tick now a w = Ok (a', w') -> eyelids_ok w')
  /\ (forall source clock, exists main frames w',
        animation_loop source clock = Ok ((main, frames), w')
        /\ length frames = length clock
        /\ eyelids_ok w')
  /\ (forall pct, (0 <= pct <= 1)%Q -> 0 <= int (blink_offset pct) <= 4)
  /\ (int (blink_offset (45 # 100)) = 4
      /\ forall b e, LinearAnimation.done b = false ->
           Blink_animate b e (45 # 100) w = Ok (tt, with_eyelids e 3 w)).
Proof.
  split; [reflexivity|].
  split; [unfold with_eyelids; rewrite eye_of_with_eye; simpl; lia|].
  split; [intros source; unfold eyelids_ok; simpl; lia|].
  split; [intros now a a' w' Hok Ht; now apply (tick_keeps_eyelids _ _ _ _ _ Ht)|].
  split.
  { intros source clock.
    destruct (run_loop_Ok clock _ _ (loop_ok_initial source))
      as (main & frames & w' & H & Hlen & _).
    exists main, frames, w'. split; [exact H|]. split; [exact Hlen|].
    apply (run_loop_keeps_eyelids _ _ _ _ _ H). unfold eyelids_ok. simpl. lia. }
  split; [apply blink_offset_range|].
  split; [reflexivity|].
  intros b e Hb. unfold Blink_animate. rewrite Hb. reflexivity.
Qed.

Lemma eyelids_within_range_witness :
  eyelids_ok (with_eyelids LeftEye 3 (initial_world (fun _ => 0))).
Proof.
  refine (proj1 (proj2 (proj2 (proj2
            (eyelids_within_range LeftEye 0 (initial_world (fun _ => 0)))))) 225000
            (begin 0 (blink LeftEye None))
            (Blink (LinearAnimation.mk (Some 0) false 500) LeftEye 0) _ _ eq_refl).
  unfold eyelids_ok. simpl. lia.
Defined.

(** ** Rendering *)

(** C6. [image] returns the silhouette with the 2x2 pupil block cleared
    (columns [x-1], [x], rows [y-1], [y], each wrapped modulo 8) and,
    when the eyelid offset is not negative, the rows [0..eyelids] and
    [7-eyelids..7] cleared.  The buffer is set to the silhouette first:
    whatever it held before, the image and the buffer afterwards are
    the same. *)
Theorem image_is_eye_bitmap (self : EyeRef) (w : World) (p : Point.t) (stale : list Z) :
  points w !! pupil (eye_of self w) = Some p ->
  let lids := eyelids (eye_of self w) in
  image self (with_pixels self stale w)
    = Ok (eye_bitmap p lids, with_pixels self (eye_bitmap p lids) w)
  /\ image self w = Ok (eye_bitmap p lids, with_pixels self (eye_bitmap p lids) w)
  /\ length (eye_bitmap p lids) = 8%nat
  /\ (forall r c, 0 <= r < 8 -> 0 <= c < 8 ->
        Z.testbit (default 0 (eye_bitmap p lids !! Z.to_nat r)) (7 - c)
        = silhouette r c && negb (in_pupil p r c) && negb (under_eyelids lids r)).
Proof.
  intros Hp lids.
  assert (H : forall w1, points w1 !! pupil (eye_of self w1) = Some p ->
                eyelids (eye_of self w1) = lids ->
                image self w1 = Ok (eye_bitmap p lids, with_pixels self (eye_bitmap p lids) w1)).
  { intros w1 Hp1 Hl1. rewrite (image_draw self w1 p Hp1), Hl1.
    now rewrite draw_eye_bitmap. }
  split.
  - rewrite H.
    + now rewrite with_pixels_with_pixels.
    + now rewrite points_with_pixels, pupil_with_pixels.
    + apply eyelids_with_pixels.
  - split; [now apply H|]. split; [reflexivity|].
    intros r c Hr Hc. now apply eye_bitmap_testbit.
Qed.

Lemma image_is_eye_bitmap_witness :
  image LeftEye (with_pixels LeftEye [1; 2; 3] (initial_world (fun _ => 0)))
    = Ok ([0x3c; 0x7e; 0xff; 0xe7; 0xe7; 0xff; 0x7e; 0x3c],
          with_pixels LeftEye [0x3c; 0x7e; 0xff; 0xe7; 0xe7; 0xff; 0x7e; 0x3c]
            (initial_world (fun _ => 0))).
Proof.
  exact (proj1 (image_is_eye_bitmap LeftEye (initial_world (fun _ => 0))
                  (Point.mk 4 4) [1; 2; 3] eq_refl)).
Defined.

(** * Further properties *)

(** ** LinearAnimation.tick, case by case *)

Lemma bind_Raise {A B} (m : M A) (f : A -> M B) (w : World) (e : exn) :
  m w = Raise e -> (m ≫= f) w = Raise e.
Proof. intros H. unfold mbind, M_bind. now rewrite H. Qed.

Lemma elapsed_le_0 (now t0 : Z) :
  Qle_bool (elapsed_ms now t0) 0 = true <-> now <= t0.
Proof.
  unfold elapsed_ms, Qle_bool. simpl. rewrite Z.leb_le. lia.
Qed.

Lemma elapsed_le_duration (now t0 ms : Z) :
  Qle_bool (elapsed_ms now t0) (inject_Z ms) = true <-> now <= t0 + ms * 1000.
Proof.
  unfold elapsed_ms, Qle_bool. simpl. rewrite Z.leb_le. lia.
Qed.

(** The fraction of the duration that has elapsed, while the animation
    runs: more than nothing, at most all of it; the duration is not 0
    there. *)
Lemma elapsed_fraction (now t0 ms : Z) :
  t0 < now -> now <= t0 + ms * 1000 ->
  (0 < elapsed_ms now t0 / inject_Z ms)%Q /\ (elapsed_ms now t0 / inject_Z ms <= 1)%Q.
Proof.
  intros H0 H1.
  assert (Hms : (0 < inject_Z ms)%Q).
  { change 0%Q with (inject_Z 0). rewrite <- Zlt_Qlt. lia. }
  assert (Hdt : (0 < elapsed_ms now t0)%Q).
  { unfold elapsed_ms, Qlt. simpl. lia. }
  split.
  - apply Qlt_shift_div_l; [exact Hms|]. now rewrite Qmult_0_l.
  - apply Qle_shift_div_r; [exact Hms|]. rewrite Qmult_1_l.
    unfold elapsed_ms, Qle. simpl. lia.
Qed.

(** The three ways a [tick] of a linear animation can return. *)
Lemma LinearAnimation_tick_cases (_animate : Q -> M unit) (now : Z)
    (b b' : LinearAnimation.t) (w w' : World) :
  LinearAnimation_tick _animate now b w = Ok (b', w') ->
  exists t0,
    LinearAnimation.start b = Some t0
    /\ ((now <= t0 /\ b' = b /\ w' = w)
        \/ (t0 < now /\ now <= t0 + LinearAnimation.duration_ms b * 1000 /\ b' = b
            /\ _animate (elapsed_ms now t0 / inject_Z (LinearAnimation.duration_ms b))%Q w
               = Ok (tt, w'))
        \/ (t0 < now /\ t0 + LinearAnimation.duration_ms b * 1000 < now
            /\ b' = LinearAnimation.set_done true b
            /\ _animate 1%Q w = Ok (tt, w'))).
Proof.
  unfold LinearAnimation_tick.
  destruct (LinearAnimation.start b) as [t0|] eqn:E; [|discriminate].
  intros H. exists t0. split; [reflexivity|].
  destruct (Qle_bool (elapsed_ms now t0) 0) eqn:E0.
  - apply elapsed_le_0 in E0. injection H as <- <-. now left.
  - assert (t0 < now).
    { destruct (decide (now <= t0)) as [Hle|]; [|lia].
      apply elapsed_le_0 in Hle. congruence. }
    simpl in H.
    destruct (Qle_bool (elapsed_ms now t0)
                (inject_Z (LinearAnimation.duration_ms b))) eqn:E1.
    + apply elapsed_le_duration in E1.
      apply bind_Ok_inv in H as ([] & w1 & Ha & [= <- <-]).
      right; left. auto.
    + assert (t0 + LinearAnimation.duration_ms b * 1000 < now).
      { destruct (decide (now <= t0 + LinearAnimation.duration_ms b * 1000)) as [Hle|];
          [|lia].
        apply elapsed_le_duration in Hle. congruence. }
      apply bind_Ok_inv in H as ([] & w1 & Ha & [= <- <-]).
      right; right. auto.
Qed.



(** X2. [LinearAnimation.tick] calls [_animate] only with a fraction in
    the interval (0, 1]: two [_animate] methods that agree on that
    interval give the same [tick], whatever they do outside of it.
    And it never divides by zero: where it divides by the duration, the
    duration is positive. *)
Theorem LinearAnimation_tick_fraction_in_0_1 (f g : Q -> M unit) (now : Z)
    (b : LinearAnimation.t) (w : World) :
  (forall pct, (0 < pct)%Q -> (pct <= 1)%Q -> f pct w = g pct w) ->
  LinearAnimation_tick f now b w = LinearAnimation_tick g now b w
  /\ (forall t0,
        LinearAnimation.start b = Some t0 ->
        Qle_bool (elapsed_ms now t0) 0 = false ->
        Qle_bool (elapsed_ms now t0) (inject_Z (LinearAnimation.duration_ms b)) = true ->
        0 < LinearAnimation.duration_ms b).
Proof.
  intros Hfg.
  assert (Hlate : forall t0, Qle_bool (elapsed_ms now t0) 0 = false -> t0 < now).
  { intros t0 E0. destruct (decide (now <= t0)) as [Hle|]; [|lia].
    apply elapsed_le_0 in Hle. congruence. }
  split.
  - unfold LinearAnimation_tick.
    destruct (LinearAnimation.start b) as [t0|]; [|reflexivity].
    destruct (Qle_bool (elapsed_ms now t0) 0) eqn:E0; [reflexivity|].
    apply Hlate in E0.
    destruct (Qle_bool (elapsed_ms now t0)
                (inject_Z (LinearAnimation.duration_ms b))) eqn:E1.
    + apply elapsed_le_duration in E1.
      destruct (elapsed_fraction now t0 (LinearAnimation.duration_ms b)) as [Hp0 Hp1];
        [lia..|].
      unfold mbind, M_bind. now rewrite (Hfg _ Hp0 Hp1).
    + unfold mbind, M_bind. rewrite (Hfg 1%Q); [reflexivity|reflexivity|].
      apply Qle_refl.
  - intros t0 _ E0 E1. apply Hlate in E0. apply elapsed_le_duration in E1. lia.
Qed.

Lemma LinearAnimation_tick_fraction_in_0_1_witness :
  LinearAnimation_tick
      (fun pct => if Qle_bool pct 0 then raise ZeroDivisionError else Wait_animate pct)
      150000 (LinearAnimation.mk (Some 0) false 300) (initial_world (fun _ => 0))
  = LinearAnimation_tick Wait_animate
      150000 (LinearAnimation.mk (Some 0) false 300) (initial_world (fun _ => 0)).
Proof.
  refine (proj1 (LinearAnimation_tick_fraction_in_0_1 _ _ _ _ _ _)).
  intros pct H0 H1. destruct (Qle_bool pct 0) eqn:E; [|reflexivity].
  apply Qle_bool_iff in E. lra.
Defined.

(** ** Ticking what was not begun *)

Lemma LinearAnimation_tick_TypeError (_animate : Q -> M unit) (now : Z)
    (b : LinearAnimation.t) (w : World) :
  bool_decide (is_Some (LinearAnimation.start b)) = false ->
  LinearAnimation_tick _animate now b w = Raise TypeError.
Proof.
  intros H. apply bool_decide_eq_false in H. unfold LinearAnimation_tick.
  destruct (LinearAnimation.start b); [|reflexivity].
  exfalso. apply H. eauto.
Qed.

Lemma tick_TypeError (now : Z) (a : Animation) (w : World) :
  sequence_free a = true -> anchored (length (points w)) a = true ->
  ready a = false -> tick now a w = Raise TypeError.
Proof.
  unfold ready. revert w.
  induction a as [b e o d dx dy|b e l|b|b|s d l IH|s d l act IHl IHact]
    using Animation_tree_ind; cbn [prepared anchored sequence_free];
    intros w Hf Ha Hr; try discriminate;
    try (cbn [tick]; apply bind_Raise; now apply LinearAnimation_tick_TypeError).
  rewrite tick_Group. apply bind_Raise. clear s d. revert w Hf Ha Hr.
  induction IH as [|a r IHa _ IHr]; intros w Hf Ha Hr; [discriminate|].
  simpl in Hf, Ha, Hr.
  apply andb_prop in Hf as [Hfa Hfr]. apply andb_prop in Ha as [Haa Har].
  cbn [tick_all]. destruct (prepared true a) eqn:Hra.
  - destruct (tick_Ok now a w Hra Haa) as (a' & w1 & Ha').
    erewrite bind_Ok by exact Ha'. apply bind_Raise. apply IHr; [exact Hfr| |exact Hr].
    change (anchored (length (points w1)) (AnimationGroup None false r) = true).
    eapply anchored_mono; [|exact Har].
    apply tick_keeps_points in Ha'. now apply prefix_length.
  - apply bind_Raise. now apply IHa.
Qed.

(** X3. An animation without sequences in it, whose Looks start from
    points that exist, can be ticked exactly when it was begun: the
    [tick] returns if every linear animation in it has a start time,
    and raises [TypeError] (from [now - None]) if one has not. *)
Theorem tick_returns_iff_begun (now : Z) (a : Animation) (w : World) :
  sequence_free a = true -> anchored (length (points w)) a = true ->
  (ready a = true /\ exists a' w', tick now a w = Ok (a', w'))
  \/ (ready a = false /\ tick now a w = Raise TypeError).
Proof.
  intros Hf Ha. destruct (ready a) eqn:Hr.
  - left. split; [reflexivity|]. now apply tick_Ok.
  - right. split; [reflexivity|]. now apply tick_TypeError.
Qed.

Lemma tick_returns_iff_begun_witness :
  let a := AnimationGroup (Some 0) false
             [begin 0 (blink LeftEye None); Wait_init LeftEye None] in
  let w := initial_world (fun _ => 0) in
  (ready a = true /\ exists a' w', tick 100000 a w = Ok (a', w'))
  \/ (ready a = false /\ tick 100000 a w = Raise TypeError).
Proof.
  intros a w. apply (tick_returns_iff_begun 100000 a w); reflexivity.
Defined.

(** ** Animations that are done *)

Lemma ticks_done_monotone (clock : list Z) (a a' : Animation) (w w' : World) :
  settled a = true -> ticks clock a w = Ok (a', w') ->
  (done a = true -> done a' = true) /\ settled a' = true.
Proof.
  revert a w. induction clock as [|t clock IH]; intros a w Hs H.
  - injection H as <- <-. auto.
  - cbn [ticks] in H. apply bind_Ok_inv in H as (a1 & w1 & H1 & H).
    destruct (tick_done_monotone _ _ _ _ _ Hs H1) as [Hd1 Hs1].
    destruct (IH _ _ Hs1 H) as [Hd Hs']. auto.
Qed.

Lemma ticks_done_fixed (clock : list Z) (a : Animation) (w : World) :
  settled a = true -> ready a = true -> done a = true ->
  ticks clock a w = Ok (a, w).
Proof.
  intros Hs Hr Hd. induction clock as [|t clock IH]; [reflexivity|].
  cbn [ticks]. erewrite bind_Ok by now apply tick_done_fixed. exact IH.
Qed.

(** X4. [done] is never taken back: along any number of ticks, an
    animation that is done and settled (the [done] flags of its groups
    and sequences are the ones their children justify) stays done, and
    stays settled. *)
Theorem done_is_never_reset (clock : list Z) (a a' : Animation) (w w' : World) :
  settled a = true -> done a = true -> ticks clock a w = Ok (a', w') ->
  done a' = true /\ settled a' = true.
Proof.
  intros Hs Hd H. destruct (ticks_done_monotone _ _ _ _ _ Hs H). auto.
Qed.

Lemma done_is_never_reset_witness :
  done (AnimationSequence None true [] None) = true
  /\ settled (AnimationSequence None true [] None) = true.
Proof.
  apply (done_is_never_reset [0; 100000] (AnimationSequence None true [] None) _
           (initial_world (fun _ => 0)) (initial_world (fun _ => 0)));
    reflexivity.
Defined.

(** X5. [begin] does not reset [done]: an animation that has finished
    cannot be replayed by beginning it again.  A settled animation
    that is done and can be begun is, begun anew at any time, still
    done, and ticking it changes neither the animation nor the eyes or
    the device, at any clock readings. *)
Theorem finished_animation_cannot_be_replayed (t : Z) (clock : list Z)
    (a : Animation) (w : World) :
  settled a = true -> startable a = true -> done a = true ->
  done (begin t a) = true
  /\ ticks clock (begin t a) w = Ok (begin t a, w).
Proof.
  intros Hs Hst Hd. split; [now rewrite done_begin|].
  apply ticks_done_fixed.
  - now rewrite settled_begin.
  - now apply ready_begin.
  - now rewrite done_begin.
Qed.

Lemma finished_animation_cannot_be_replayed_witness :
  let a := Blink (LinearAnimation.mk (Some 0) true 500) LeftEye 0 in
  done (begin 1000000 a) = true
  /\ ticks [1100000; 1200000] (begin 1000000 a) (initial_world (fun _ => 0))
     = Ok (begin 1000000 a, initial_world (fun _ => 0)).
Proof.
  intros a.
  apply (finished_animation_cannot_be_replayed 1000000 [1100000; 1200000] a);
    reflexivity.
Defined.

(** ** The pupils stay on the matrix *)

#[global] Instance keeps_pupils_PreOrder : PreOrder keeps_pupils.
Proof. split; unfold keeps_pupils; [intros w|intros w1 w2 w3]; auto. Qed.

Lemma pupil_ok_same (e : EyeRef) (w w' : World) :
  points w' = points w -> pupil (eye_of e w') = pupil (eye_of e w) ->
  pupil_ok e w -> pupil_ok e w'.
Proof. unfold pupil_ok. now intros -> ->. Qed.

Lemma pupil_ok_new (e : EyeRef) (p : Point.t) (w : World) :
  pupil_ok e w -> pupil_ok e (set_points (points w ++ [p]) w).
Proof.
  intros (q & Hq & Hx). exists q. split; [|exact Hx].
  rewrite eye_of_set_points. cbn [points set_points].
  now apply lookup_app_l_Some.
Qed.

Lemma wrap_on_matrix (p : Point.t) :
  0 <= Point.x (wrap p) < 8 /\ 0 <= Point.y (wrap p) < 8.
Proof. unfold wrap. simpl. split; apply Z.mod_pos_bound; lia. Qed.

Lemma pupil_ok_looked (e self : EyeRef) (p : Point.t) (w : World) :
  pupil_ok e w ->
  pupil_ok e (looked self (length (points w)) p (set_points (points w ++ [p]) w)).
Proof.
  intros (q & Hq & Hx). unfold pupil_ok. rewrite points_looked_new.
  assert (Hd : e = self \/ e <> self) by (destruct e, self; auto; right; discriminate).
  destruct Hd as [->|Hne].
  - exists (wrap p). split; [|apply wrap_on_matrix].
    unfold looked. rewrite eye_of_set_points. unfold with_pupil.
    rewrite eye_of_with_eye. cbn [pupil].
    now rewrite lookup_app_r, Nat.sub_diag by lia.
  - exists q. split; [|exact Hx].
    assert (Hp : pupil (eye_of e (looked self (length (points w)) p
                                    (set_points (points w ++ [p]) w)))
                 = pupil (eye_of e w)).
    { destruct e, self; try congruence; reflexivity. }
    rewrite Hp. now apply lookup_app_l_Some.
Qed.

Ltac pupils_step :=
  unfold keeps_pupils, pupils_ok; intros;
  match goal with H : _ /\ _ |- _ => destruct H end;
  split;
  first [ apply pupil_ok_looked; assumption
        | apply pupil_ok_new; assumption
        | eapply pupil_ok_same; [| |eassumption];
          repeat match goal with s : EyeRef |- _ => destruct s end; reflexivity ].

Lemma tick_keeps_pupils now a : respects keeps_pupils (tick now a).
Proof. apply respects_tick; try apply _; pupils_step. Qed.

Lemma next_round_keeps_pupils : respects keeps_pupils next_round.
Proof. apply respects_next_round; try apply _; pupils_step. Qed.

Lemma run_loop_keeps_pupils clock main : respects keeps_pupils (run_loop clock main).
Proof. apply respects_run_loop; try apply _; pupils_step. Qed.

Lemma pupils_ok_initial (source : nat -> Z) : pupils_ok (initial_world source).
Proof. split; eexists; (split; [reflexivity|simpl; lia]). Qed.

(** X6. The pupil of each eye is always a point on the 8x8 matrix:
    both pupils are when the loop is entered, every [tick] of every
    animation keeps them there (a Look to a point off the matrix, as
    CrazySpin makes them, wraps around), and so they are after any
    number of iterations of the animation loop. *)
Theorem pupils_stay_on_the_matrix :
  (forall source, pupils_ok (initial_world source))
  /\ (forall now a w a' w',
        pupils_ok w -> tick now a w = Ok (a', w') -> pupils_ok w')
  /\ (forall source clock, exists main frames w',
        animation_loop source clock = Ok ((main, frames), w')
        /\ pupils_ok w').
Proof.
  split; [exact pupils_ok_initial|]. split.
  - intros now a w a' w' Hw H. exact (tick_keeps_pupils now a w a' w' H Hw).
  - intros source clock.
    destruct (run_loop_Ok clock initial_sequence (initial_world source)
                (loop_ok_initial source)) as (main & frames & w' & H & _ & _).
    exists main, frames, w'. split; [exact H|].
    exact (run_loop_keeps_pupils _ _ _ _ _ H (pupils_ok_initial source)).
Qed.

(** ** The frames of the animation loop *)

Lemma next_round_keeps_eyelids : respects keeps_eyelids next_round.
Proof. apply respects_next_round; try apply _; eyelids_step. Qed.

Lemma eyelids_ok_eye (e : EyeRef) (w : World) :
  eyelids_ok w -> -1 <= eyelids (eye_of e w) <= 3.
Proof. intros [Hl Hr]. now destruct e. Qed.

(** The picture of an eye that is in order. *)
Lemma image_shows (self : EyeRef) (w w' : World) (img : list Z) :
  pupil_ok self w -> -1 <= eyelids (eye_of self w) <= 3 ->
  image self w = Ok (img, w') ->
  shows img /\ w' = with_pixels self img w.
Proof.
  intros (p & Hp & Hx & Hy) Hl H.
  rewrite (image_draw self w p Hp), draw_eye_bitmap in H. injection H as <- <-.
  split; [|reflexivity]. exists p, (eyelids (eye_of self w)). auto.
Qed.

Lemma render_shows (w w' : World) (frame : list Z * list Z) :
  pupils_ok w -> eyelids_ok w ->
  render LeftEye RightEye w = Ok (frame, w') ->
  shows (fst frame) /\ shows (snd frame).
Proof.
  intros [Hpl Hpr] He H. unfold render in H.
  apply bind_Ok_inv in H as (l & w1 & Hl & H).
  apply bind_Ok_inv in H as (r & w2 & Hr & [= <- <-]).
  apply image_shows in Hl as [Hsl ->]; [|exact Hpl|now apply eyelids_ok_eye].
  apply image_shows in Hr as [Hsr _]; [auto| |].
  - eapply pupil_ok_same; [| |exact Hpr]; reflexivity.
  - exact (eyelids_ok_eye RightEye w He).
Qed.

Lemma loop_body_shows (main main' : Animation) (t : Z) (w w' : World)
    (frame : list Z * list Z) :
  pupils_ok w -> eyelids_ok w ->
  loop_body main t w = Ok ((main', frame), w') ->
  shows (fst frame) /\ shows (snd frame).
Proof.
  intros Hp He H. unfold loop_body in H.
  apply bind_Ok_inv in H as (q & w1 & Hq & H).
  apply bind_Ok_inv in H as (q' & w2 & Ht & H).
  apply bind_Ok_inv in H as (f & w3 & Hf & [= _ <- _]).
  assert (pupils_ok w1 /\ eyelids_ok w1) as [Hp1 He1].
  { destruct (done main).
    - split; [exact (next_round_keeps_pupils _ _ _ Hq Hp)
             |exact (next_round_keeps_eyelids _ _ _ Hq He)].
    - injection Hq as _ <-. auto. }
  apply (render_shows w2 w3); [|
    |exact Hf].
  - exact (tick_keeps_pupils _ _ _ _ _ Ht Hp1).
  - exact (tick_keeps_eyelids _ _ _ _ _ Ht He1).
Qed.

Lemma loop_body_keeps_pupils main t : respects keeps_pupils (loop_body main t).
Proof. apply respects_loop_body; try apply _; pupils_step. Qed.

Lemma loop_body_keeps_eyelids main t : respects keeps_eyelids (loop_body main t).
Proof. apply respects_loop_body; try apply _; eyelids_step. Qed.

Lemma run_loop_shows (clock : list Z) (main main' : Animation) (w w' : World)
    (frames : list (list Z * list Z)) :
  pupils_ok w -> eyelids_ok w ->
  run_loop clock main w = Ok ((main', frames), w') ->
  Forall (fun frame => shows (fst frame) /\ shows (snd frame)) frames.
Proof.
  revert main w frames. induction clock as [|t clock IH]; intros main w frames Hp He H.
  - injection H as _ <- _. constructor.
  - cbn [run_loop] in H.
    apply bind_Ok_inv in H as ([m1 f] & w1 & H1 & H). cbv beta iota in H.
    apply bind_Ok_inv in H as ([m2 fs] & w2 & H2 & H). cbv beta iota in H.
    injection H as <- <- <-. constructor.
    + exact (loop_body_shows _ _ _ _ _ _ Hp He H1).
    + apply (IH m1 w1 fs); [| |exact H2].
      * exact (loop_body_keeps_pupils _ _ _ _ _ H1 Hp).
      * exact (loop_body_keeps_eyelids _ _ _ _ _ H1 He).
Qed.

Lemma eye_bitmap_rows_ok (p : Point.t) (lids : Z) : rows_ok (eye_bitmap p lids).
Proof.
  rewrite <- draw_eye_bitmap. unfold draw.
  assert (rows_ok
            (clear_pixel (Point.x p) (Point.y p)
               (clear_pixel (Point.x p - 1) (Point.y p)
                  (clear_pixel (Point.x p) (Point.y p - 1)
                     (clear_pixel (Point.x p - 1) (Point.y p - 1) eye_ball))))).
  { repeat apply rows_ok_clear_pixel. exact rows_ok_eye_ball. }
  destruct (decide (0 <= lids)); [now apply rows_ok_close_rows|assumption].
Qed.

Lemma shows_well_formed (img : list Z) :
  shows img -> rows_ok img /\ within_silhouette img.
Proof.
  intros (p & lids & -> & _). split; [apply eye_bitmap_rows_ok|].
  intros r c Hr Hc. rewrite eye_bitmap_testbit by assumption.
  unfold lit. intros H. apply andb_prop in H as [H _].
  now apply andb_prop in H as [H _].
Qed.

(** X7. The animation loop hands one frame to the device per iteration,
    and each frame is, for both eyes, the picture of an eye with its
    pupil on the matrix and its eyelids between open (-1) and closed
    (3): 8 rows of one byte each, with no pixel lit outside of the
    eyeball. *)
Theorem animation_loop_frames (source : nat -> Z) (clock : list Z) :
  exists main frames w',
    animation_loop source clock = Ok ((main, frames), w')
    /\ length frames = length clock
    /\ Forall (fun frame => shows (fst frame) /\ shows (snd frame)) frames
    /\ Forall (fun frame =>
                 (rows_ok (fst frame) /\ within_silhouette (fst frame))
                 /\ (rows_ok (snd frame) /\ within_silhouette (snd frame))) frames.
Proof.
  destruct (run_loop_Ok clock initial_sequence (initial_world source)
              (loop_ok_initial source)) as (main & frames & w' & H & Hlen & _).
  exists main, frames, w'. split; [exact H|]. split; [exact Hlen|].
  assert (Hs : Forall (fun frame => shows (fst frame) /\ shows (snd frame)) frames).
  { apply (run_loop_shows clock initial_sequence main (initial_world source) w');
      [apply pupils_ok_initial| |exact H].
    split; simpl; lia. }
  split; [exact Hs|].
  eapply Forall_impl; [exact Hs|].
  intros f [Hl Hr]. split; now apply shows_well_formed.
Qed.

(** ** What a tick does to the world *)

Lemma with_eyelids_with_eyelids (e : EyeRef) (v1 v2 : Z) (w : World) :
  with_eyelids e v2 (with_eyelids e v1 w) = with_eyelids e v2 w.
Proof. destruct e; reflexivity. Qed.

Lemma Look_animate_inv (b : LinearAnimation.t) (e : EyeRef) (o : ref) (dx dy : Z)
    (pct : Q) (w w' : World) :
  Look_animate b e o dx dy pct w = Ok (tt, w') ->
  w' = w
  \/ exists p, w' = looked e (length (points w)) p (set_points (points w ++ [p]) w).
Proof.
  unfold Look_animate. destruct (LinearAnimation.done b); [intros [= <-]; now left|].
  intros H. right.
  apply bind_Ok_inv in H as (p1 & w1 & H1 & H).
  apply bind_Ok_inv in H as (p2 & w2 & H2 & H).
  apply bind_Ok_inv in H as (c & w3 & H3 & H).
  unfold deref in H1. destruct (points w !! o) as [p|] eqn:E; [|discriminate].
  injection H1 as <- <-.
  unfold deref in H2. rewrite E in H2. injection H2 as <- <-.
  injection H3 as <- <-.
  erewrite _look_Ok in H;
    [|cbn [points set_points]; now rewrite lookup_app_r, Nat.sub_diag by lia].
  injection H as <-. eauto.
Qed.

Lemma LinearAnimation_tick_world (_animate : Q -> M unit) (now : Z)
    (b b' : LinearAnimation.t) (w w' : World) :
  LinearAnimation_tick _animate now b w = Ok (b', w') ->
  w' = w
  \/ exists pct, (0 < pct)%Q /\ (pct <= 1)%Q /\ _animate pct w = Ok (tt, w').
Proof.
  intros H. apply LinearAnimation_tick_cases in H as (t0 & _ & H).
  destruct H as [(_ & _ & ->)|[(H0 & H1 & _ & H)|(_ & _ & _ & H)]].
  - now left.
  - right. destruct (elapsed_fraction now t0 _ H0 H1). eauto.
  - right. exists 1%Q. split; [reflexivity|]. split; [apply Qle_refl|exact H].
Qed.

(** The world after the [tick] of a linear animation. *)
Lemma tick_linear_world (now : Z) (a a' : Animation) (w w' : World) :
  is_linear a = true -> tick now a w = Ok (a', w') ->
  w' = w
  \/ match a with
     | Look _ e _ _ _ _ =>
         exists p, w' = looked e (length (points w)) p (set_points (points w ++ [p]) w)
     | Blink _ e _ => exists v, -1 <= v <= 3 /\ w' = with_eyelids e v w
     | GlowEyes _ =>
         exists pct, (0 < pct)%Q /\ (pct <= 1)%Q
           /\ (w' = with_contrast (glow_contrast pct) w
               \/ w' = with_contrast 30 (with_contrast (glow_contrast pct) w))
     | _ => False
     end.
Proof.
  intros Hl H.
  destruct a as [b e o d dx dy|b e l|b|b| |]; try discriminate; cbn [tick] in H;
    apply bind_Ok_inv in H as (b' & w1 & Hb & [= _ <-]);
    apply LinearAnimation_tick_world in Hb as [->|(pct & Hp0 & Hp1 & Hb)];
    try (now left).
  - apply Look_animate_inv in Hb. exact Hb.
  - unfold Blink_animate in Hb.
    destruct (LinearAnimation.done b); [injection Hb as <-; now left|].
    right. unfold _eyelids, set_eyelids, mbind, M_bind in Hb.
    destruct (Qle_bool 1 pct); injection Hb as <-.
    + rewrite with_eyelids_with_eyelids. exists (Z.max (-1) (Z.min (-1) 3)).
      split; [lia|reflexivity].
    + eexists. split; [|reflexivity]. lia.
  - unfold GlowEyes_animate in Hb.
    destruct (LinearAnimation.done b); [injection Hb as <-; now left|].
    right. exists pct. split; [exact Hp0|]. split; [exact Hp1|].
    unfold device_contrast, mbind, M_bind in Hb.
    destruct (Qle_bool 1 pct); injection Hb as <-; auto.
  - injection Hb as <-. now left.
Qed.

(** A property of the world that the [tick] of every linear animation
    with [P] respects is respected by the [tick] of every tree with
    [P], when [P] goes from a group to its children and from a sequence
    to its active child. *)
Section Tick_where.
Variable R : relation World.
Context `{!PreOrder R}.
Variable P : Animation -> Prop.
Hypothesis P_children : forall s d l, P (AnimationGroup s d l) -> Forall P l.
Hypothesis P_active : forall s d l a, P (AnimationSequence s d l (Some a)) -> P a.
Hypothesis R_linear : forall now a,
  is_linear a = true -> P a -> respects R (tick now a).

Lemma respects_tick_where now a : P a -> respects R (tick now a).
Proof.
  pose proof (fun A => @respects_ret R _ A) as Hret.
  pose proof (fun A B => @respects_bind R _ A B) as Hbind.
  induction a as [b e o d dx dy|b e l|b|b|s d l IH|s d l act IHl IHact]
    using Animation_tree_ind; intros HP; try (now apply R_linear).
  - rewrite tick_Group. apply Hbind; [|intros ?; apply Hret].
    apply P_children in HP. clear s d.
    induction IH as [|a r Ha _ IHr]; simpl; [apply Hret|].
    apply Forall_cons in HP as [HPa HPr].
    apply Hbind; [now apply Ha|intros ?].
    apply Hbind; [now apply IHr|intros ?; apply Hret].
  - rewrite tick_Sequence. destruct act as [a|]; [|apply Hret].
    destruct (done a); [apply Hret|].
    apply Hbind; [|intros ?; apply Hret].
    apply IHact. eapply P_active, HP.
Qed.
End Tick_where.

(** The loop respects what its three parts respect. *)
Lemma respects_run_loop_parts (R : relation World) `{!PreOrder R} :
  respects R next_round -> (forall now a, respects R (tick now a)) ->
  respects R (render LeftEye RightEye) ->
  forall clock main, respects R (run_loop clock main).
Proof.
  pose proof (fun A => @respects_ret R _ A) as Hret.
  pose proof (fun A B => @respects_bind R _ A B) as Hbind.
  intros Hn Ht Hr clock. induction clock as [|t clock IH]; intros main; simpl.
  - apply Hret.
  - apply Hbind; [|intros [m f]].
    + unfold loop_body. apply Hbind; [|intros q].
      * destruct (done main); [exact Hn|apply Hret].
      * apply Hbind; [apply Ht|intros q'].
        apply Hbind; [exact Hr|intros ?; apply Hret].
    + apply Hbind; [apply IH|intros [m' fs]]. apply Hret.
Qed.

(** ** The contrast of the device *)

#[global] Instance dimmed_PreOrder : PreOrder dimmed.
Proof.
  split.
  - intros w. exists []. split; [reflexivity|constructor].
  - intros w1 w2 w3 (l1 & H1 & F1) (l2 & H2 & F2). exists (l2 ++ l1).
    split; [now rewrite H2, H1, app_assoc|now apply Forall_app].
Qed.

Lemma dimmed_same (w w' : World) : contrast w' = contrast w -> dimmed w w'.
Proof. intros H. exists []. split; [exact H|constructor]. Qed.

Lemma tick_dimmed now a : respects dimmed (tick now a).
Proof.
  apply (respects_tick_where dimmed (fun _ => True)); [| |  |exact I].
  - intros s d l _. now apply Forall_true.
  - auto.
  - clear now a. intros now a Hl _ w a' w' H.
    apply (tick_linear_world _ _ _ _ _ Hl) in H as [->|H]; [reflexivity|].
    destruct a as [b e o d dx dy|b e l|b|b| |]; try contradiction.
    + destruct H as (p & ->). apply dimmed_same. unfold looked. now destruct e.
    + destruct H as (v & _ & ->). apply dimmed_same. unfold with_eyelids.
      now destruct e.
    + destruct H as (pct & H0 & H1 & H).
      assert (Hg : 27 <= glow_contrast pct <= 152).
      { apply glow_contrast_range. split; [now apply Qlt_le_weak|exact H1]. }
      destruct H as [->| ->].
      * exists [glow_contrast pct]. split; [reflexivity|]. now constructor.
      * exists [30; glow_contrast pct]. split; [reflexivity|].
        constructor; [lia|]. now constructor.
Qed.

Lemma next_round_dimmed : respects dimmed next_round.
Proof.
  apply respects_next_round; try apply _; intros; now apply dimmed_same.
Qed.

Lemma render_dimmed l r : respects dimmed (render l r).
Proof.
  apply respects_render; try apply _; intros; apply dimmed_same.
  unfold with_pixels. now destruct self.
Qed.

(** X8. Every value the program sends to [device.contrast] is between
    27 and 152: a [tick] of any animation only adds such values to what
    the device was sent, and so does the animation loop, for any number
    of iterations, any clock and any random draws. *)
Theorem contrast_sent_is_within_27_152 :
  (forall now a w a' w',
      tick now a w = Ok (a', w') ->
      exists l, contrast w' = l ++ contrast w
                /\ Forall (fun c => 27 <= c <= 152) l)
  /\ (forall source clock, exists main frames w',
        animation_loop source clock = Ok ((main, frames), w')
        /\ Forall (fun c => 27 <= c <= 152) (contrast w')).
Proof.
  split.
  - intros now a w a' w' H. exact (tick_dimmed now a w a' w' H).
  - intros source clock.
    destruct (run_loop_Ok clock initial_sequence (initial_world source)
                (loop_ok_initial source)) as (main & frames & w' & H & _ & _).
    exists main, frames, w'. split; [exact H|].
    destruct (respects_run_loop_parts dimmed next_round_dimmed tick_dimmed
                (render_dimmed _ _) clock _ _ _ _ H) as (l & -> & Hl).
    apply Forall_app. split; [exact Hl|]. simpl. constructor; [lia|constructor].
Qed.

(** ** What an animation acts on, and what none does *)

#[global] Instance untouched_PreOrder (t : target) : PreOrder (untouched t).
Proof.
  split.
  - intros w. now destruct t.
  - intros w1 w2 w3. destruct t; unfold untouched; congruence.
Qed.

#[global] Instance unrendered_PreOrder : PreOrder unrendered.
Proof.
  split.
  - intros w. now repeat split.
  - intros w1 w2 w3 (P1 & S1 & C1) (P2 & S2 & C2).
    split; [intros e; now rewrite P2|]. split; congruence.
Qed.

Lemma tick_unrendered now a : respects unrendered (tick now a).
Proof.
  apply respects_tick; try apply _; intros; (split; [intros e|]).
  - unfold with_eyelids. now destruct self, e.
  - unfold with_eyelids. now destruct self.
  - reflexivity.
  - now split.
  - unfold looked. now destruct self, e.
  - unfold looked. now destruct self.
Qed.

Lemma targets_begin (t : Z) (a : Animation) : targets (begin t a) = targets a.
Proof.
  induction a as [b e o d dx dy|b e l|b|b|s d l IH|s d l act IHl IHact]
    using Animation_tree_ind; try reflexivity.
  cbn [begin targets]. f_equal. rewrite map_map.
  induction IH as [|a r Ha _ IHr]; [reflexivity|]. simpl. now rewrite Ha, IHr.
Qed.

Lemma app_subseteq {A} (l1 l2 k1 k2 : list A) :
  l1 ⊆ k1 -> l2 ⊆ k2 -> l1 ++ l2 ⊆ k1 ++ k2.
Proof.
  intros H1 H2 x Hx. apply elem_of_app in Hx as [Hx|Hx]; apply elem_of_app; auto.
Qed.

Lemma tick_targets (now : Z) (a a' : Animation) (w w' : World) :
  tick now a w = Ok (a', w') -> targets a' ⊆ targets a.
Proof.
  revert a' w w'.
  induction a as [b e o d dx dy|b e l|b|b|s d l IH|s d l act IHl IHact]
    using Animation_tree_ind; intros a' w w' H;
    try (cbn [tick] in H; apply bind_Ok_inv in H as (b' & w1 & _ & [= <- _]);
         reflexivity).
  - rewrite tick_Group in H. apply bind_Ok_inv in H as (l' & w1 & Hl & [= <- _]).
    cbn [targets]. clear s d. revert l' w w1 Hl.
    induction IH as [|a r Ha _ IHr]; intros l' w w1 Hl.
    + injection Hl as <- _. reflexivity.
    + cbn [tick_all] in Hl.
      apply bind_Ok_inv in Hl as (a1 & w2 & H1 & Hl).
      apply bind_Ok_inv in Hl as (r1 & w3 & H2 & [= <- _]).
      apply Ha in H1. apply IHr in H2. simpl. now apply app_subseteq.
  - rewrite tick_Sequence in H.
    assert (Hnext : targets (Sequence_next now s d l)
                      ⊆ targets (AnimationSequence s d l act)).
    { destruct l as [|x r]; cbn [Sequence_next targets from_option].
      - intros x Hx. now apply elem_of_nil in Hx.
      - rewrite targets_begin. simpl. intros y Hy.
        apply elem_of_app in Hy as [Hy|Hy]; rewrite !elem_of_app; auto. }
    destruct act as [a|]; [|injection H as <- _; exact Hnext].
    destruct (done a); [injection H as <- _; exact Hnext|].
    apply bind_Ok_inv in H as (a1 & w1 & H1 & [= <- _]).
    apply IHact in H1. cbn [targets from_option]. now apply app_subseteq.
Qed.

Lemma tick_untouched (t : target) now a :
  t ∉ targets a -> respects (untouched t) (tick now a).
Proof.
  apply (respects_tick_where (untouched t) (fun a => t ∉ targets a)).
  - intros s d l H. cbn [targets] in H.
    induction l as [|c r IHr]; constructor.
    + intros Ht. apply H. simpl. apply elem_of_app. now left.
    + apply IHr. intros Ht. apply H. simpl. apply elem_of_app. now right.
  - intros s d l c H Ht. apply H. cbn [targets from_option].
    apply elem_of_app. now right.
  - clear now a. intros now a Hl Ht w a' w' H.
    apply (tick_linear_world _ _ _ _ _ Hl) in H as [->|H]; [reflexivity|].
    destruct a as [b e o d dx dy|b e l|b|b| |]; try contradiction.
    + destruct H as (p & ->). destruct t as [e'|e'|]; unfold untouched, looked.
      * destruct e, e'; try reflexivity; exfalso; apply Ht; simpl; now left.
      * now destruct e, e'.
      * now destruct e.
    + destruct H as (v & _ & ->). destruct t as [e'|e'|]; unfold untouched.
      * now destruct e, e'.
      * destruct e, e'; try reflexivity; exfalso; apply Ht; simpl; now left.
      * now destruct e.
    + destruct H as (pct & _ & _ & [-> | ->]); destruct t as [e'|e'|];
        unfold untouched; try (now destruct e');
        exfalso; apply Ht; simpl; now left.
Qed.

Lemma ticks_untouched (clock : list Z) (a a' : Animation) (w w' : World) (t : target) :
  ticks clock a w = Ok (a', w') -> t ∉ targets a -> untouched t w w'.
Proof.
  revert a w. induction clock as [|now clock IH]; intros a w H Hn.
  - injection H as <- <-. reflexivity.
  - cbn [ticks] in H. apply bind_Ok_inv in H as (a1 & w1 & H1 & H).
    transitivity w1; [exact (tick_untouched t now a Hn _ _ _ H1)|].
    apply (IH _ _ H). intros Hin. apply Hn.
    now apply (tick_targets _ _ _ _ _ H1).
Qed.

Lemma ticks_unrendered clock a : respects unrendered (ticks clock a).
Proof.
  revert a. induction clock as [|now clock IH]; intros a w a' w' H.
  - injection H as <- <-. reflexivity.
  - cbn [ticks] in H. apply bind_Ok_inv in H as (a1 & w1 & H1 & H).
    transitivity w1; [exact (tick_unrendered _ _ _ _ _ H1)|exact (IH _ _ _ _ H)].
Qed.

(** X9. An animation writes only to what the linear animations in it
    are for: along any number of ticks, an eye's pupil is moved only by
    a Look of that eye, its eyelids only by a Blink of that eye, and
    the contrast of the device only by a GlowEyes.  No animation writes
    to a pixel buffer or draws a random number, the points that exist
    are kept, and no tick adds a target to an animation. *)
Theorem animation_acts_on_its_targets_only (clock : list Z) (a a' : Animation)
    (w w' : World) :
  ticks clock a w = Ok (a', w') ->
  (forall t, t ∉ targets a -> untouched t w w')
  /\ unrendered w w'
  /\ points w `prefix_of` points w'
  /\ targets a' ⊆ targets a.
Proof.
  intros H. split; [intros t; now apply (ticks_untouched clock a a')|].
  split; [exact (ticks_unrendered _ _ _ _ _ H)|].
  revert a w H. induction clock as [|now clock IH]; intros a w H.
  - injection H as <- <-. split; reflexivity.
  - cbn [ticks] in H. apply bind_Ok_inv in H as (a1 & w1 & H1 & H).
    destruct (IH _ _ H) as [Hp Ht]. split.
    + transitivity (points w1); [exact (tick_keeps_points _ _ _ _ _ H1)|exact Hp].
    + transitivity (targets a1); [exact Ht|exact (tick_targets _ _ _ _ _ H1)].
Qed.

Lemma animation_acts_on_its_targets_only_witness :
  let a := begin 0 (AnimationGroup_init [blink LeftEye None; GlowEyes_init 300]) in
  let w := initial_world (fun _ => 0) in
  exists a' w',
    ticks [100000; 200000] a w = Ok (a', w')
    /\ untouched (Lids RightEye) w w'
    /\ eyelids (left_eye w') = 3.
Proof.
  intros a w. eexists _, _. split; [vm_compute; reflexivity|].
  split; [|reflexivity].
  refine (proj1 (animation_acts_on_its_targets_only [100000; 200000] a _ w _ _)
            (Lids RightEye) _); [vm_compute; reflexivity|].
  simpl. intros H. apply elem_of_cons in H as [H|H]; [discriminate|].
  apply elem_of_cons in H as [H|H]; [discriminate|]. now apply elem_of_nil in H.
Defined.

(** ** The scripts of the effects *)

Lemma Look_init_script eye dest ms :
  returns (fun a => targets a = [Pupil eye] /\ map duration_ms (leaves a) = [ms])
          (Look_init eye dest ms).
Proof.
  unfold Look_init.
  do 5 (eapply returns_bind; [apply returns_any|intros ? _]).
  apply returns_mret. split; [reflexivity|]. simpl.
  now destruct (decide _).
Qed.

Lemma look_both_script l r lx ly rx ry ms :
  returns (two_eye_step l r ms) (look_both l r lx ly rx ry ms).
Proof.
  unfold look_both, look.
  eapply returns_bind; [apply returns_any|intros p _].
  eapply returns_bind; [apply Look_init_script|intros a [Ta Da]].
  eapply returns_bind; [apply returns_any|intros q _].
  eapply returns_bind; [apply Look_init_script|intros b [Tb Db]].
  apply returns_mret. unfold two_eye_step. cbn [AnimationGroup_init targets leaves].
  simpl in *. rewrite Ta, Tb, !map_app, Da, Db. split; reflexivity.
Qed.

Lemma CrossEyes_script l r ms :
  returns (fun a =>
             targets a = [Pupil l; Pupil r; Pupil l; Pupil r]
             /\ map duration_ms (leaves a) =
                  [default 3000 ms / 3; default 3000 ms / 3; 300;
                   default 3000 ms / 3; default 3000 ms / 3])
          (CrossEyes l r ms).
Proof.
  unfold CrossEyes. cbv zeta.
  eapply returns_bind; [apply look_both_script|intros g1 [T1 D1]].
  eapply returns_bind; [apply look_both_script|intros g2 [T2 D2]].
  apply returns_mret. cbn [AnimationSequence_init targets leaves from_option].
  simpl. rewrite T1, T2, !app_nil_r, !map_app. simpl. rewrite D1, D2.
  split; reflexivity.
Qed.

Lemma MethEyes_script l r ms :
  returns (fun a =>
             targets a = [Pupil l; Pupil r; Pupil l; Pupil r]
             /\ map duration_ms (leaves a) =
                  [default 3000 ms / 3; default 3000 ms / 3; 300;
                   default 3000 ms / 3; default 3000 ms / 3])
          (MethEyes l r ms).
Proof.
  unfold MethEyes. cbv zeta.
  eapply returns_bind; [apply look_both_script|intros g1 [T1 D1]].
  eapply returns_bind; [apply look_both_script|intros g2 [T2 D2]].
  apply returns_mret. cbn [AnimationSequence_init targets leaves from_option].
  simpl. rewrite T1, T2, !app_nil_r, !map_app. simpl. rewrite D1, D2.
  split; reflexivity.
Qed.

Lemma LazyEye_script eye ms :
  returns (fun a =>
             targets a = [Pupil eye; Pupil eye]
             /\ map duration_ms (leaves a) =
                  [default 2000 ms / 3 * 2; default 2000 ms / 3])
          (LazyEye eye ms).
Proof.
  unfold LazyEye, look. cbv zeta.
  eapply returns_bind; [apply returns_any|intros p _].
  eapply returns_bind; [apply Look_init_script|intros a [Ta Da]].
  eapply returns_bind; [apply returns_any|intros q _].
  eapply returns_bind; [apply Look_init_script|intros b [Tb Db]].
  apply returns_mret. cbn [AnimationSequence_init targets leaves from_option].
  simpl in *. rewrite Ta, Tb, !app_nil_r, !map_app, Da, Db. split; reflexivity.
Qed.

Lemma CrazySpin_script l r ms :
  returns (fun a => Forall (two_eye_step l r (default 400 ms / 16)) (queue a))
          (CrazySpin l r ms).
Proof.
  unfold CrazySpin. cbv zeta.
  eapply returns_bind;
    [apply returns_for_list; intros ?; apply look_both_script|intros a Ha].
  now apply returns_mret.
Qed.

Lemma RoundSpin_script l r ms :
  returns (fun a => Forall (two_eye_step l r (default 400 ms / 27)) (queue a))
          (RoundSpin l r ms).
Proof.
  unfold RoundSpin. cbv zeta.
  eapply returns_bind; [apply look_both_script|intros g Hg].
  eapply returns_bind.
  { apply returns_for_list. intros _. apply returns_for_list.
    intros [[[lx ly] rx] ry]. apply look_both_script. }
  intros rounds Hr. apply returns_mret. cbn [AnimationSequence_init queue].
  constructor; [exact Hg|]. now apply Forall_concat.
Qed.

(** X10. What the effects are made of, for any [duration_ms] (omitted:
    the default).  CrossEyes and MethEyes are two Looks of both eyes of
    a third of the duration each, with a Wait between them that lasts
    300 ms whatever the duration; CrazyBlink is a Blink of the left
    eye, then one of the right eye, of half the duration each; LazyEye
    is two Looks of the one eye, of two thirds and of one third of the
    duration; every step of CrazySpin and of RoundSpin is a Look of
    both eyes of a 16th and of a 27th of the duration.  The divisions
    round down. *)
Theorem effect_scripts (l r : EyeRef) (ms : option Z) (w : World) :
  world_ok w ->
  (exists a w', CrossEyes l r ms w = Ok (a, w')
     /\ targets a = [Pupil l; Pupil r; Pupil l; Pupil r]
     /\ map duration_ms (leaves a) =
          [default 3000 ms / 3; default 3000 ms / 3; 300;
           default 3000 ms / 3; default 3000 ms / 3])
  /\ (exists a w', MethEyes l r ms w = Ok (a, w')
        /\ targets a = [Pupil l; Pupil r; Pupil l; Pupil r]
        /\ map duration_ms (leaves a) =
             [default 3000 ms / 3; default 3000 ms / 3; 300;
              default 3000 ms / 3; default 3000 ms / 3])
  /\ (exists a w', CrazyBlink l r ms w = Ok (a, w')
        /\ targets a = [Lids l; Lids r]
        /\ map duration_ms (leaves a) = [default 1500 ms / 2; default 1500 ms / 2])
  /\ (exists a w', LazyEye l ms w = Ok (a, w')
        /\ targets a = [Pupil l; Pupil l]
        /\ map duration_ms (leaves a) = [default 2000 ms / 3 * 2; default 2000 ms / 3])
  /\ (exists a w', CrazySpin l r ms w = Ok (a, w')
        /\ Forall (two_eye_step l r (default 400 ms / 16)) (queue a))
  /\ (exists a w', RoundSpin l r ms w = Ok (a, w')
        /\ Forall (two_eye_step l r (default 400 ms / 27)) (queue a)).
Proof.
  intros Hw. repeat split.
  - destruct (CrossEyes_built l r ms w Hw) as (a & w' & H & _).
    exists a, w'. split; [exact H|]. exact (CrossEyes_script l r ms _ _ _ H).
  - destruct (MethEyes_built l r ms w Hw) as (a & w' & H & _).
    exists a, w'. split; [exact H|]. exact (MethEyes_script l r ms _ _ _ H).
  - eexists _, _. split; [reflexivity|]. split; reflexivity.
  - destruct (LazyEye_built l ms w Hw) as (a & w' & H & _).
    exists a, w'. split; [exact H|]. exact (LazyEye_script l ms _ _ _ H).
  - destruct (CrazySpin_built l r ms w Hw) as (a & w' & H & _).
    exists a, w'. split; [exact H|]. exact (CrazySpin_script l r ms _ _ _ H).
  - destruct (RoundSpin_built l r ms w Hw) as (a & w' & H & _).
    exists a, w'. split; [exact H|]. exact (RoundSpin_script l r ms _ _ _ H).
Qed.

Lemma effect_scripts_witness :
  exists a w', CrossEyes LeftEye RightEye (Some 900) (initial_world (fun _ => 0))
                 = Ok (a, w')
     /\ targets a = [Pupil LeftEye; Pupil RightEye; Pupil LeftEye; Pupil RightEye]
     /\ map duration_ms (leaves a) = [300; 300; 300; 300; 300].
Proof.
  refine (proj1 (effect_scripts LeftEye RightEye (Some 900)
                   (initial_world (fun _ => 0)) _)).
  split; simpl; lia.
Defined.

(** ** LazyEye *)

Lemma Eye_eq (e1 e2 : Eye) :
  pixels e1 = pixels e2 -> pupil e1 = pupil e2 -> eyelids e1 = eyelids e2 -> e1 = e2.
Proof. destruct e1, e2. simpl. now intros -> -> ->. Qed.

(** X11. LazyEye "lowers pupil of a single eye only": the effect can be
    built, and however it is ticked, the other eye stays exactly as it
    is, the eyelids of the eye itself are not moved, and the contrast
    of the device is not changed. *)
Theorem LazyEye_moves_a_single_pupil_only (eye : EyeRef) (ms : option Z) (w : World) :
  world_ok w ->
  exists a w1,
    LazyEye eye ms w = Ok (a, w1)
    /\ forall clock a' w',
         ticks clock a w1 = Ok (a', w') ->
         (forall other, other <> eye -> eye_of other w' = eye_of other w1)
         /\ eyelids (eye_of eye w') = eyelids (eye_of eye w1)
         /\ contrast w' = contrast w1.
Proof.
  intros Hw. destruct (LazyEye_built eye ms w Hw) as (a & w1 & H & _).
  exists a, w1. split; [exact H|]. intros clock a' w' Ht.
  destruct (LazyEye_script eye ms _ _ _ H) as [HT _].
  pose proof (fun t Hn => ticks_untouched clock a a' w1 w' t Ht Hn) as Hu.
  destruct (ticks_unrendered _ _ _ _ _ Ht) as (Hpx & _).
  assert (Hn : forall t, t <> Pupil eye -> t ∉ targets a).
  { intros t Hne Hin. rewrite HT in Hin.
    apply elem_of_cons in Hin as [Hin|Hin]; [contradiction|].
    apply elem_of_cons in Hin as [Hin|Hin]; [contradiction|].
    now apply elem_of_nil in Hin. }
  split; [|split].
  - intros other Hne. apply Eye_eq.
    + apply Hpx.
    + apply (Hu (Pupil other)), Hn. congruence.
    + apply (Hu (Lids other)), Hn. discriminate.
  - apply (Hu (Lids eye)), Hn. discriminate.
  - apply (Hu Contrast), Hn. discriminate.
Qed.

Lemma LazyEye_moves_a_single_pupil_only_witness :
  exists a w1,
    LazyEye LeftEye None (initial_world (fun _ => 0)) = Ok (a, w1)
    /\ forall clock a' w',
         ticks clock a w1 = Ok (a', w') ->
         (forall other, other <> LeftEye -> eye_of other w' = eye_of other w1)
         /\ eyelids (eye_of LeftEye w') = eyelids (eye_of LeftEye w1)
         /\ contrast w' = contrast w1.
Proof.
  apply (LazyEye_moves_a_single_pupil_only LeftEye None (initial_world (fun _ => 0))).
  split; simpl; lia.
Defined.

(** ** Single pixels and rows *)

Lemma lor_byte (a k : Z) :
  0 <= a < 256 -> 0 <= k <= 7 -> 0 <= Z.lor a (Z.shiftl 1 k) < 256.
Proof.
  intros Ha Hk. rewrite Z.shiftl_1_l.
  assert (H2k : 0 < 2 ^ k) by (apply Z.pow_pos_nonneg; lia).
  assert (Hnn : 0 <= Z.lor a (2 ^ k)) by (apply Z.lor_nonneg; lia).
  split; [exact Hnn|]. change 256 with (2 ^ 8).
  apply Z.bounded_iff_bits_nonneg; [lia|exact Hnn|].
  intros l Hl. rewrite Z.lor_spec, Z.pow2_bits_eqb by lia.
  rewrite (proj1 (Z.bounded_iff_bits_nonneg 8 a ltac:(lia) ltac:(lia))
             ltac:(change (2 ^ 8) with 256; lia) l Hl).
  simpl. apply Z.eqb_neq. lia.
Qed.

Lemma _on_Ok (self : EyeRef) (x y : Z) (w : World) :
  rows_ok (pixels (eye_of self w)) ->
  _on self x y w =
    Ok (tt, with_pixels self (set_pixel x y (pixels (eye_of self w))) w).
Proof.
  intros Hok. pose proof (row_index_lt y _ Hok) as Hlt.
  unfold _on, mbind, M_bind, get_eye, getitem.
  destruct (lookup_lt_is_Some_2 _ _ Hlt) as [row Hrow].
  rewrite Hrow. unfold mret, M_ret.
  rewrite set_pixel_row_Ok; [|assumption|].
  - unfold set_pixel. now rewrite Hrow.
  - apply lor_byte.
    + pose proof (rows_ok_lookup _ (Z.to_nat (y mod 8)) Hok) as Hb.
      now rewrite Hrow in Hb.
    + pose proof (Z.mod_pos_bound x 8 ltac:(lia)). lia.
Qed.

Lemma rows_ok_set_pixel (x y : Z) (px : list Z) :
  rows_ok px -> rows_ok (set_pixel x y px).
Proof.
  intros H. apply rows_ok_insert; [assumption|].
  apply lor_byte; [now apply rows_ok_lookup|].
  pose proof (Z.mod_pos_bound x 8 ltac:(lia)). lia.
Qed.

Lemma testbit_mask (x c : Z) :
  0 <= c < 8 ->
  Z.testbit (Z.shiftl 1 (7 - x mod 8)) (7 - c) = bool_decide (c = x mod 8).
Proof.
  intros Hc. pose proof (Z.mod_pos_bound x 8 ltac:(lia)).
  rewrite Z.shiftl_1_l, Z.pow2_bits_eqb by lia.
  destruct (decide (c = x mod 8)) as [->|Hne].
  - rewrite bool_decide_eq_true_2 by reflexivity. apply Z.eqb_refl.
  - rewrite bool_decide_eq_false_2 by assumption. apply Z.eqb_neq. lia.
Qed.

Lemma pixel_at_insert (px : list Z) (x y r c v : Z) :
  length px = 8%nat -> 0 <= r < 8 ->
  pixel_at (<[Z.to_nat (y mod 8) := v]> px) r c =
    if bool_decide (r = y mod 8) then Z.testbit v (7 - c) else pixel_at px r c.
Proof.
  intros Hlen Hr. pose proof (Z.mod_pos_bound y 8 ltac:(lia)).
  unfold pixel_at. destruct (decide (r = y mod 8)) as [->|Hne].
  - rewrite bool_decide_eq_true_2 by reflexivity.
    rewrite list_lookup_insert_eq by lia. reflexivity.
  - rewrite bool_decide_eq_false_2 by assumption.
    rewrite list_lookup_insert_ne by lia. reflexivity.
Qed.

Lemma pixel_at_clear_pixel (px : list Z) (x y r c : Z) :
  length px = 8%nat -> 0 <= r < 8 -> 0 <= c < 8 ->
  pixel_at (clear_pixel x y px) r c = pixel_at px r c && negb (wraps_to x y r c).
Proof.
  intros Hlen Hr Hc. unfold clear_pixel, wraps_to.
  rewrite (pixel_at_insert px x) by assumption.
  destruct (decide (r = y mod 8)) as [->|Hne].
  - rewrite !bool_decide_eq_true_2 by reflexivity.
    rewrite Z.land_spec, Z.lnot_spec, testbit_mask by lia. reflexivity.
  - rewrite !(bool_decide_eq_false_2 (r = _)) by assumption.
    simpl. now rewrite andb_true_r.
Qed.

Lemma pixel_at_set_pixel (px : list Z) (x y r c : Z) :
  length px = 8%nat -> 0 <= r < 8 -> 0 <= c < 8 ->
  pixel_at (set_pixel x y px) r c = pixel_at px r c || wraps_to x y r c.
Proof.
  intros Hlen Hr Hc. unfold set_pixel, wraps_to.
  rewrite (pixel_at_insert px x) by assumption.
  destruct (decide (r = y mod 8)) as [->|Hne].
  - rewrite !bool_decide_eq_true_2 by reflexivity.
    rewrite Z.lor_spec, testbit_mask by lia. reflexivity.
  - rewrite !(bool_decide_eq_false_2 (r = _)) by assumption.
    simpl. now rewrite orb_false_r.
Qed.

Lemma lor_land_lnot (a m : Z) : Z.land a m = m -> Z.lor (Z.land a (Z.lnot m)) m = a.
Proof.
  intros H. apply Z.bits_inj'. intros n Hn.
  rewrite Z.lor_spec, Z.land_spec, Z.lnot_spec by assumption.
  apply (f_equal (fun v => Z.testbit v n)) in H. rewrite Z.land_spec in H.
  destruct (Z.testbit a n), (Z.testbit m n); simpl in *; congruence.
Qed.

Lemma lit_pixel_mask (a x : Z) :
  0 <= a -> Z.testbit a (7 - x mod 8) = true ->
  Z.land a (Z.shiftl 1 (7 - x mod 8)) = Z.shiftl 1 (7 - x mod 8).
Proof.
  intros Ha Hb. pose proof (Z.mod_pos_bound x 8 ltac:(lia)).
  apply Z.bits_inj'. intros n Hn.
  rewrite Z.land_spec, Z.shiftl_1_l, Z.pow2_bits_eqb by lia.
  destruct (Z.eqb_spec (7 - x mod 8) n) as [<-|_].
  - now rewrite Hb.
  - apply andb_false_r.
Qed.

Lemma set_pixel_clear_pixel (px : list Z) (x y : Z) :
  rows_ok px -> pixel_at px (y mod 8) (x mod 8) = true ->
  set_pixel x y (clear_pixel x y px) = px.
Proof.
  intros Hok Hlit. pose proof (row_index_lt y _ Hok) as Hlt.
  destruct (lookup_lt_is_Some_2 _ _ Hlt) as [row Hrow].
  unfold pixel_at in Hlit. rewrite Hrow in Hlit. simpl in Hlit.
  unfold set_pixel, clear_pixel.
  rewrite list_lookup_insert_eq by assumption. rewrite list_insert_insert_eq.
  rewrite Hrow. simpl. apply list_insert_id. rewrite Hrow. f_equal. symmetry.
  apply lor_land_lnot, lit_pixel_mask; [|exact Hlit].
  pose proof (rows_ok_lookup _ (Z.to_nat (y mod 8)) Hok) as Hb.
  rewrite Hrow in Hb. simpl in Hb. lia.
Qed.

(** X12. [_on] and [_off] on the 8-row buffer of an eye: they return,
    and set and clear exactly the pixel in column [x mod 8] of row
    [y mod 8], so that coordinates off the matrix wrap around; every
    other pixel keeps its value and the rows stay bytes.  Clearing a
    lit pixel and setting it again gives back the buffer. *)
Theorem on_off_flip_one_pixel (self : EyeRef) (x y : Z) (w : World) :
  rows_ok (pixels (eye_of self w)) ->
  let px := pixels (eye_of self w) in
  _on self x y w = Ok (tt, with_pixels self (set_pixel x y px) w)
  /\ _off self x y w = Ok (tt, with_pixels self (clear_pixel x y px) w)
  /\ rows_ok (set_pixel x y px) /\ rows_ok (clear_pixel x y px)
  /\ (forall r c, 0 <= r < 8 -> 0 <= c < 8 ->
        pixel_at (set_pixel x y px) r c = pixel_at px r c || wraps_to x y r c
        /\ pixel_at (clear_pixel x y px) r c = pixel_at px r c && negb (wraps_to x y r c))
  /\ (forall i j, _on self (x + 8 * i) (y + 8 * j) w = _on self x y w
                  /\ _off self (x + 8 * i) (y + 8 * j) w = _off self x y w)
  /\ (pixel_at px (y mod 8) (x mod 8) = true ->
      (_off self x y;; _on self x y) w = Ok (tt, w)).
Proof.
  intros Hok px. pose proof Hok as [Hlen _].
  split; [now apply _on_Ok|]. split; [now apply _off_Ok|].
  split; [now apply rows_ok_set_pixel|]. split; [now apply rows_ok_clear_pixel|].
  split; [|split].
  - intros r c Hr Hc.
    split; [now apply pixel_at_set_pixel|now apply pixel_at_clear_pixel].
  - intros i j. unfold _on, _off.
    rewrite !(Z.mul_comm 8), !Z.mod_add by lia. split; reflexivity.
  - intros Hlit. erewrite bind_Ok by now apply _off_Ok.
    rewrite _on_Ok; rewrite pixels_with_pixels; [|now apply rows_ok_clear_pixel].
    rewrite with_pixels_with_pixels, set_pixel_clear_pixel by assumption.
    now rewrite with_pixels_same.
Qed.

Lemma on_off_flip_one_pixel_witness :
  let w := initial_world (fun _ => 0) in
  _on LeftEye 8 (-1) w = Ok (tt, with_pixels LeftEye (set_pixel 8 (-1) eye_ball) w)
  /\ pixel_at (set_pixel 8 (-1) eye_ball) 7 0 = true
  /\ pixel_at eye_ball 7 0 = false.
Proof.
  intros w.
  pose proof (on_off_flip_one_pixel LeftEye 8 (-1) w rows_ok_eye_ball) as H.
  split; [exact (proj1 H)|]. split; reflexivity.
Defined.

Lemma row_write_Ok (self : EyeRef) (y v : Z) (w : World) :
  pixels (eye_of self w) <> [] -> 0 <= v < 256 ->
  (n ← len_pixels self; y ← py_mod y n; set_pixel_row self y v) w =
    Ok (tt, with_pixels self
              (<[Z.to_nat (y mod Z.of_nat (length (pixels (eye_of self w)))) := v]>
                 (pixels (eye_of self w))) w).
Proof.
  intros Hne Hv.
  assert (Hlen : (0 < length (pixels (eye_of self w)))%nat).
  { destruct (pixels (eye_of self w)); [congruence|simpl; lia]. }
  unfold len_pixels, py_mod, mbind, M_bind, get_eye, mret, M_ret.
  destruct (decide _) as [?|_]; [lia|]. unfold mret, M_ret.
  rewrite set_pixel_row_Ok; [reflexivity| |exact Hv].
  pose proof (Z.mod_pos_bound y (Z.of_nat (length (pixels (eye_of self w))))
                ltac:(lia)). lia.
Qed.

(** X13. [_row_on] and [_row_off] wrap the row number by the length of
    the buffer, not by 8: on a buffer with rows they always return, and
    set row [y mod len] to 0xff or to 0 and no other; on an empty
    buffer they raise [ZeroDivisionError].  [_on] and [_off], which
    wrap by 8, raise [IndexError] on a buffer that is too short for the
    row. *)
Theorem row_on_off_wrap_by_buffer_length (self : EyeRef) (x y : Z) (w : World) :
  let px := pixels (eye_of self w) in
  let row := Z.to_nat (y mod Z.of_nat (length px)) in
  (px = [] ->
     _row_on self y w = Raise ZeroDivisionError
     /\ _row_off self y w = Raise ZeroDivisionError)
  /\ (px <> [] ->
        _row_on self y w = Ok (tt, with_pixels self (<[row := 255]> px) w)
        /\ _row_off self y w = Ok (tt, with_pixels self (<[row := 0]> px) w)
        /\ (row < length px)%nat
        /\ forall i, i <> row ->
             <[row := 255]> px !! i = px !! i /\ <[row := 0]> px !! i = px !! i)
  /\ ((length px <= Z.to_nat (y mod 8))%nat ->
        _on self x y w = Raise IndexError /\ _off self x y w = Raise IndexError).
Proof.
  intros px row. split; [|split].
  - intros Hnil. unfold _row_on, _row_off, len_pixels, py_mod, mbind, M_bind, get_eye.
    fold px. rewrite Hnil. simpl. split; reflexivity.
  - intros Hne. split; [|split; [|split]].
    + apply row_write_Ok; [exact Hne|lia].
    + apply row_write_Ok; [exact Hne|lia].
    + assert (Hlen : (0 < length px)%nat).
      { destruct px; [congruence|simpl; lia]. }
      pose proof (Z.mod_pos_bound y (Z.of_nat (length px)) ltac:(lia)).
      unfold row. lia.
    + intros i Hi. split; now apply list_lookup_insert_ne.
  - intros Hshort. unfold _on, _off, mbind, M_bind, get_eye, getitem. fold px.
    rewrite (lookup_ge_None_2 px (Z.to_nat (y mod 8))) by lia.
    split; reflexivity.
Qed.

(** ** The end of a Blink *)



(** ** A closed eye *)

Lemma eye_bitmap_closed (p : Point.t) (lids : Z) :
  3 <= lids -> eye_bitmap p lids = replicate 8 0.
Proof.
  intros H.
  assert (Hrow : forall r, 0 <= r < 8 -> row_byte (lit p lids r) = 0).
  { intros r Hr. rewrite (row_byte_ext _ (fun _ => false)); [reflexivity|].
    intros c _. unfold lit, under_eyelids.
    rewrite (bool_decide_eq_true_2 (0 <= lids)) by lia.
    destruct (decide (r <= lids)).
    - rewrite (bool_decide_eq_true_2 (r <= lids)) by assumption.
      simpl. apply andb_false_r.
    - rewrite (bool_decide_eq_true_2 (7 - lids <= r)) by lia.
      rewrite orb_true_r. simpl. apply andb_false_r. }
  unfold eye_bitmap. rewrite seqZ_0_8. simpl. rewrite !Hrow by lia. reflexivity.
Qed.

(** X15. An eye whose eyelids are at 3 is closed: its image is dark in
    all 8 rows, wherever the pupil is.  So closing the eyelids to any
    offset from 3 on and rendering gives the dark image. *)
Theorem closed_eye_is_dark (self : EyeRef) (offset : Z) (w : World) (p : Point.t) :
  points w !! pupil (eye_of self w) = Some p ->
  3 <= offset ->
  (_eyelids self offset;; image self) w =
    Ok (replicate 8 0, with_pixels self (replicate 8 0) (with_eyelids self 3 w))
  /\ (3 <= eyelids (eye_of self w) ->
      image self w = Ok (replicate 8 0, with_pixels self (replicate 8 0) w)).
Proof.
  intros Hp Ho. split.
  - assert (Hl : _eyelids self offset w = Ok (tt, with_eyelids self 3 w)).
    { unfold _eyelids, set_eyelids. do 3 f_equal. lia. }
    erewrite bind_Ok by exact Hl.
    rewrite (image_draw self _ p).
    + assert (He : eyelids (eye_of self (with_eyelids self 3 w)) = 3)
        by (unfold with_eyelids; now rewrite eye_of_with_eye).
      rewrite He, draw_eye_bitmap, eye_bitmap_closed by lia. reflexivity.
    + unfold with_eyelids. now rewrite points_with_eye, eye_of_with_eye.
  - intros Hl. rewrite (image_draw self w p Hp).
    now rewrite draw_eye_bitmap, eye_bitmap_closed by assumption.
Qed.

Lemma closed_eye_is_dark_witness :
  (_eyelids LeftEye 7;; image LeftEye) (initial_world (fun _ => 0)) =
    Ok (replicate 8 0,
        with_pixels LeftEye (replicate 8 0)
          (with_eyelids LeftEye 3 (initial_world (fun _ => 0)))).
Proof.
  refine (proj1 (closed_eye_is_dark LeftEye 7 (initial_world (fun _ => 0))
                   (Point.mk 4 4) _ _)); [reflexivity|lia].
Defined.

(** ** Groups that are due *)

Lemma tick_due (now : Z) (a a' : Animation) (w w' : World) :
  due now a = true -> tick now a w = Ok (a', w') -> done a' = true.
Proof.
  revert a' w w'.
  induction a as [b e o d dx dy|b e l|b|b|s d l IH|s d l act IHl IHact]
    using Animation_tree_ind; cbn [due]; intros a' w w' Hdue H; try discriminate.
  1-4: cbn [tick] in H; apply bind_Ok_inv in H as (b' & w1 & Hb & [= <- _]);
    apply LinearAnimation_tick_cases in Hb as (t0 & Hs & Hb);
    rewrite Hs in Hdue; cbn [from_option] in Hdue; unfold is_past in Hdue;
    apply andb_prop in Hdue as [H0 H1];
    apply bool_decide_eq_true in H0, H1;
    destruct Hb as [(? & _)|[(_ & ? & _)|(_ & _ & -> & _)]]; try lia; reflexivity.
  rewrite tick_Group in H. apply bind_Ok_inv in H as (l' & w1 & Hl & [= <- _]).
  cbn [done]. clear s d. revert l' w w1 Hl Hdue.
  induction IH as [|a r Ha _ IHr]; intros l' w w1 Hl Hdue.
  - injection Hl as <- _. reflexivity.
  - cbn [tick_all] in Hl. simpl in Hdue. apply andb_prop in Hdue as [Hda Hdr].
    apply bind_Ok_inv in Hl as (a1 & w2 & H1 & Hl).
    apply bind_Ok_inv in Hl as (r1 & w3 & H2 & [= <- _]).
    simpl. rewrite (Ha _ _ _ Hda H1). simpl. exact (IHr _ _ _ H2 Hdr).
Qed.

Lemma due_ready (now : Z) (a : Animation) : due now a = true -> ready a = true.
Proof.
  unfold ready.
  induction a as [b e o d dx dy|b e l|b|b|s d l IH|s d l act IHl IHact]
    using Animation_tree_ind; cbn [due prepared]; intros H; try discriminate.
  1-4: destruct (LinearAnimation.start b); [|discriminate];
    apply bool_decide_eq_true_2; eauto.
  induction IH as [|a r Ha _ IHr]; [reflexivity|]. simpl in *.
  apply andb_prop in H as [H1 H2]. now rewrite Ha, IHr.
Qed.

(** X16. A group is done one tick after its longest child is over: the
    tick of an animation without sequences, all of whose linear
    animations were begun and are past their durations, and whose
    Looks start from points that exist, returns an animation that is
    done, linear animations and groups alike. *)
Theorem group_is_done_when_all_children_are_due (now : Z) (a : Animation) (w : World) :
  due now a = true -> anchored (length (points w)) a = true ->
  exists a' w', tick now a w = Ok (a', w') /\ done a' = true.
Proof.
  intros Hdue Ha.
  destruct (tick_Ok now a w (due_ready now a Hdue) Ha) as (a' & w' & H).
  exists a', w'. split; [exact H|]. exact (tick_due _ _ _ _ _ Hdue H).
Qed.

Lemma group_is_done_when_all_children_are_due_witness :
  exists a' w',
    tick 500001 (begin 0 (AnimationGroup_init [blink LeftEye None; Wait_init LeftEye None]))
         (initial_world (fun _ => 0)) = Ok (a', w')
    /\ done a' = true.
Proof.
  apply group_is_done_when_all_children_are_due; reflexivity.
Defined.

(** ** pick_effect *)

#[global] Instance only_allocates_PreOrder : PreOrder only_allocates.
Proof.
  split.
  - intros w. now repeat split.
  - intros w1 w2 w3 (P1 & E1 & C1 & S1 & N1) (P2 & E2 & C2 & S2 & N2).
    split; [now transitivity (points w2)|].
    split; [intros e; now rewrite E2|]. repeat split; congruence.
Qed.

Lemma new_Point_only_allocates x y : respects only_allocates (new_Point x y).
Proof.
  intros w p w' [= _ <-]. split; [now apply prefix_app_r|]. now repeat split.
Qed.

Lemma Look_init_only_allocates eye dest ms :
  respects only_allocates (Look_init eye dest ms).
Proof.
  pose proof (fun A => @respects_ret only_allocates _ A) as Hret.
  pose proof (fun A B => @respects_bind only_allocates _ A B) as Hbind.
  unfold Look_init.
  repeat first [ apply Hret | apply respects_get_eye; exact _
               | apply respects_deref; exact _ | apply Hbind; [|intros ?] ].
Qed.

Ltac only_allocates_steps :=
  repeat first
    [ apply (@respects_ret only_allocates _)
    | apply new_Point_only_allocates
    | apply Look_init_only_allocates
    | apply (@respects_for_list only_allocates _); intros ?
    | apply (@respects_bind only_allocates _); [|intros ?]
    | match goal with
      | |- respects _ (let '(_, _) := ?x in _) => destruct x
      | |- respects _ (if ?c then _ else _) => destruct c
      end ].

Lemma effects_only_allocate (l r : EyeRef) (i : Z) :
  respects only_allocates
    (if decide (i = 0) then CrossEyes l r None
     else if decide (i = 1) then CrazySpin l r None
     else if decide (i = 2) then MethEyes l r None
     else if decide (i = 3) then CrazyBlink l r None
     else if decide (i = 4) then LazyEye l None
     else if decide (i = 5) then RoundSpin l r None
     else mret (GlowEyes_init 300)).
Proof.
  unfold CrossEyes, CrazySpin, MethEyes, CrazyBlink, LazyEye, RoundSpin,
    look_both, look.
  cbv zeta. only_allocates_steps.
Qed.

Lemma pick_effect_fresh l r :
  returns (fun a => done a = false /\ start a = None) (pick_effect l r).
Proof.
  unfold pick_effect, CrossEyes, CrazySpin, MethEyes, CrazyBlink, LazyEye, RoundSpin.
  eapply returns_bind; [apply returns_any|intros i _]. cbv zeta.
  repeat (destruct (decide _); [|]);
    repeat (eapply returns_bind; [apply returns_any|intros ? _]);
    apply returns_mret; split; reflexivity.
Qed.

Lemma flat_unplayed (D : Z) (a : Animation) :
  flat D a = true -> unplayed D a = true.
Proof. destruct a; try discriminate; intros H; exact H. Qed.

Lemma unplayed_Sequence_init (D : Z) (l : list Animation) :
  Forall (fun a => unplayed D a = true) l ->
  unplayed D (AnimationSequence_init l) = true.
Proof.
  intros H. cbn [AnimationSequence_init unplayed].
  rewrite bool_decide_eq_true_2 by reflexivity. now apply forallb_Forall_true.
Qed.

Lemma Look_init_flat (D : Z) eye dest ms :
  ms <= D -> returns (fun a => flat D a = true) (Look_init eye dest ms).
Proof.
  intros Hms. unfold Look_init.
  do 5 (eapply returns_bind; [apply returns_any|intros ? _]).
  apply returns_mret. cbn [flat].
  destruct (decide _); now apply bool_decide_eq_true_2.
Qed.

Lemma look_both_unplayed (D : Z) l r lx ly rx ry ms :
  ms <= D -> returns (fun a => unplayed D a = true) (look_both l r lx ly rx ry ms).
Proof.
  intros Hms. unfold look_both, look.
  eapply returns_bind; [apply returns_any|intros p _].
  eapply returns_bind; [now apply (Look_init_flat D)|intros a Ha].
  eapply returns_bind; [apply returns_any|intros q _].
  eapply returns_bind; [now apply (Look_init_flat D)|intros b Hb].
  apply returns_mret. cbn [AnimationGroup_init unplayed flat forallb].
  now rewrite Ha, Hb.
Qed.

(** No linear animation of an effect with its default duration lasts
    longer than the 1332 ms of LazyEye's first Look. *)
Lemma pick_effect_unplayed l r :
  returns (fun a => unplayed 1332 a = true) (pick_effect l r).
Proof.
  unfold pick_effect.
  eapply returns_bind; [apply returns_any|intros i _].
  repeat (destruct (decide _); [|]); try (now apply returns_mret).
  - unfold CrossEyes.
    eapply returns_bind; [apply (look_both_unplayed 1332); vm_compute; discriminate|intros g1 H1].
    eapply returns_bind; [apply (look_both_unplayed 1332); vm_compute; discriminate|intros g2 H2].
    apply returns_mret, unplayed_Sequence_init. repeat constructor; assumption.
  - unfold CrazySpin.
    eapply returns_bind;
      [apply returns_for_list; intros ?; apply (look_both_unplayed 1332); vm_compute; discriminate|intros a Ha].
    now apply returns_mret, unplayed_Sequence_init.
  - unfold MethEyes.
    eapply returns_bind; [apply (look_both_unplayed 1332); vm_compute; discriminate|intros g1 H1].
    eapply returns_bind; [apply (look_both_unplayed 1332); vm_compute; discriminate|intros g2 H2].
    apply returns_mret, unplayed_Sequence_init. repeat constructor; assumption.
  - unfold LazyEye, look.
    eapply returns_bind; [apply returns_any|intros p _].
    eapply returns_bind; [apply (Look_init_flat 1332); vm_compute; discriminate|intros a Ha].
    eapply returns_bind; [apply returns_any|intros q _].
    eapply returns_bind; [apply (Look_init_flat 1332); vm_compute; discriminate|intros b Hb].
    apply returns_mret, unplayed_Sequence_init.
    repeat constructor; now apply flat_unplayed.
  - unfold RoundSpin.
    eapply returns_bind; [apply (look_both_unplayed 1332); vm_compute; discriminate|intros g Hg].
    eapply returns_bind.
    { apply returns_for_list. intros _. apply returns_for_list.
      intros [[[lx ly] rx] ry]. apply (look_both_unplayed 1332); vm_compute; discriminate. }
    intros rounds Hr. apply returns_mret, unplayed_Sequence_init.
    constructor; [exact Hg|]. now apply Forall_concat.
Qed.

(** X17. [pick_effect] never fails and returns an effect that is ready
    for use: the effect was not begun and is not done, nothing in it
    is active yet and no linear animation in it lasts longer than
    1332 ms, it can be begun and played, and making it took exactly
    one draw from the random module and changed nothing else: not the
    eyes, not the device, and no point that existed. *)
Theorem pick_effect_returns_a_fresh_effect (l r : EyeRef) (w : World) :
  world_ok w ->
  exists a w',
    pick_effect l r w = Ok (a, w')
    /\ (start a = None /\ done a = false /\ startable a = true /\ settled a = true
        /\ anchored (length (points w')) a = true /\ unplayed 1332 a = true)
    /\ random_count w' = S (random_count w)
    /\ random_source w' = random_source w
    /\ (forall e, eye_of e w' = eye_of e w)
    /\ contrast w' = contrast w
    /\ points w `prefix_of` points w'.
Proof.
  intros Hw. destruct (pick_effect_built l r w Hw) as (a & w' & H & _ & _ & Hst & Han).
  exists a, w'. split; [exact H|].
  destruct (pick_effect_fresh l r _ _ _ H) as [Hd Hs].
  pose proof (pick_effect_settled l r _ _ _ H) as Hse.
  pose proof (pick_effect_unplayed l r _ _ _ H) as Hun.
  split; [repeat split; assumption|].
  unfold pick_effect in H. apply bind_Ok_inv in H as (i & w1 & Hi & H).
  injection Hi as _ <-.
  destruct (effects_only_allocate l r i _ _ _ H) as (Hp & He & Hc & Hrs & Hrc).
  split; [exact Hrc|]. split; [exact Hrs|]. split; [|split; assumption].
  intros e. rewrite He. now destruct e.
Qed.

Lemma pick_effect_returns_a_fresh_effect_witness :
  exists a w',
    pick_effect LeftEye RightEye (initial_world (fun _ => 3)) = Ok (a, w')
    /\ (start a = None /\ done a = false /\ startable a = true /\ settled a = true
        /\ anchored (length (points w')) a = true /\ unplayed 1332 a = true)
    /\ random_count w' = 1%nat.
Proof.
  destruct (pick_effect_returns_a_fresh_effect LeftEye RightEye
              (initial_world (fun _ => 3))) as (a & w' & H & Hf & Hc & _).
  - split; simpl; lia.
  - exists a, w'. auto.
Defined.

(** ** Every animation comes to an end *)

Lemma done_remaining (a : Animation) : done a = true <-> remaining a = 0%nat.
Proof.
  destruct a as [b ? ? ? ? ?|b ? ?|b|b|s d l|s d l act]; simpl;
    try (destruct (LinearAnimation.done b)); try (destruct d);
    split; intros; first [reflexivity|discriminate|lia].
Qed.

Lemma remaining_begin (t : Z) (a : Animation) : remaining (begin t a) = remaining a.
Proof. destruct a; reflexivity. Qed.

Lemma flat_begin (D t : Z) (a : Animation) : flat D (begin t a) = flat D a.
Proof.
  induction a as [b e o d dx dy|b e l|b|b|s d l IH|s d l act IHl IHact]
    using Animation_tree_ind; try reflexivity.
  cbn [begin flat]. induction IH as [|a r Ha _ IHr]; [reflexivity|].
  simpl. now rewrite Ha, IHr.
Qed.

Lemma begun_by_begin (D t : Z) (a : Animation) :
  flat D a = true -> begun_by t (begin t a) = true.
Proof.
  induction a as [b e o d dx dy|b e l|b|b|s d l IH|s d l act IHl IHact]
    using Animation_tree_ind; cbn [flat begin begun_by]; intros H;
    try discriminate; try (simpl; apply bool_decide_eq_true_2; lia).
  induction IH as [|a r Ha _ IHr]; [reflexivity|]. simpl in *.
  apply andb_prop in H as [H1 H2]. now rewrite Ha, IHr.
Qed.

Lemma timely_begin (D t : Z) (a : Animation) :
  unplayed D a = true -> timely D t (begin t a) = true.
Proof.
  destruct a as [b e o d dx dy|b e l|b|b|s d l|s d l act]; intros H.
  1-5: match goal with
       | |- timely _ _ (begin _ ?x) = true =>
           assert (E : timely D t (begin t x)
                       = flat D (begin t x) && begun_by t (begin t x))
             by reflexivity;
           rewrite E, flat_begin, (begun_by_begin D) by exact H;
           rewrite andb_true_r; exact H
       end.
  cbn [unplayed] in H. apply andb_prop in H as [Hact Hl].
  apply bool_decide_eq_true in Hact. subst act.
  cbn [begin timely from_option]. exact Hl.
Qed.

(** A flat animation begun by [t] is due after more than [D] ms. *)
Lemma flat_due (D t now : Z) (a : Animation) :
  0 <= D -> t + D * 1000 < now ->
  flat D a = true -> begun_by t a = true -> due now a = true.
Proof.
  intros HD Hnow.
  induction a as [b e o d dx dy|b e l|b|b|s d l IH|s d l act IHl IHact]
    using Animation_tree_ind; cbn [flat begun_by due]; intros Hf Hb;
    try discriminate.
  1-4: destruct (LinearAnimation.start b) as [t0|]; [|discriminate];
    cbn [from_option] in *; apply bool_decide_eq_true in Hf, Hb;
    unfold is_past; rewrite !bool_decide_eq_true_2 by nia; reflexivity.
  induction IH as [|a r Ha _ IHr]; [reflexivity|]. simpl in *.
  apply andb_prop in Hf as [Hf1 Hf2]. apply andb_prop in Hb as [Hb1 Hb2].
  now rewrite Ha, IHr.
Qed.

(** The tick of a flat animation keeps it flat, and begun as it was. *)
Lemma tick_flat (D t now : Z) (a a' : Animation) (w w' : World) :
  tick now a w = Ok (a', w') ->
  flat D a = true -> begun_by t a = true ->
  flat D a' = true /\ begun_by t a' = true.
Proof.
  revert a' w w'.
  induction a as [b e o d dx dy|b e l|b|b|s d l IH|s d l act IHl IHact]
    using Animation_tree_ind; cbn [flat begun_by]; intros a' w w' H Hf Hb;
    try discriminate.
  1-4: cbn [tick] in H; apply bind_Ok_inv in H as (b' & w1 & Hb' & [= <- _]);
    apply LinearAnimation_tick_cases in Hb' as (t0 & Hs & Hb');
    cbn [flat begun_by];
    destruct Hb' as [(_ & -> & _)|[(_ & _ & -> & _)|(_ & _ & -> & _)]]; auto.
  rewrite tick_Group in H. apply bind_Ok_inv in H as (l' & w1 & Hl & [= <- _]).
  cbn [flat begun_by]. clear s d. revert l' w w1 Hl Hf Hb.
  induction IH as [|a r Ha _ IHr]; intros l' w w1 Hl Hf Hb.
  - injection Hl as <- _. auto.
  - cbn [tick_all] in Hl. simpl in Hf, Hb.
    apply andb_prop in Hf as [Hf1 Hf2]. apply andb_prop in Hb as [Hb1 Hb2].
    apply bind_Ok_inv in Hl as (a1 & w2 & H1 & Hl).
    apply bind_Ok_inv in Hl as (r1 & w3 & H2 & [= <- _]).
    destruct (Ha _ _ _ H1 Hf1 Hb1) as [Ha1 Ha2].
    destruct (IHr _ _ _ H2 Hf2 Hb2) as [Hr1 Hr2].
    simpl. now rewrite Ha1, Ha2, Hr1, Hr2.
Qed.

Lemma begun_by_later (t t' : Z) (a : Animation) :
  t <= t' -> begun_by t a = true -> begun_by t' a = true.
Proof.
  intros Hle.
  induction a as [b e o d dx dy|b e l|b|b|s d l IH|s d l act IHl IHact]
    using Animation_tree_ind; cbn [begun_by]; intros H; try discriminate.
  1-4: destruct (LinearAnimation.start b) as [t0|]; [|discriminate];
    cbn [from_option] in *; apply bool_decide_eq_true in H;
    apply bool_decide_eq_true_2; lia.
  induction IH as [|a r Ha _ IHr]; [reflexivity|]. simpl in *.
  apply andb_prop in H as [H1 H2]. now rewrite Ha, IHr.
Qed.

(** A tick that comes more than [D] ms after the one before finishes a
    flat animation. *)
Lemma tick_flat_progress (D t now : Z) (a : Animation) (w : World) :
  0 <= D -> t + D * 1000 < now ->
  flat D a = true -> begun_by t a = true ->
  anchored (length (points w)) a = true ->
  exists a' w',
    tick now a w = Ok (a', w')
    /\ flat D a' = true /\ begun_by now a' = true /\ remaining a' = 0%nat.
Proof.
  intros HD Hnow Hf Hb Ha.
  pose proof (flat_due D t now a HD Hnow Hf Hb) as Hdue.
  destruct (tick_Ok now a w (due_ready now a Hdue) Ha) as (a' & w' & H).
  exists a', w'. split; [exact H|].
  destruct (tick_flat D t now _ _ _ _ H Hf Hb) as [Hf' Hb'].
  split; [exact Hf'|]. split; [apply (begun_by_later t); [lia|exact Hb']|].
  apply done_remaining. exact (tick_due _ _ _ _ _ Hdue H).
Qed.

Lemma remaining_not_done (a : Animation) :
  done a = false -> (0 < remaining a)%nat.
Proof.
  intros H. destruct (remaining a) eqn:E; [|lia].
  apply done_remaining in E. congruence.
Qed.

(** Every tick that comes more than [D] ms after the one before brings
    an animation that is played closer to its end. *)
Lemma tick_progress (D t now : Z) (a : Animation) (w : World) :
  0 <= D -> t + D * 1000 < now ->
  timely D t a = true -> settled a = true ->
  anchored (length (points w)) a = true ->
  exists a' w',
    tick now a w = Ok (a', w')
    /\ timely D now a' = true
    /\ (remaining a' <= remaining a)%nat
    /\ (done a = false -> (remaining a' < remaining a)%nat).
Proof.
  intros HD Hnow. revert w.
  assert (Htimely : forall a', flat D a' = true -> begun_by now a' = true ->
                               timely D now a' = true).
  { intros a' Hf Hb. destruct a'; cbn [timely]; try (now rewrite Hf, Hb).
    discriminate. }
  induction a as [b e o d dx dy|b e l|b|b|s d l IH|s d l act IHl IHact]
    using Animation_tree_ind; intros w Ht Hs Ha.
  1-5: cbn [timely] in Ht; apply andb_prop in Ht as [Hf Hb];
    destruct (tick_flat_progress D t now _ w HD Hnow Hf Hb Ha)
      as (c' & w' & H & Hf' & Hb' & Hr);
    exists c', w'; (split; [exact H|]); (split; [now apply Htimely|]);
    rewrite Hr; (split; [lia|]); apply remaining_not_done.
  cbn [timely] in Ht. apply andb_prop in Ht as [Hact Hl].
  cbn [settled] in Hs. apply andb_prop in Hs as [Hs Hsact].
  apply andb_prop in Hs as [Hd Hsl].
  cbn [anchored] in Ha. apply andb_prop in Ha as [Hal Haact].
  rewrite tick_Sequence.
  assert (Hnext :
    from_option remaining 0%nat act = 0%nat ->
    let a' := Sequence_next now s d l in
    timely D now a' = true
    /\ (remaining a' <= remaining (AnimationSequence s d l act))%nat
    /\ (d = false -> (remaining a' < remaining (AnimationSequence s d l act))%nat)).
  { intros Hr0. destruct l as [|x r]; cbn [Sequence_next].
    - split; [reflexivity|]. cbn [remaining]. split; [lia|].
      intros ->. lia.
    - simpl in Hl. apply andb_prop in Hl as [Hx Hr].
      split; [cbn [timely from_option]; now rewrite timely_begin, Hr|].
      cbn [remaining from_option foldr]. rewrite remaining_begin, Hr0.
      destruct d; [split; [lia|discriminate]|]. split; [lia|intros _; lia]. }
  destruct act as [c|].
  - destruct (done c) eqn:Hdc.
    + apply done_remaining in Hdc. destruct (Hnext Hdc) as (H1 & H2 & H3).
      eexists _, _. split; [reflexivity|]. split; [exact H1|]. split; [exact H2|].
      exact H3.
    + cbn [from_option] in *.
      destruct (IHact w Hact Hsact Haact) as (c' & w' & Hc & Ht' & Hle & Hlt).
      specialize (Hlt Hdc).
      erewrite bind_Ok by exact Hc. eexists _, _. split; [reflexivity|].
      assert (d = false) as ->.
      { destruct d; [|reflexivity]. destruct l; discriminate. }
      split; [cbn [timely from_option]; now rewrite Ht', Hl|].
      cbn [remaining from_option]. split; [lia|intros _; lia].
  - destruct (Hnext eq_refl) as (H1 & H2 & H3).
    eexists _, _. split; [reflexivity|]. split; [exact H1|]. split; [exact H2|].
    exact H3.
Qed.

(** X18. Every animation comes to an end.  An animation as the program
    builds them (a linear animation or a group that was begun, a
    sequence of such and of sequences), settled and with its Looks
    starting from points that exist, ticked at times that are each
    more than [D] ms later than the one before, where no linear
    animation in it lasts longer than [D] ms, raises nothing and is
    done after [remaining a] ticks at the latest: one tick for a linear
    animation or a group, and for a sequence one tick to start each
    child, the ticks of the child, and one tick more. *)
Theorem every_animation_comes_to_an_end (D t : Z) (clock : list Z) (a : Animation)
    (w : World) :
  0 <= D ->
  timely D t a = true -> settled a = true ->
  anchored (length (points w)) a = true ->
  spaced D t clock = true ->
  (remaining a <= length clock)%nat ->
  exists a' w', ticks clock a w = Ok (a', w') /\ done a' = true.
Proof.
  intros HD. revert t a w.
  induction clock as [|now clock IH]; intros t a w Ht Hs Ha Hsp Hlen.
  - exists a, w. split; [reflexivity|]. apply done_remaining. simpl in Hlen. lia.
  - cbn [spaced] in Hsp. apply andb_prop in Hsp as [Hnow Hsp].
    apply bool_decide_eq_true in Hnow.
    destruct (tick_progress D t now a w HD Hnow Ht Hs Ha)
      as (a1 & w1 & H1 & Ht1 & Hle & Hlt).
    destruct (IH now a1 w1) as (a' & w' & H & Hd); [exact Ht1| | |exact Hsp| |].
    + exact (proj2 (tick_done_monotone _ _ _ _ _ Hs H1)).
    + eapply anchored_mono; [|exact (tick_anchored _ _ _ _ _ _ H1 Ha)].
      apply tick_keeps_points in H1. now apply prefix_length.
    + destruct (done a) eqn:Hda; [|specialize (Hlt eq_refl); simpl in Hlen; lia].
      apply done_remaining in Hda. lia.
    + exists a', w'. split; [|exact Hd]. cbn [ticks].
      now erewrite bind_Ok by exact H1.
Qed.


Lemma every_animation_comes_to_an_end_witness :
  let a := AnimationSequence_init [blink LeftEye (Some 750); blink RightEye (Some 750)] in
  remaining a = 5%nat
  /\ exists a' w',
       ticks [1000000; 2000000; 3000000; 4000000; 5000000] a
             (initial_world (fun _ => 0)) = Ok (a', w')
       /\ done a' = true.
Proof.
  intros a. split; [reflexivity|].
  apply (every_animation_comes_to_an_end 750 0); try reflexivity; simpl; lia.
Defined.

(** ** A Look, from its construction to its end *)





